(** * HATS: the detection evaluator and the online post-processing

    A shallow embedding of
      - [Evaluation/eval_detection_gentime.py]: ground-truth import, the
        greedy tIoU matcher with its per-threshold lock table, the
        cumulative precision/recall/latency aggregation;
      - [main.py]: the anchor decoder shared by [eval_map_nms],
        [eval_map_supnet] and [test_online], and the accept loop of the
        online refiner.

    numpy float64 values are binary64 primitive floats.  Data frames are
    lists of rows, the row number being the data-frame index.  numpy
    arrays are lists, two-dimensional arrays lists of rows. *)

From Stdlib Require Import ZArith List Floats Lia Bool Sorted Permutation.
From stdpp Require Import base list strings.

Local Open Scope Z_scope.

#[global] Instance float_inhabited : Inhabited float := populate 0%float.

(** ** numpy and pandas primitives *)
Module Np.

(** [pd.isna(x) or np.isinf(x)] on a scalar. *)
Definition non_finite (x : float) : bool :=
  PrimFloat.is_nan x || PrimFloat.is_infinity x.

(** [np.nan_to_num(x, nan=0.0, posinf=0.0, neginf=0.0)], one element. *)
Definition nan_to_num (x : float) : float :=
  if non_finite x then 0%float else x.

(** The comparison numpy sorts floats with: NaN is the largest value
    ([a < b || (b != b && a == a)]). *)
Definition sort_lt (a b : float) : bool :=
  (a <? b)%float || (PrimFloat.is_nan b && negb (PrimFloat.is_nan a)).

(** [v.argsort()] with the default kind: the indices of [v] in ascending
    order of their keys.  numpy is not among the sources, and which
    algorithm runs is its choice (by length, element type and machine); it
    promises no order between equal keys.  The sort is therefore an
    interface; what every sort of it gives is [Order.Sorts]. *)
Class ArgSort := argsort : list float -> list nat.

(** [df.loc[idx]]: the rows of [df] at the positions [idx], in that order.
    Every position the program passes is a row number of [df]. *)
Definition loc {A} (df : list A) (idx : list nat) : list A :=
  omap (fun i => df !! i) idx.

(** [np.cumsum] of an integer-valued row. *)
Fixpoint cumsum_from (acc : Z) (l : list Z) : list Z :=
  match l with
  | [] => []
  | x :: l' => (acc + x) :: cumsum_from (acc + x) l'
  end.
Definition cumsum (l : list Z) : list Z := cumsum_from 0 l.

(** [np.cumsum] of a float row: a running sum from the left, the first
    cell being the first element itself. *)
Fixpoint fcumsum_from (acc : float) (l : list float) : list float :=
  match l with
  | [] => []
  | x :: l' => (acc + x)%float :: fcumsum_from (acc + x)%float l'
  end.
Definition fcumsum (l : list float) : list float :=
  match l with
  | [] => []
  | x :: l' => x :: fcumsum_from x l'
  end.

(** [a[-1]] of a non-empty array. *)
Definition last_cell `{Inhabited A} (l : list A) : A := l !!! (length l - 1)%nat.

(** [.astype(float)] of a count (exact below 2^53). *)
Definition to_float (z : Z) : float := PrimFloat.of_uint63 (Uint63.of_Z z).

(** [for i, x in enumerate(l)] threading a state. *)
Fixpoint for_from {A St} (body : St -> nat -> A -> St) (i : nat)
  (l : list A) (s : St) : St :=
  match l with
  | [] => s
  | x :: l' => for_from body (S i) l' (body s i x)
  end.
Definition for_enumerate {A St} (body : St -> nat -> A -> St) (l : list A)
  (s : St) : St := for_from body 0 l s.

(** [m[i, j]] and [m[i, j] = v] on a two-dimensional array. *)
Definition get2 `{Inhabited A} (m : list (list A)) (i j : nat) : A :=
  (m !!! i) !!! j.
Definition set2 {A} (m : list (list A)) (i j : nat) (v : A)
  : list (list A) := alter (fun row => <[j := v]> row) i m.
(** [m[:, j] = v]. *)
Definition set_col {A} (m : list (list A)) (j : nat) (v : A)
  : list (list A) := map (fun row => <[j := v]> row) m.

End Np.

(** ** Evaluation/eval_detection_gentime.py *)
Module Evaluation.
Import Np.

(** A row of the ground-truth data frame
    (['video-id', 't-start', 't-end', 'label']). *)
Record gt_row := GtRow {
  gt_video : string;
  gt_start : float;
  gt_end : float;
  gt_label : nat
}.

(** A row of the prediction data frame
    (['video-id', 't-start', 't-end', 'label', 'score', 'gentime']). *)
Record pred_row := PredRow {
  pr_video : string;
  pr_start : float;
  pr_end : float;
  pr_label : nat;
  pr_score : float;
  pr_gentime : float
}.

#[global] Instance gt_row_inhabited : Inhabited gt_row :=
  populate (GtRow "" 0%float 0%float 0%nat).

(** [ground_truth.groupby('video-id').get_group(vid)] followed by
    [reset_index()]: the rows of that video, each with its row number in
    [ground_truth] (the 'index' column).  [None] is the [KeyError] pandas
    raises when the video has no row. *)
Definition get_group (ground_truth : list gt_row) (vid : string)
  : option (list (nat * gt_row)) :=
  match filter (fun r => String.eqb (gt_video r.2) vid = true)
               (imap pair ground_truth) with
  | [] => None
  | rows => Some rows
  end.

(** The arrays the matching loop writes.  In numpy all four hold floats;
    [lock_gt] only ever holds -1 or the number of a prediction, [tp] and
    [fp] only 0 or 1, and these three are kept as integers. *)
Record state := State {
  lock_gt : list (list Z);
  tp : list (list Z);
  fp : list (list Z);
  timediff : list (list float)
}.

(** [for jdx in tiou_sorted_idx] for one prediction [idx] and one
    threshold [tidx]: [break] returns, [continue] goes on with the rest. *)
Fixpoint walk (tidx idx : nat) (tiou_thr : float) (tiou_arr : list float)
  (gentime_pred : float) (gentime_gt_arr : list float)
  (this_gt : list (nat * gt_row)) (rest : list nat) (st : state) : state :=
  match rest with
  | [] => st
  | jdx :: rest' =>
      if (tiou_arr !!! jdx <? tiou_thr)%float then
        State (lock_gt st) (tp st) (set2 (fp st) tidx idx 1) (timediff st)
      else if 0 <=? get2 (lock_gt st) tidx ((this_gt !!! jdx).1) then
        walk tidx idx tiou_thr tiou_arr gentime_pred gentime_gt_arr
             this_gt rest' st
      else
        let time_diff := (gentime_pred - gentime_gt_arr !!! jdx)%float in
        let time_diff :=
          if non_finite time_diff then 0%float else time_diff in
        State (set2 (lock_gt st) tidx ((this_gt !!! jdx).1) (Z.of_nat idx))
              (set2 (tp st) tidx idx 1)
              (fp st)
              (set2 (timediff st) tidx idx time_diff)
  end.

(** The body of [for tidx, tiou_thr in enumerate(tiou_thresholds)]. *)
Definition match_threshold (idx : nat) (tiou_arr : list float)
  (gentime_pred : float) (gentime_gt_arr : list float)
  (this_gt : list (nat * gt_row)) (tiou_sorted_idx : list nat)
  (st : state) (tidx : nat) (tiou_thr : float) : state :=
  let st := walk tidx idx tiou_thr tiou_arr gentime_pred gentime_gt_arr
                 this_gt tiou_sorted_idx st in
  if (get2 (fp st) tidx idx =? 0) && (get2 (tp st) tidx idx =? 0)
  then State (lock_gt st) (tp st) (set2 (fp st) tidx idx 1) (timediff st)
  else st.

Section Matcher.

(** numpy's [argsort], whichever algorithm it runs. *)
Context {np_argsort : ArgSort}.

(** [utils.segment_iou] is imported, not defined in this file: it returns
    one tIoU per candidate segment; the value for one pair is [tiou]. *)
Variable tiou : float * float -> float * float -> float.

(** [utils.interpolated_prec_rec], imported as well. *)
Variable interpolated_prec_rec : list float -> list float -> float.

Definition segment_iou (target : float * float)
  (candidates : list (float * float)) : list float :=
  map (tiou target) candidates.

(** [tiou_arr], [gentime_pred], [gentime_gt_arr] and [tiou_sorted_idx] of
    one prediction and the ground truth of its video. *)
Definition tiou_arr (this_pred : pred_row) (this_gt : list (nat * gt_row))
  : list float :=
  segment_iou (pr_start this_pred, pr_end this_pred)
              (map (fun r => (gt_start r.2, gt_end r.2)) this_gt).

Definition gentime_pred (this_pred : pred_row) : float :=
  if non_finite (pr_gentime this_pred) then 0%float
  else pr_gentime this_pred.

Definition gentime_gt_arr (this_gt : list (nat * gt_row)) : list float :=
  map (fun r => nan_to_num (gt_end r.2)) this_gt.

Definition tiou_sorted_idx (this_pred : pred_row)
  (this_gt : list (nat * gt_row)) : list nat :=
  rev (argsort (tiou_arr this_pred this_gt)).

(** The body of [for idx, this_pred in prediction.iterrows()]. *)
Definition match_prediction (ground_truth : list gt_row)
  (tiou_thresholds : list float) (st : state) (idx : nat)
  (this_pred : pred_row) : state :=
  match get_group ground_truth (pr_video this_pred) with
  | None =>
      State (lock_gt st) (tp st) (set_col (fp st) idx 1) (timediff st)
  | Some this_gt =>
      for_enumerate
        (match_threshold idx (tiou_arr this_pred this_gt)
           (gentime_pred this_pred) (gentime_gt_arr this_gt) this_gt
           (tiou_sorted_idx this_pred this_gt))
        tiou_thresholds st
  end.

(** [prediction.loc[sort_idx].reset_index(drop=True)] with
    [sort_idx = prediction['score'].values.argsort()[::-1]]. *)
Definition sort_by_score (prediction : list pred_row) : list pred_row :=
  loc prediction (rev (argsort (map pr_score prediction))).

(** The arrays before the first prediction. *)
Definition init_state (nthr ngt npred : nat) : state :=
  State (replicate nthr (replicate ngt (-1)))
        (replicate nthr (replicate npred 0))
        (replicate nthr (replicate npred 0))
        (replicate nthr (replicate npred 0%float)).

(** The arrays after the first [k] predictions of the sorted frame. *)
Definition state_after (ground_truth : list gt_row)
  (prediction : list pred_row) (tiou_thresholds : list float) (k : nat)
  : state :=
  for_enumerate (match_prediction ground_truth tiou_thresholds)
    (take k (sort_by_score prediction))
    (init_state (length tiou_thresholds) (length ground_truth)
                (length prediction)).

(** The arrays when the matching loop ends. *)
Definition matching (ground_truth : list gt_row)
  (prediction : list pred_row) (tiou_thresholds : list float) : state :=
  for_enumerate (match_prediction ground_truth tiou_thresholds)
    (sort_by_score prediction)
    (init_state (length tiou_thresholds) (length ground_truth)
                (length prediction)).

(** [this_tp], [this_fp] and [this_tdiff] of the aggregation loop. *)
Definition this_tp (st : state) (tidx : nat) : list Z :=
  cumsum (tp st !!! tidx).
Definition this_fp (st : state) (tidx : nat) : list Z :=
  cumsum (fp st !!! tidx).
Definition this_tdiff (st : state) (tidx : nat) : list float :=
  fcumsum (timediff st !!! tidx).

(** The body of [for tidx in range(len(tiou_thresholds))]: the three
    values stored at [tidx]. *)
Definition aggregate (npos : float) (st : state) (tidx : nat)
  : float * float * Z :=
  let this_tp := this_tp st tidx in
  let this_fp := this_fp st tidx in
  let rec := map (fun t => (to_float t / npos)%float) this_tp in
  let prec := zip_with (fun t f => (to_float t / (to_float t + to_float f))%float)
                       this_tp this_fp in
  let prec := map nan_to_num prec in
  let rec := map nan_to_num rec in
  let ap := interpolated_prec_rec prec rec in
  let this_tdiff := this_tdiff st tidx in
  let tdiff :=
    if (length this_tdiff =? 0)%nat || (last_cell this_tp =? 0) then 0%float
    else
      let v := last_cell this_tdiff in
      if non_finite v then 0%float else v in
  (ap, tdiff, last_cell this_tp).

(** [compute_average_precision_detection]: the vectors [ap], [tdiff] and
    [cnt_tp], one cell per threshold. *)
Definition compute_average_precision_detection (ground_truth : list gt_row)
  (prediction : list pred_row) (tiou_thresholds : list float)
  : list float * list float * list Z :=
  if (length prediction =? 0)%nat || (length ground_truth =? 0)%nat then
    (replicate (length tiou_thresholds) 0%float,
     replicate (length tiou_thresholds) 0%float,
     replicate (length tiou_thresholds) 0)
  else
    let npos := to_float (Z.of_nat (length ground_truth)) in
    let st := matching ground_truth prediction tiou_thresholds in
    let cells := map (aggregate npos st) (seq 0 (length tiou_thresholds)) in
    (map (fun c => c.1.1) cells, map (fun c => c.1.2) cells,
     map (fun c => c.2) cells).

End Matcher.

(** *** Ground-truth import *)

(** One entry of ['annotations']. *)
Record annotation := Annotation {
  ann_label : string;
  ann_segment : float * float
}.

(** The ['subset'] field of a video: a string or a list of strings. *)
Inductive subset_value :=
  | SubsetStr (s : string)
  | SubsetList (l : list string).

Record video := Video {
  v_subset : subset_value;
  v_annotations : list annotation
}.

(** [self.subset in v['subset']]: substring test on a string, membership
    on a list. *)
Definition subset_in (subset : string) (v : subset_value) : bool :=
  match v with
  | SubsetStr s =>
      match String.index 0 subset s with Some _ => true | None => false end
  | SubsetList l => bool_decide (subset ∈ l)
  end.

(** A Python dict from label strings to class numbers, in insertion
    order. *)
Definition dict := list (string * nat).

(** [k in d]. *)
Definition dict_mem (d : dict) (k : string) : bool := bool_decide (k ∈ d.*1).

(** [d[k]], [None] for the [KeyError]. *)
Fixpoint dict_get (d : dict) (k : string) : option nat :=
  match d with
  | [] => None
  | (k', v) :: d' => if String.eqb k' k then Some v else dict_get d' k
  end.

(** [d[k] = v]: a present key keeps its place, a new key goes last. *)
Fixpoint dict_set (d : dict) (k : string) (v : nat) : dict :=
  match d with
  | [] => [(k, v)]
  | (k', v') :: d' =>
      if String.eqb k' k then (k', v) :: d' else (k', v') :: dict_set d' k v
  end.

(** What the import loop carries: the four column lists zipped into rows,
    [activity_index] and [cidx]. *)
Record import_state := ImportState {
  rows : list gt_row;
  activity_index : dict;
  cidx : nat
}.

(** The body of [for ann in v['annotations']]. *)
Definition import_annotation (videoid : string) (s : import_state)
  (ann : annotation) : import_state :=
  let s1 :=
    if negb (dict_mem (activity_index s) (ann_label ann))
    then ImportState (rows s)
                     (dict_set (activity_index s) (ann_label ann) (cidx s))
                     (cidx s + 1)
    else s in
  ImportState
    (rows s1 ++ [GtRow videoid (ann_segment ann).1 (ann_segment ann).2
                   (default 0%nat (dict_get (activity_index s1) (ann_label ann)))])
    (activity_index s1) (cidx s1).

(** The body of [for videoid, v in data['database'].items()]. *)
Definition import_video (subset : string) (s : import_state)
  (entry : string * video) : import_state :=
  if negb (subset_in subset (v_subset entry.2)) then s
  else fold_left (import_annotation entry.1) (v_annotations entry.2) s.

(** [_import_ground_truth] after the format check: the data frame,
    [activity_index] and [cidx]. *)
Definition _import_ground_truth (subset : string)
  (database : list (string * video)) : import_state :=
  fold_left (import_video subset) database (ImportState [] [] 0).

(** The label strings of the loaded annotations, in load order. *)
Definition loaded_labels (subset : string) (database : list (string * video))
  : list string :=
  flat_map (fun entry =>
              if subset_in subset (v_subset entry.2)
              then map ann_label (v_annotations entry.2) else [])
           database.

(** *** Prediction import *)

(** One entry of a video's list under ['results']. *)
Record result := Result {
  res_segment : float * float;
  res_label : string;
  res_score : float;
  res_gentime : float
}.

(** The body of [for result in v]: six appends, or [continue] when the
    label is not a key of [activity_index]. *)
Definition import_result (activity_index : dict) (videoid : string)
  (prediction : list pred_row) (r : result) : list pred_row :=
  if negb (dict_mem activity_index (res_label r)) then prediction
  else
    let label := default 0%nat (dict_get activity_index (res_label r)) in
    prediction ++ [PredRow videoid (res_segment r).1 (res_segment r).2
                     label (res_score r) (res_gentime r)].

(** The body of [for videoid, v in data['results'].items()]. *)
Definition import_results_video (blocked_videos : list string)
  (activity_index : dict) (prediction : list pred_row)
  (entry : string * list result) : list pred_row :=
  if bool_decide (entry.1 ∈ blocked_videos) then prediction
  else fold_left (import_result activity_index entry.1) entry.2 prediction.

(** [_import_prediction] after the format check: the prediction data
    frame. *)
Definition _import_prediction (blocked_videos : list string)
  (activity_index : dict) (results : list (string * list result))
  : list pred_row :=
  fold_left (import_results_video blocked_videos activity_index) results [].

(** What [__init__] leaves in [self.ground_truth], [self.activity_index]
    and [self.prediction], the two files being read and
    [self.blocked_videos] set. *)
Definition init (subset : string) (blocked_videos : list string)
  (database : list (string * video)) (results : list (string * list result))
  : list gt_row * dict * list pred_row :=
  let s := _import_ground_truth subset database in
  (rows s, activity_index s,
   _import_prediction blocked_videos (activity_index s) results).

(** *** The per-class wrapper *)
Section Wrapper.

Context {np_argsort : ArgSort}.
Variable tiou : float * float -> float * float -> float.
Variable interpolated_prec_rec : list float -> list float -> float.

(** [np.sum] of one row of floats; numpy adds pairwise in blocks, an
    order that is not fixed here. *)
Variable np_sum : list float -> float.

(** [m[:, j] = v] with a vector on the right. *)
Definition set_col_vec {A} (m : list (list A)) (j : nat) (v : list A)
  : list (list A) := zip_with (fun row x => <[j := x]> row) m v.

(** The three arrays the wrapper fills, one column per class. *)
Record metrics := Metrics {
  m_ap : list (list float);
  m_tdiff : list (list float);
  m_cnt_tp : list (list Z)
}.

(** The body of [for activity, cidx in self.activity_index.items()]. *)
Definition evaluate_class (ground_truth : list gt_row)
  (prediction : list pred_row) (tiou_thresholds : list float)
  (m : metrics) (item : string * nat) : metrics :=
  let cidx := item.2 in
  let gt_c := filter (fun r => gt_label r = cidx) ground_truth in
  let pred_c := filter (fun r => pr_label r = cidx) prediction in
  let res := compute_average_precision_detection tiou interpolated_prec_rec
               gt_c pred_c tiou_thresholds in
  Metrics (set_col_vec (m_ap m) cidx res.1.1)
          (set_col_vec (m_tdiff m) cidx res.1.2)
          (set_col_vec (m_cnt_tp m) cidx res.2).

(** The class loop of [wrapper_compute_average_precision]. *)
Definition class_loop (ground_truth : list gt_row)
  (prediction : list pred_row) (activity_index : dict)
  (tiou_thresholds : list float) : metrics :=
  let nthr := length tiou_thresholds in
  let ncls := length activity_index in
  fold_left (evaluate_class ground_truth prediction tiou_thresholds)
    activity_index
    (Metrics (replicate nthr (replicate ncls 0%float))
             (replicate nthr (replicate ncls 0%float))
             (replicate nthr (replicate ncls 0))).

(** [wrapper_compute_average_precision]: [ap] and [final_tdiff]. *)
Definition wrapper_compute_average_precision (ground_truth : list gt_row)
  (prediction : list pred_row) (activity_index : dict)
  (tiou_thresholds : list float) : list (list float) * list float :=
  let m := class_loop ground_truth prediction activity_index
             tiou_thresholds in
  let sum_tdiff := map np_sum (m_tdiff m) in
  let total_tp := map (fun row => fold_left Z.add row 0) (m_cnt_tp m) in
  let final_tdiff :=
    zip_with (fun s t => if 0 <? t then (s / to_float t)%float else 0%float)
             sum_tdiff total_tp in
  (m_ap m, map nan_to_num final_tdiff).

End Wrapper.
End Evaluation.

(** ** main.py: the anchor decoder and the online refiner *)
Module Main.
Import Np.

(** The arithmetic of the decoder.  The network outputs are single
    precision tensors while the video duration is a Python float, so the
    statements below are made for any carrier with these operations. *)
Class FloatOps (F : Type) := {
  f_add : F -> F -> F;
  f_sub : F -> F -> F;
  f_mul : F -> F -> F;
  f_div : F -> F -> F;
  f_exp : F -> F;
  f_gt : F -> F -> bool;
  f_of_nat : nat -> F
}.

#[export] Instance carrier_inhabited {F : Type} `{FloatOps F} : Inhabited F :=
  populate (f_of_nat 0).

Section Decoder.

Context {F : Type} `{FloatOps F}.

(** [tmp_dict]: one proposal. *)
Record proposal := Proposal {
  segment : F * F;
  score : F;
  label : string;
  gentime : F
}.

(** The options the two functions read from [opt]. *)
Record options := Options {
  num_of_class : nat;
  segment_size : nat;
  threshold : F;
  anchors : list F;
  soft_nms : F;
  sup_threshold : F
}.

(** [dataset.label_name]. *)
Variable label_name : list string.

(** [np.argwhere(row[:-1] > threshold).reshape(-1)]. *)
Definition argwhere_gt (row : list F) (thr : F) : list nat :=
  (filter (fun c => f_gt c.2 thr = true) (imap pair (removelast row))).*1.

(** [for cidx in range(0, len(cls))] of one anchor. *)
Fixpoint emit (idx : nat) (frame_to_time st ed : F) (cls_row : list F)
  (cls : list nat) (proposal_anc_dict : list proposal) : list proposal :=
  match cls with
  | [] => proposal_anc_dict
  | label :: cls' =>
      let tmp_dict :=
        Proposal (f_div (f_mul st frame_to_time) (f_of_nat 100),
                  f_div (f_mul ed frame_to_time) (f_of_nat 100))
                 (cls_row !!! label)
                 (label_name !!! label)
                 (f_div (f_mul (f_of_nat idx) frame_to_time) (f_of_nat 100)) in
      emit idx frame_to_time st ed cls_row cls' (proposal_anc_dict ++ [tmp_dict])
  end.

(** The body of [for anc_idx in range(0, len(anchors))]. *)
Definition decode_anchor (opt : options) (idx : nat) (frame_to_time : F)
  (cls_anc : list (list F)) (reg_anc : list (F * F))
  (proposal_anc_dict : list proposal) (anc_idx : nat) (anchor : F)
  : list proposal :=
  let cls := argwhere_gt (cls_anc !!! anc_idx) (threshold opt) in
  if (length cls =? 0)%nat then proposal_anc_dict
  else
    let ed := f_add (f_of_nat idx) (f_mul anchor (reg_anc !!! anc_idx).1) in
    let length := f_mul anchor (f_exp (reg_anc !!! anc_idx).2) in
    let st := f_sub ed length in
    emit idx frame_to_time st ed (cls_anc !!! anc_idx) cls proposal_anc_dict.

(** The decoding of one frame: [proposal_anc_dict] when the anchor loop
    ends. *)
Definition decode_frame (opt : options) (idx : nat) (frame_to_time : F)
  (cls_anc : list (list F)) (reg_anc : list (F * F)) : list proposal :=
  for_enumerate (decode_anchor opt idx frame_to_time cls_anc reg_anc)
    (anchors opt) [].

(** The candidate of class [c] at one anchor, as the specification words
    it. *)
Definition candidate (idx : nat) (frame_to_time anchor : F)
  (cls_row : list F) (reg : F * F) (c : nat) : proposal :=
  let ed := f_add (f_of_nat idx) (f_mul anchor reg.1) in
  let length := f_mul anchor (f_exp reg.2) in
  let st := f_sub ed length in
  let scale x := f_div (f_mul x frame_to_time) (f_of_nat 100) in
  Proposal (scale st, scale ed) (cls_row !!! c) (label_name !!! c)
           (scale (f_of_nat idx)).

(** *** The online refiner ([eval_map_supnet]; [test_online] runs the same
    statements on outputs computed frame by frame) *)

(** [iou_utils.non_max_suppression], [iou_utils.check_overlap_proposal]
    and the suppression network are imported collaborators.  What
    [check_overlap_proposal] returns when it is not [None] is not looked
    at. *)
Variable non_max_suppression : list proposal -> F -> list proposal.
Variable Overlap : Type.
Variable check_overlap_proposal :
  list proposal -> proposal -> F -> option Overlap.
Variable suppress_net : list (list F) -> list F.

(** [label_name.index(x)]: the first position of [x]. *)
Fixpoint index_of (l : list string) (x : string) : nat :=
  match l with
  | [] => 0
  | y :: l' => if String.eqb y x then 0%nat else S (index_of l' x)
  end.

(** [conf_queue[:-1,:] = conf_queue[1:,:].clone(); conf_queue[-1,:] = 0]. *)
Definition shift_queue (opt : options) (conf_queue : list (list F))
  : list (list F) :=
  match conf_queue with
  | [] => []
  | _ :: later => later ++ [replicate (num_of_class opt - 1) (f_of_nat 0)]
  end.

(** [for proposal in proposal_anc_dict: conf_queue[-1, cls_idx] = score]. *)
Definition write_scores (conf_queue : list (list F))
  (proposal_anc_dict : list proposal) : list (list F) :=
  fold_left (fun q p =>
               set2 q (length q - 1) (index_of label_name (label p))
                    (score p))
            proposal_anc_dict conf_queue.

(** The innermost statement: the overlap test and the append. *)
Definition accept_one (opt : options) (proposal_dict : list proposal)
  (p : proposal) : list proposal :=
  match check_overlap_proposal proposal_dict p (soft_nms opt) with
  | None => proposal_dict ++ [p]
  | Some _ => proposal_dict
  end.

(** [for proposal in proposal_anc_dict] under one class [cls]. *)
Fixpoint accept_class (opt : options) (cls : nat)
  (pool : list proposal) (proposal_dict : list proposal) : list proposal :=
  match pool with
  | [] => proposal_dict
  | p :: pool' =>
      accept_class opt cls pool'
        (if String.eqb (label p) (label_name !!! cls)
         then accept_one opt proposal_dict p
         else proposal_dict)
  end.

(** [for cls in range(0, num_class-1)]. *)
Fixpoint accept_classes (opt : options) (suppress_conf : list F)
  (proposal_anc_dict : list proposal) (classes : list nat)
  (proposal_dict : list proposal) : list proposal :=
  match classes with
  | [] => proposal_dict
  | cls :: classes' =>
      accept_classes opt suppress_conf proposal_anc_dict classes'
        (if f_gt (suppress_conf !!! cls) (sup_threshold opt)
         then accept_class opt cls proposal_anc_dict proposal_dict
         else proposal_dict)
  end.

(** The (class, proposal) pairs in the order the two loops reach them. *)
Definition visits (opt : options) (pool : list proposal)
  : list (nat * proposal) :=
  flat_map (fun cls => map (pair cls) pool) (seq 0 (num_of_class opt - 1)).

(** One visit: the gate of the class, the label test, then the overlap
    test against the set accepted so far. *)
Definition visit (opt : options) (suppress_conf : list F)
  (proposal_dict : list proposal) (v : nat * proposal) : list proposal :=
  if f_gt (suppress_conf !!! v.1) (sup_threshold opt)
     && String.eqb (label v.2) (label_name !!! v.1)
  then accept_one opt proposal_dict v.2
  else proposal_dict.

(** What the frame loop of one video carries. *)
Record refiner := Refiner {
  conf_queue : list (list F);
  proposal_dict : list proposal
}.

(** The suppressed pool of one frame. *)
Definition frame_pool (opt : options) (frame_to_time : F) (idx : nat)
  (cls_anc : list (list F)) (reg_anc : list (F * F)) : list proposal :=
  non_max_suppression (decode_frame opt idx frame_to_time cls_anc reg_anc)
                      (soft_nms opt).

(** The window the suppression network is given at one frame. *)
Definition frame_queue (opt : options) (r : refiner)
  (pool : list proposal) : list (list F) :=
  write_scores (shift_queue opt (conf_queue r)) pool.

(** The body of [for idx in range(0, duration)]. *)
Definition refine_frame (opt : options) (frame_to_time : F)
  (output_cls : list (list (list F))) (output_reg : list (list (F * F)))
  (r : refiner) (idx : nat) : refiner :=
  let pool := frame_pool opt frame_to_time idx
                (output_cls !!! idx) (output_reg !!! idx) in
  let queue := frame_queue opt r pool in
  let suppress_conf := suppress_net queue in
  Refiner queue
    (accept_classes opt suppress_conf pool (seq 0 (num_of_class opt - 1))
                    (proposal_dict r)).

(** [dataset]: the video list and, per video name, the frame count, the
    duration in seconds and the stacked network outputs. *)
Record dataset := Dataset {
  video_list : list string;
  video_len : string -> nat;
  video_time : string -> F;
  output_cls : string -> list (list (list F));
  output_reg : string -> list (list (F * F))
}.

(** The state of one video after its first [k] frames, from an accepted
    set [proposal_dict]. *)
Definition video_after (opt : options) (d : dataset) (video_name : string)
  (proposal_dict : list proposal) (k : nat) : refiner :=
  let duration := video_len d video_name in
  let frame_to_time :=
    f_div (f_mul (f_of_nat 100) (video_time d video_name))
          (f_of_nat duration) in
  fold_left (refine_frame opt frame_to_time (output_cls d video_name)
                          (output_reg d video_name))
    (seq 0 k)
    (Refiner (replicate (segment_size opt)
                        (replicate (num_of_class opt - 1) (f_of_nat 0)))
             proposal_dict).

(** The body of [for video_name in dataset.video_list]: the pair
    ([result_dict], [proposal_dict]) it leaves. *)
Definition refine_video (opt : options) (d : dataset)
  (s : list (string * list proposal) * list proposal) (video_name : string)
  : list (string * list proposal) * list proposal :=
  let r := video_after opt d video_name s.2 (video_len d video_name) in
  (s.1 ++ [(video_name, proposal_dict r)], []).

(** [eval_map_supnet]: the (name, proposals) assignments to [result_dict]
    in order, and the final [proposal_dict]. *)
Definition eval_map_supnet (opt : options) (d : dataset)
  : list (string * list proposal) * list proposal :=
  fold_left (refine_video opt d) (video_list d) ([], []).

(** *** [eval_map_nms] *)

(** [for idx in range(0, duration)] of [eval_map_nms]: the candidates of
    every frame are added to [proposal_dict]. *)
Definition pool_frames (opt : options) (frame_to_time : F)
  (output_cls : list (list (list F))) (output_reg : list (list (F * F)))
  (duration : nat) (proposal_dict : list proposal) : list proposal :=
  fold_left (fun acc idx =>
               acc ++ decode_frame opt idx frame_to_time
                        (output_cls !!! idx) (output_reg !!! idx))
            (seq 0 duration) proposal_dict.

(** The body of [for video_name in dataset.video_list]. *)
Definition nms_video (opt : options) (d : dataset)
  (s : list (string * list proposal) * list proposal) (video_name : string)
  : list (string * list proposal) * list proposal :=
  let duration := video_len d video_name in
  let frame_to_time :=
    f_div (f_mul (f_of_nat 100) (video_time d video_name))
          (f_of_nat duration) in
  let proposal_dict :=
    pool_frames opt frame_to_time (output_cls d video_name)
                (output_reg d video_name) duration s.2 in
  let proposal_dict := non_max_suppression proposal_dict (soft_nms opt) in
  (s.1 ++ [(video_name, proposal_dict)], []).

(** [eval_map_nms]: the assignments to [result_dict] in order, and the
    final [proposal_dict]. *)
Definition eval_map_nms (opt : options) (d : dataset)
  : list (string * list proposal) * list proposal :=
  fold_left (nms_video opt d) (video_list d) ([], []).

(** *** [test_online] *)

(** The network run on the feature window, its class scores before the
    softmax and its regression pairs; the softmax over one anchor's
    scores; [dataset._get_base_data(video_name, idx, idx+1)]; and
    [opt['feat_dim']]. *)
Variable model : list (list F) -> list (list F) * list (F * F).
Variable softmax : list F -> list F.
Variable get_base_data : string -> nat -> list F.
Variable feat_dim : nat.

(** [input_queue[:-1,:] = input_queue[1:,:].clone();
     input_queue[-1:,:] = data]. *)
Definition shift_in (input_queue : list (list F)) (data : list F)
  : list (list F) :=
  match input_queue with
  | [] => []
  | _ :: later => later ++ [data]
  end.

(** What the frame loop of [test_online] carries. *)
Record online := Online {
  input_queue : list (list F);
  online_refiner : refiner
}.

(** The body of [for idx in range(0, duration)] of [test_online]. *)
Definition online_frame (opt : options) (frame_to_time : F)
  (video_name : string) (s : online) (idx : nat) : online :=
  let input_queue := shift_in (input_queue s) (get_base_data video_name idx) in
  let out := model input_queue in
  let cls_anc := map softmax out.1 in
  let reg_anc := out.2 in
  let pool := non_max_suppression
                (decode_frame opt idx frame_to_time cls_anc reg_anc)
                (soft_nms opt) in
  let queue := frame_queue opt (online_refiner s) pool in
  let suppress_conf := suppress_net queue in
  Online input_queue
    (Refiner queue
       (accept_classes opt suppress_conf pool (seq 0 (num_of_class opt - 1))
                       (proposal_dict (online_refiner s)))).

(** The state of one video of [test_online] after its first [k] frames. *)
Definition online_after (opt : options) (d : dataset) (video_name : string)
  (proposal_dict : list proposal) (k : nat) : online :=
  let duration := video_len d video_name in
  let frame_to_time :=
    f_div (f_mul (f_of_nat 100) (video_time d video_name))
          (f_of_nat duration) in
  fold_left (online_frame opt frame_to_time video_name) (seq 0 k)
    (Online (replicate (segment_size opt) (replicate feat_dim (f_of_nat 0)))
       (Refiner (replicate (segment_size opt)
                           (replicate (num_of_class opt - 1) (f_of_nat 0)))
                proposal_dict)).

(** The body of [for video_name in dataset.video_list] of [test_online]. *)
Definition online_video (opt : options) (d : dataset)
  (s : list (string * list proposal) * list proposal) (video_name : string)
  : list (string * list proposal) * list proposal :=
  let o := online_after opt d video_name s.2 (video_len d video_name) in
  (s.1 ++ [(video_name, proposal_dict (online_refiner o))], []).

(** [test_online] up to the dump of [result_dict]: its assignments in
    order, and the final [proposal_dict]. *)
Definition test_online (opt : options) (d : dataset)
  : list (string * list proposal) * list proposal :=
  fold_left (online_video opt d) (video_list d) ([], []).

(** A queue of [w] rows after [k] shifts that pushed [f 0], [f 1], ...
    onto rows [z]: the last [w] rows pushed, after rows [z] when fewer
    were pushed. *)
Definition sliding {A} (z : A) (f : nat -> A) (w k : nat) : list A :=
  let seen := Nat.min k w in
  replicate (w - seen) z ++ map f (seq (k - seen) seen).

(** The feature window the network is given at frame [idx]: the features
    of the last [segment_size] frames up to [idx], after rows of zeros
    when fewer frames have passed. *)
Definition window (opt : options) (video_name : string) (idx : nat)
  : list (list F) :=
  sliding (replicate feat_dim (f_of_nat 0)) (get_base_data video_name)
          (segment_size opt) (S idx).

(** The row of scores one frame leaves in [conf_queue]: zeros, then the
    score of each proposal of the pool written at the index of its label,
    a later proposal of the same label over an earlier one. *)
Definition score_row (opt : options) (pool : list proposal) : list F :=
  fold_left (fun row p => <[index_of label_name (label p) := score p]> row)
            pool (replicate (num_of_class opt - 1) (f_of_nat 0)).

(** The rows of scores of the last [segment_size] frames up to [idx]. *)
Definition score_window (opt : options) (d : dataset) (video_name : string)
  (idx : nat) : list (list F) :=
  let frame_to_time :=
    f_div (f_mul (f_of_nat 100) (video_time d video_name))
          (f_of_nat (video_len d video_name)) in
  sliding (replicate (num_of_class opt - 1) (f_of_nat 0))
    (fun j => score_row opt
                (frame_pool opt frame_to_time j
                   (output_cls d video_name !!! j)
                   (output_reg d video_name !!! j)))
    (segment_size opt) (S idx).

(** The outputs [eval_map_supnet] would be handed had the network been
    run on these windows frame by frame. *)
Definition recorded (opt : options) (d : dataset) : dataset :=
  Dataset (video_list d) (video_len d) (video_time d)
    (fun name => map (fun idx => map softmax (model (window opt name idx)).1)
                     (seq 0 (video_len d name)))
    (fun name => map (fun idx => (model (window opt name idx)).2)
                     (seq 0 (video_len d name))).

End Decoder.
End Main.

(** ** Concrete collaborators for running the model *)
Module Sample.

(** One sort of the interface [Np.ArgSort]: insertion on the index array,
    which leaves equal keys in input order.  The sorted prefix is held in
    reverse (its last element first); the new index [vi] moves left past
    every index whose key is strictly greater. *)
Fixpoint insert_index (v : list float) (vi : nat) (prefix_rev : list nat)
  : list nat :=
  match prefix_rev with
  | [] => [vi]
  | pk :: rest =>
      if Np.sort_lt (v !!! vi) (v !!! pk)
      then pk :: insert_index v vi rest
      else vi :: prefix_rev
  end.

(** The insertion sort run over the indices 0 .. len(v)-1; the result is
    held last element first. *)
Definition argsort_rev (v : list float) : list nat :=
  fold_left (fun acc vi => insert_index v vi acc) (seq 0 (length v)) [].

(** The sort the sample data is run with.  The sample arrays have keys
    that differ in pairs, on which every sort agrees, but for the two rows
    of equal score [tie_a], [tie_b] below: on these numpy returns the
    indices 0, 1, as insertion does.  On other arrays with equal keys
    numpy may order them otherwise. *)
Definition insertion_argsort : Np.ArgSort := fun v => rev (argsort_rev v).

(** Modelled from the spec: [utils.segment_iou] is not among the sources;
    section 4.1 gives it per candidate as
    overlap = max(0, min(ends) - max(starts)),
    union = both lengths - overlap, overlap/union if union > 0 else 0. *)
Definition temporal_iou (query cand : float * float) : float :=
  let lo := if (query.1 <? cand.1)%float then cand.1 else query.1 in
  let hi := if (query.2 <? cand.2)%float then query.2 else cand.2 in
  let d := (hi - lo)%float in
  let overlap := if (0 <? d)%float then d else 0%float in
  let union := ((query.2 - query.1) + (cand.2 - cand.1) - overlap)%float in
  if (0 <? union)%float then (overlap / union)%float else 0%float.

(** A stand-in for [utils.interpolated_prec_rec], whose value no
    statement below depends on. *)
Definition no_ap (prec rec : list float) : float := 0%float.

(** A stand-in for numpy's [np.sum] on short rows: added from the left. *)
Definition left_sum (row : list float) : float :=
  fold_left PrimFloat.add row 0%float.

(** Two ground-truth instances in video "v" and three predictions: one in
    a video without ground truth, two that match. *)
Definition gt_v : list Evaluation.gt_row :=
  [Evaluation.GtRow "v" 0 1 0; Evaluation.GtRow "v" 2 3 0].

Definition pred_v : list Evaluation.pred_row :=
  [Evaluation.PredRow "v" 2 3 0 0.5 6;
   Evaluation.PredRow "v" 0 1 0 0.75 2;
   Evaluation.PredRow "w" 0 1 0 0.875 2].

(** Two predictions with the same score. *)
Definition tie_a : Evaluation.pred_row := Evaluation.PredRow "a" 0 1 0 0.5 1.
Definition tie_b : Evaluation.pred_row := Evaluation.PredRow "b" 0 1 0 0.5 1.

(** A database of two videos, one outside the subset. *)
Definition database : list (string * Evaluation.video) :=
  [("v1", Evaluation.Video (Evaluation.SubsetStr "validation")
            [Evaluation.Annotation "run" (0, 1); Evaluation.Annotation "jump" (1, 2);
             Evaluation.Annotation "run" (2, 3)]);
   ("v2", Evaluation.Video (Evaluation.SubsetStr "training")
            [Evaluation.Annotation "swim" (0, 1)])]%float.

(** Binary64 as the carrier of the decoder.  The primitive floats have no
    exponential: the sample takes the first two terms of its series. *)
Definition float_ops : Main.FloatOps float := {|
  Main.f_add := PrimFloat.add;
  Main.f_sub := PrimFloat.sub;
  Main.f_mul := PrimFloat.mul;
  Main.f_div := PrimFloat.div;
  Main.f_exp := fun x => (1 + x)%float;
  Main.f_gt := fun x y => (y <? x)%float;
  Main.f_of_nat := fun n => Np.to_float (Z.of_nat n)
|}.

(** One video of one frame, one anchor and one class beside the
    background; every collaborator of the refiner lets everything through. *)
Definition options : Main.options (F := float) :=
  Main.Options 2 2 0.5%float [4%float] 0.5%float 0.5%float.

Definition dataset : Main.dataset (F := float) :=
  Main.Dataset ["v"] (fun _ => 1%nat) (fun _ => 1%float)
    (fun _ => [[[0.75; 0.25]]]%float) (fun _ => [[(0, 0)]]%float).

Definition keep_all (pool : list (Main.proposal (F := float))) (thr : float)
  : list (Main.proposal (F := float)) := pool.

Definition no_overlap (acc : list (Main.proposal (F := float)))
  (p : Main.proposal (F := float)) (thr : float) : option unit := None.

Definition newest_row (queue : list (list float)) : list float :=
  Np.last_cell queue.

(** A network that reads its class scores off the newest feature row, the
    identity for the softmax, and two features per frame. *)
Definition echo_net (input_queue : list (list float))
  : list (list float) * list (float * float) :=
  ([Np.last_cell input_queue], [(0, 0)%float]).

Definition no_softmax (row : list float) : list float := row.

Definition features (video_name : string) (idx : nat) : list float :=
  [0.75; 0.25]%float.

End Sample.

(** ** Definitions used to state the properties *)
Module Order.
Import Np.

(** A key that orders binary64 values as numpy's sort does: by class
    (-inf, negative, zero, positive, +inf, NaN), then exponent, then
    mantissa. *)
Definition sort_key (x : float) : Z * Z * Z :=
  match Prim2SF x with
  | S754_nan => (3, 0, 0)
  | S754_infinity true => (-2, 0, 0)
  | S754_infinity false => (2, 0, 0)
  | S754_zero _ => (0, 0, 0)
  | S754_finite false m e => (1, e, Z.pos m)
  | S754_finite true m e => (-1, - e, Z.neg m)
  end.

Definition key_lt (a b : Z * Z * Z) : Prop :=
  a.1.1 < b.1.1 \/
  (a.1.1 = b.1.1 /\ (a.1.2 < b.1.2 \/ (a.1.2 = b.1.2 /\ a.2 < b.2))).

(** The order in which [Sample.argsort_rev] leaves two indices: the larger
    key first, and of two keys the sort does not tell apart the later
    index first. *)
Definition precedes (v : list float) (a b : nat) : Prop :=
  sort_lt (v !!! b) (v !!! a) = true \/
  (sort_lt (v !!! a) (v !!! b) = false /\ (b < a)%nat).

(** Index [a] may stand before index [b] in descending order: its key is
    not smaller than that of [b], as numpy compares. *)
Definition descends (v : list float) (a b : nat) : Prop :=
  sort_lt (v !!! a) (v !!! b) = false.

(** What every sort gives, and all that numpy's default kind promises: the
    result holds each index of [v] once, and no index has a key smaller
    than that of an index before it.  Nothing is said of equal keys. *)
Class Sorts `{ArgSort} : Prop := {
  argsort_perm : forall v, argsort v ≡ₚ seq 0 (length v);
  argsort_ascending : forall v,
    StronglySorted (fun a b => descends v b a) (argsort v)
}.

End Order.

Module Rows.
Import Np Evaluation.

(** How the walk over the candidates of one prediction ends. *)
Inductive outcome :=
  | Below
  | Matched (jdx : nat)
  | Exhausted.

(** The walk read off one row of the lock table. *)
Fixpoint first_hit (tiou_thr : float) (tiou_arr : list float)
  (lock_row : list Z) (this_gt : list (nat * gt_row)) (rest : list nat)
  : outcome :=
  match rest with
  | [] => Exhausted
  | jdx :: rest' =>
      if (tiou_arr !!! jdx <? tiou_thr)%float then Below
      else if 0 <=? lock_row !!! (this_gt !!! jdx).1
      then first_hit tiou_thr tiou_arr lock_row this_gt rest'
      else Matched jdx
  end.

(** The latency stored for a match with candidate [jdx]. *)
Definition latency (gentime_pred : float) (gentime_gt_arr : list float)
  (jdx : nat) : float :=
  let time_diff := (gentime_pred - gentime_gt_arr !!! jdx)%float in
  if non_finite time_diff then 0%float else time_diff.

(** Row [tidx] of the four arrays. *)
Record row := Row {
  r_lock : list Z;
  r_tp : list Z;
  r_fp : list Z;
  r_timediff : list float
}.

Definition row_of (st : state) (tidx : nat) : row :=
  Row (lock_gt st !!! tidx) (tp st !!! tidx) (fp st !!! tidx)
      (timediff st !!! tidx).

(** One prediction at one threshold, on the rows of that threshold. *)
Definition threshold_row (idx : nat) (tiou_arr : list float)
  (gentime_pred : float) (gentime_gt_arr : list float)
  (this_gt : list (nat * gt_row)) (order : list nat) (tiou_thr : float)
  (r : row) : row :=
  match first_hit tiou_thr tiou_arr (r_lock r) this_gt order with
  | Matched jdx =>
      Row (<[(this_gt !!! jdx).1 := Z.of_nat idx]> (r_lock r))
          (<[idx := 1]> (r_tp r)) (r_fp r)
          (<[idx := latency gentime_pred gentime_gt_arr jdx]> (r_timediff r))
  | _ => Row (r_lock r) (r_tp r) (<[idx := 1]> (r_fp r)) (r_timediff r)
  end.

(** All four arrays have [nthr] rows. *)
Definition rows_ok (nthr : nat) (st : state) : Prop :=
  length (lock_gt st) = nthr /\ length (tp st) = nthr /\
  length (fp st) = nthr /\ length (timediff st) = nthr.

(** Cell [idx] of a row is still untouched. *)
Definition fresh (idx : nat) (r : row) : Prop :=
  r_tp r !! idx = Some 0 /\ r_fp r !! idx = Some 0.

(** Cell [idx] is untouched in every row. *)
Definition fresh_column (nthr idx : nat) (st : state) : Prop :=
  forall t, (t < nthr)%nat -> fresh idx (row_of st t).

(** What holds of the rows of one threshold after [k] predictions: the
    shapes, the cells of the predictions to come still zero, exactly one
    of true and false positive set for each prediction seen, and every
    lock either free or held by a prediction seen. *)
Record row_inv (ngt npred k : nat) (r : row) : Prop := RowInv {
  inv_lock_len : length (r_lock r) = ngt;
  inv_tp_len : length (r_tp r) = npred;
  inv_fp_len : length (r_fp r) = npred;
  inv_td_len : length (r_timediff r) = npred;
  inv_fresh : forall idx, (k <= idx < npred)%nat ->
    r_tp r !! idx = Some 0 /\ r_fp r !! idx = Some 0 /\
    r_timediff r !! idx = Some 0%float;
  inv_done : forall idx, (idx < k)%nat -> (idx < npred)%nat ->
    (r_tp r !! idx = Some 1 /\ r_fp r !! idx = Some 0) \/
    (r_tp r !! idx = Some 0 /\ r_fp r !! idx = Some 1 /\
     r_timediff r !! idx = Some 0%float);
  inv_lock : forall g v, r_lock r !! g = Some v ->
    v = -1 \/ 0 <= v < Z.of_nat k
}.

Section Rows.
Context {np_argsort : ArgSort}.
Variable tiou : float * float -> float * float -> float.

Definition prediction_row (ground_truth : list gt_row) (tiou_thr : float)
  (r : row) (idx : nat) (this_pred : pred_row) : row :=
  match get_group ground_truth (pr_video this_pred) with
  | None => Row (r_lock r) (r_tp r) (<[idx := 1]> (r_fp r)) (r_timediff r)
  | Some this_gt =>
      threshold_row idx (tiou_arr tiou this_pred this_gt)
        (gentime_pred this_pred) (gentime_gt_arr this_gt) this_gt
        (tiou_sorted_idx tiou this_pred this_gt) tiou_thr r
  end.

(** The rows of one threshold after the first [k] predictions. *)
Definition row_after (ground_truth : list gt_row)
  (prediction : list pred_row) (tiou_thr : float) (k : nat) : row :=
  for_enumerate (prediction_row ground_truth tiou_thr)
    (take k (sort_by_score prediction))
    (Row (replicate (length ground_truth) (-1))
         (replicate (length prediction) 0)
         (replicate (length prediction) 0)
         (replicate (length prediction) 0%float)).

(** Prediction [k] of the sorted frame writes cell ([tidx], [g]) of the
    lock table. *)
Definition claims (ground_truth : list gt_row) (prediction : list pred_row)
  (tiou_thresholds : list float) (tidx g k : nat) : Prop :=
  get2 (lock_gt (state_after tiou ground_truth prediction tiou_thresholds k))
       tidx g
  <> get2 (lock_gt (state_after tiou ground_truth prediction tiou_thresholds
                                (S k))) tidx g.

End Rows.
End Rows.

Module Stated.
Import Np Evaluation.

(** The sum of a float row, added from the left as [np.cumsum] does. *)
Definition fsum (l : list float) : float :=
  match l with
  | [] => 0%float
  | x :: l' => fold_left PrimFloat.add l' x
  end.

(** A matrix of [nrow] rows of [ncol] cells. *)
Definition shape {A} (nrow ncol : nat) (m : list (list A)) : Prop :=
  length m = nrow /\ Forall (fun row => length row = ncol) m.

(** What the import loop keeps true, [ls] being the labels read so far:
    the keys are the labels in first-seen order, the values count up from
    0, and every row carries the number of its label. *)
Definition import_inv (s : import_state) (ls : list string) : Prop :=
  (activity_index s).*1 = reverse (remove_dups (reverse ls)) /\
  (activity_index s).*2 = seq 0 (cidx s) /\
  gt_label <$> rows s
  = (fun l => default 0%nat (dict_get (activity_index s) l)) <$> ls.

(** The stable order of the specification: two predictions with equal
    scores come out of the sort in their input order. *)
Definition keeps_input_order `{ArgSort} (prediction : list pred_row)
  : Prop :=
  forall i j a b, (i < j)%nat ->
    prediction !! i = Some a -> prediction !! j = Some b ->
    (pr_score a =? pr_score b)%float = true ->
    exists i' j', (i' < j')%nat /\
      sort_by_score prediction !! i' = Some a /\
      sort_by_score prediction !! j' = Some b.

Section Stated.
Context {np_argsort : ArgSort}.
Variable tiou : float * float -> float * float -> float.
Variable interpolated_prec_rec : list float -> list float -> float.

(** What one class is evaluated on, and what comes back. *)
Definition class_result (gt : list gt_row) (pred : list pred_row)
  (ts : list float) (c : nat) : list float * list float * list Z :=
  compute_average_precision_detection tiou interpolated_prec_rec
    (filter (fun r => gt_label r = c) gt)
    (filter (fun r => pr_label r = c) pred) ts.

(** The mean latency of the specification: the reported value is the sum
    of the latencies of the true positives divided by their number, and 0
    when there is none. *)
Definition reports_mean_latency (ground_truth : list gt_row)
  (prediction : list pred_row) (tiou_thresholds : list float) (tidx : nat)
  : Prop :=
  let res := compute_average_precision_detection tiou interpolated_prec_rec
               ground_truth prediction tiou_thresholds in
  let st := matching tiou ground_truth prediction tiou_thresholds in
  let count := fold_left Z.add (tp st !!! tidx) 0 in
  res.1.2 !!! tidx
  = if count =? 0 then 0%float
    else (fsum (timediff st !!! tidx) / to_float count)%float.

End Stated.
End Stated.

Module Ledger.
Import Np Evaluation Rows.

(** The sum of an integer row. *)
Definition sumZ (l : list Z) : Z := foldr Z.add 0 l.

(** The number of locked cells of a row of the lock table. *)
Definition locked_cells (lock_row : list Z) : nat :=
  length (filter (fun v => 0 <= v) lock_row).

(** The sanitising of the specification, on the primitive tests: a NaN
    or an infinity is replaced by 0. *)
Definition finite_or_zero (x : float) : float :=
  if PrimFloat.is_nan x || PrimFloat.is_infinity x then 0%float else x.

(** The latency stored when prediction [p] is matched with the
    ground-truth instance [r]: the generation time less the end of the
    instance, each of the two and then the difference sanitised. *)
Definition matched_latency (p : pred_row) (r : gt_row) : float :=
  finite_or_zero
    (finite_or_zero (pr_gentime p) - finite_or_zero (gt_end r))%float.

Section Ledger.
Variable tiou : float * float -> float * float -> float.

(** What the lock row and the true-positive row of one threshold say of
    each other after some predictions: as many true positives as locked
    cells; a locked cell names a prediction of the same video whose tIoU
    with the instance is not below the threshold, marked true positive
    with the latency of the pair; no two cells name the same prediction;
    every true positive is named by a cell. *)
Record match_inv (gt : list gt_row) (sorted : list pred_row) (thr : float)
  (r : row) : Prop := MatchInv {
  mi_count : sumZ (r_tp r) = Z.of_nat (locked_cells (r_lock r));
  mi_pair : forall g v, r_lock r !! g = Some v -> 0 <= v ->
    exists p gr,
      sorted !! Z.to_nat v = Some p /\ gt !! g = Some gr /\
      gt_video gr = pr_video p /\
      (tiou (pr_start p, pr_end p) (gt_start gr, gt_end gr) <? thr)%float
      = false /\
      r_tp r !! Z.to_nat v = Some 1 /\
      r_timediff r !! Z.to_nat v = Some (matched_latency p gr);
  mi_inj : forall g1 g2 v, r_lock r !! g1 = Some v ->
    r_lock r !! g2 = Some v -> 0 <= v -> g1 = g2;
  mi_holder : forall k, r_tp r !! k = Some 1 ->
    exists g, r_lock r !! g = Some (Z.of_nat k)
}.

End Ledger.
End Ledger.

(** * Properties *)

(** ** numpy's sort order *)
Module SortFacts.
Import Np Order.

Lemma sort_lt_key a b : sort_lt a b = true <-> key_lt (sort_key a) (sort_key b).
Proof.
  unfold sort_lt, PrimFloat.is_nan, sort_key, key_lt.
  rewrite FloatAxioms.ltb_spec, !FloatAxioms.eqb_spec. unfold SFltb, SFeqb, SFcompare.
  destruct (Prim2SF a) as [sa|sa| |sa ma ea], (Prim2SF b) as [sb|sb| |sb mb eb];
    repeat match goal with s : bool |- _ => destruct s end; cbn -[Z.compare Z.lt];
    rewrite ?Z.compare_refl, ?Pos.compare_cont_refl; cbn;
    try (split; [intros; try discriminate; lia | intros; try reflexivity; lia]).
  all: change (Pos.compare_cont Eq ?x ?y) with (Pos.compare x y).
  all: destruct (Z.compare_spec ea eb); destruct (Pos.compare_spec ma mb); cbn;
    (split; [intros; try discriminate; lia | intros; try reflexivity; lia]).
Qed.

Lemma sort_lt_false_key a b :
  sort_lt a b = false <-> ~ key_lt (sort_key a) (sort_key b).
Proof. rewrite <- sort_lt_key. destruct (sort_lt a b); split; congruence. Qed.

Lemma sort_lt_asym a b : sort_lt a b = true -> sort_lt b a = false.
Proof.
  rewrite sort_lt_key, sort_lt_false_key. unfold key_lt.
  destruct (sort_key a) as [[a1 a2] a3], (sort_key b) as [[b1 b2] b3]; cbn. lia.
Qed.

Lemma StronglySorted_lookup {A} (R : A -> A -> Prop) l i j a b :
  StronglySorted R l -> (i < j)%nat -> l !! i = Some a -> l !! j = Some b -> R a b.
Proof.
  intros Hs. revert i j. induction Hs as [|x l Hs IH Hx]; intros i j Hij Hi Hj.
  - done.
  - destruct j as [|j]; [lia|]. cbn in Hj. destruct i as [|i]; cbn in Hi.
    + injection Hi as ->. rewrite Forall_forall in Hx. apply Hx.
      by eapply list_elem_of_lookup_2.
    + eapply IH; [|done..]. lia.
Qed.

Lemma StronglySorted_weaken {A} (R S : A -> A -> Prop) l :
  (forall a b, R a b -> S a b) -> StronglySorted R l -> StronglySorted S l.
Proof.
  intros HRS. induction 1 as [|x l Hs IH Hx]; constructor; [done|].
  eapply Forall_impl; [exact Hx|]. intros y. apply HRS.
Qed.

Lemma StronglySorted_snoc {A} (R : A -> A -> Prop) l x :
  StronglySorted R l -> Forall (fun y => R y x) l ->
  StronglySorted R (l ++ [x]).
Proof.
  induction 1 as [|y l Hs IH Hy]; intros Hx; cbn.
  - repeat constructor.
  - apply Forall_cons in Hx as [Hyx Hx]. constructor; [by apply IH|].
    apply Forall_app. split; [done|]. by constructor.
Qed.

Lemma StronglySorted_backwards {A} (R : A -> A -> Prop) l :
  StronglySorted R l -> StronglySorted (fun a b => R b a) (rev l).
Proof.
  induction 1 as [|x l Hs IH Hx]; cbn; [constructor|].
  apply StronglySorted_snoc; [done|].
  apply Forall_forall. intros y Hy%list_elem_of_In%in_rev%list_elem_of_In.
  rewrite Forall_forall in Hx. by apply Hx.
Qed.

(** ** What follows of any sort *)

Section AnySort.
Context {np_argsort : ArgSort} {np_sorts : Sorts}.

Lemma desc_perm v : rev (argsort v) ≡ₚ seq 0 (length v).
Proof. rewrite <- (Permutation_rev (argsort v)). apply argsort_perm. Qed.

Lemma desc_sorted v : StronglySorted (descends v) (rev (argsort v)).
Proof.
  apply (StronglySorted_backwards (fun a b => descends v b a)).
  apply argsort_ascending.
Qed.

Lemma desc_lt v jdx : jdx ∈ rev (argsort v) -> (jdx < length v)%nat.
Proof. rewrite desc_perm. intros ?%elem_of_seq. lia. Qed.

Lemma desc_length v : length (rev (argsort v)) = length v.
Proof. rewrite desc_perm. apply length_seq. Qed.

End AnySort.

(** ** The insertion sort is a sort *)

Lemma precedes_trans v a b c : precedes v a b -> precedes v b c -> precedes v a c.
Proof.
  unfold precedes. rewrite !sort_lt_key, !sort_lt_false_key. unfold key_lt.
  destruct (sort_key (v !!! a)) as [[a1 a2] a3], (sort_key (v !!! b)) as [[b1 b2] b3],
    (sort_key (v !!! c)) as [[c1 c2] c3]; cbn. lia.
Qed.

Lemma precedes_descends v a b : precedes v a b -> descends v a b.
Proof. intros [Hlt|[Hn _]]; [by apply sort_lt_asym|done]. Qed.

Lemma insert_index_perm v vi acc : Sample.insert_index v vi acc ≡ₚ vi :: acc.
Proof.
  induction acc as [|pk rest IH]; cbn; [done|].
  destruct (sort_lt _ _); [|done]. rewrite IH. apply Permutation_swap.
Qed.

Lemma insert_index_sorted v vi acc :
  StronglySorted (precedes v) acc -> Forall (fun a => (a < vi)%nat) acc ->
  StronglySorted (precedes v) (Sample.insert_index v vi acc).
Proof.
  induction 1 as [|pk rest Hs IH Hpk]; intros Hlt; cbn.
  - repeat constructor.
  - apply Forall_cons in Hlt as [Hpkvi Hrest].
    destruct (sort_lt (v !!! vi) (v !!! pk)) eqn:E.
    + constructor; [auto|]. rewrite insert_index_perm. constructor; [|done].
      left; done.
    + assert (precedes v vi pk) by (right; done).
      constructor; [by constructor|]. constructor; [done|].
      eapply Forall_impl; [exact Hpk|]. intros r Hr. by eapply precedes_trans.
Qed.

Lemma argsort_rev_fold v n :
  let acc := fold_left (fun acc vi => Sample.insert_index v vi acc) (seq 0 n) [] in
  StronglySorted (precedes v) acc /\ acc ≡ₚ seq 0 n.
Proof.
  induction n as [|n [IHs IHp]]; cbn zeta.
  - split; [constructor|done].
  - rewrite seq_S, fold_left_app. cbn. split.
    + apply insert_index_sorted; [done|]. rewrite IHp.
      apply Forall_forall. intros a Ha%elem_of_seq. lia.
    + rewrite insert_index_perm, IHp.
      change (0 + n)%nat with n.
      rewrite (Permutation_app_comm (seq 0 n) [n]). done.
Qed.

Lemma argsort_rev_sorted v : StronglySorted (precedes v) (Sample.argsort_rev v).
Proof. apply argsort_rev_fold. Qed.

Lemma argsort_rev_perm v : Sample.argsort_rev v ≡ₚ seq 0 (length v).
Proof. apply argsort_rev_fold. Qed.

(** The insertion sort meets what numpy promises of its sort. *)
Lemma insertion_sorts : @Sorts Sample.insertion_argsort.
Proof.
  split; intros v; unfold argsort, Sample.insertion_argsort.
  - rewrite <- (Permutation_rev (Sample.argsort_rev v)). apply argsort_rev_perm.
  - apply (StronglySorted_backwards (descends v)).
    eapply StronglySorted_weaken; [|apply argsort_rev_sorted].
    apply precedes_descends.
Qed.

Lemma loc_lookup {A} (df : list A) idx i :
  Forall (fun a => (a < length df)%nat) idx ->
  loc df idx !! i = idx !! i ≫= (fun a => df !! a).
Proof.
  unfold loc. intros Hr. revert i. induction Hr as [|a idx Ha Hr IH]; intros i; [done|].
  cbn. destruct (lookup_lt_is_Some_2 df a Ha) as [x Hx]. rewrite Hx.
  destruct i as [|i]; cbn; [done|]. apply IH.
Qed.

Lemma loc_length {A} (df : list A) idx :
  Forall (fun a => (a < length df)%nat) idx -> length (loc df idx) = length idx.
Proof.
  unfold loc. induction 1 as [|a idx Ha Hr IH]; [done|].
  cbn. destruct (lookup_lt_is_Some_2 df a Ha) as [x Hx]. rewrite Hx. cbn. by rewrite IH.
Qed.

Lemma loc_seq {A} (df : list A) : loc df (seq 0 (length df)) = df.
Proof.
  apply list_eq. intros i. rewrite loc_lookup.
  - destruct (decide (i < length df)%nat) as [Hi|Hi].
    + rewrite lookup_seq_lt by done. done.
    + rewrite lookup_seq_ge by lia. cbn. symmetry. apply lookup_ge_None. lia.
  - apply Forall_forall. intros a Ha%elem_of_seq. lia.
Qed.

Lemma loc_perm {A} (df : list A) idx : idx ≡ₚ seq 0 (length df) -> loc df idx ≡ₚ df.
Proof. intros Hp. unfold loc. rewrite Hp. fold (loc df (seq 0 (length df))). by rewrite loc_seq. Qed.

End SortFacts.

(** ** The matcher *)
Module MatcherFacts.
Import Np Evaluation Order Rows Stated SortFacts.

Lemma for_from_app {A St} (body : St -> nat -> A -> St) l1 l2 i s :
  for_from body i (l1 ++ l2) s
  = for_from body (i + length l1) l2 (for_from body i l1 s).
Proof.
  revert i s. induction l1 as [|x l1 IH]; intros i s; cbn.
  - by rewrite Nat.add_0_r.
  - rewrite IH. f_equal. lia.
Qed.

Lemma for_enumerate_snoc {A St} (body : St -> nat -> A -> St) l x s :
  for_enumerate body (l ++ [x]) s
  = body (for_enumerate body l s) (length l) x.
Proof. unfold for_enumerate. by rewrite for_from_app. Qed.

Lemma insert_lookup_total_id `{Inhabited A} (l : list A) i : <[i := l !!! i]> l = l.
Proof.
  destruct (decide (i < length l)%nat) as [Hi|Hi].
  - apply list_insert_id. by apply list_lookup_lookup_total_lt.
  - apply list_insert_ge. lia.
Qed.

Lemma set2_insert `{Inhabited A} (m : list (list A)) i j (v : A) :
  set2 m i j v = <[i := <[j := v]> (m !!! i)]> m.
Proof.
  unfold set2. apply list_eq. intros k. destruct (decide (k = i)) as [->|Hk].
  - rewrite list_lookup_alter_eq. destruct (m !! i) as [row|] eqn:E.
    + rewrite list_lookup_insert_eq by (by eapply lookup_lt_Some).
      by rewrite (list_lookup_total_correct _ _ _ E).
    + rewrite list_insert_ge by (by apply lookup_ge_None). by rewrite E.
  - by rewrite list_lookup_alter_ne, list_lookup_insert_ne.
Qed.

Lemma get2_set2_eq `{Inhabited A} (m : list (list A)) i j (v : A) :
  (i < length m)%nat -> (j < length (m !!! i))%nat -> get2 (set2 m i j v) i j = v.
Proof.
  intros Hi Hj. unfold get2. rewrite set2_insert.
  rewrite list_lookup_total_insert_eq by done.
  by rewrite list_lookup_total_insert_eq.
Qed.

Lemma walk_outcome tidx idx thr ta gp ga this_gt rest st :
  walk tidx idx thr ta gp ga this_gt rest st =
  match first_hit thr ta (lock_gt st !!! tidx) this_gt rest with
  | Below => State (lock_gt st) (tp st) (set2 (fp st) tidx idx 1) (timediff st)
  | Matched jdx =>
      State (set2 (lock_gt st) tidx (this_gt !!! jdx).1 (Z.of_nat idx))
            (set2 (tp st) tidx idx 1) (fp st)
            (set2 (timediff st) tidx idx (latency gp ga jdx))
  | Exhausted => st
  end.
Proof.
  induction rest as [|jdx rest IH]; cbn; [done|].
  destruct (_ <? _)%float; [done|].
  unfold get2 at 1. destruct (0 <=? _); [apply IH|done].
Qed.

Lemma match_threshold_rows idx ta gp ga this_gt order st tidx thr nthr :
  rows_ok nthr st -> (tidx < nthr)%nat -> fresh idx (row_of st tidx) ->
  let r := threshold_row idx ta gp ga this_gt order thr (row_of st tidx) in
  match_threshold idx ta gp ga this_gt order st tidx thr
  = State (<[tidx := r_lock r]> (lock_gt st)) (<[tidx := r_tp r]> (tp st))
          (<[tidx := r_fp r]> (fp st)) (<[tidx := r_timediff r]> (timediff st)).
Proof.
  intros (Hl & Ht & Hf & Hd) Htidx [Htp Hfp]. cbn in Htp, Hfp.
  unfold match_threshold, threshold_row. rewrite walk_outcome. cbn [row_of r_lock r_tp r_fp r_timediff].
  assert (Hgt : get2 (tp st) tidx idx = 0).
  { unfold get2. by apply list_lookup_total_correct. }
  assert (Hgf : get2 (fp st) tidx idx = 0).
  { unfold get2. by apply list_lookup_total_correct. }
  apply lookup_lt_Some in Htp, Hfp.
  destruct (first_hit _ _ _ _ _) as [|jdx|]; cbn [lock_gt tp fp timediff r_lock r_tp r_fp r_timediff].
  - rewrite get2_set2_eq by (done || lia). cbn.
    by rewrite !insert_lookup_total_id, set2_insert.
  - rewrite (get2_set2_eq (tp st)) by (done || lia).
    replace (1 =? 0) with false by done. rewrite andb_false_r.
    by rewrite !insert_lookup_total_id, !set2_insert.
  - rewrite Hgt, Hgf. cbn.
    by rewrite !insert_lookup_total_id, set2_insert.
Qed.

Lemma row_of_insert st i r nthr t :
  rows_ok nthr st -> (i < nthr)%nat ->
  row_of (State (<[i := r_lock r]> (lock_gt st)) (<[i := r_tp r]> (tp st))
                (<[i := r_fp r]> (fp st)) (<[i := r_timediff r]> (timediff st))) t
  = if decide (t = i) then r else row_of st t.
Proof.
  intros (Hl & Ht & Hf & Hd) Hi. unfold row_of. cbn.
  destruct (decide (t = i)) as [->|Hne].
  - rewrite !list_lookup_total_insert_eq by lia. by destruct r.
  - by rewrite !list_lookup_total_insert_ne.
Qed.

Lemma rows_ok_insert st i r nthr :
  rows_ok nthr st ->
  rows_ok nthr (State (<[i := r_lock r]> (lock_gt st)) (<[i := r_tp r]> (tp st))
                (<[i := r_fp r]> (fp st)) (<[i := r_timediff r]> (timediff st))).
Proof. unfold rows_ok. cbn. by rewrite !length_insert. Qed.

Lemma threshold_loop_rows idx ta gp ga this_gt order nthr ts : forall i st,
  rows_ok nthr st -> (i + length ts <= nthr)%nat ->
  (forall t, (i <= t < i + length ts)%nat -> fresh idx (row_of st t)) ->
  let st' := for_from (match_threshold idx ta gp ga this_gt order) i ts st in
  rows_ok nthr st' /\
  forall t, row_of st' t =
    match ts !! (t - i)%nat with
    | Some thr =>
        if decide (i <= t)%nat
        then threshold_row idx ta gp ga this_gt order thr (row_of st t)
        else row_of st t
    | None => row_of st t
    end.
Proof.
  induction ts as [|thr ts IH]; intros i st Hok Hlen Hfresh; cbn zeta.
  - split; [done|]. intros t. by rewrite lookup_nil.
  - cbn [for_from]. cbn [length] in Hlen, Hfresh.
    rewrite (match_threshold_rows _ _ _ _ _ _ _ _ _ nthr); [|done|lia|apply Hfresh; lia].
    set (r := threshold_row _ _ _ _ _ _ _ _).
    destruct (IH (S i) (State (<[i := r_lock r]> (lock_gt st)) (<[i := r_tp r]> (tp st))
                (<[i := r_fp r]> (fp st)) (<[i := r_timediff r]> (timediff st))))
      as [Hok' Hrows].
    + by apply rows_ok_insert.
    + lia.
    + intros t Ht. rewrite (row_of_insert _ _ _ nthr) by (done || lia).
      rewrite decide_False by lia. apply Hfresh. lia.
    + split; [done|]. intros t. rewrite Hrows.
      rewrite (row_of_insert _ _ _ nthr) by (done || lia).
      destruct (decide (t = i)) as [->|Hne].
      * replace (i - S i)%nat with 0%nat by lia. rewrite Nat.sub_diag. cbn.
        rewrite (decide_True (P := (i <= i)%nat)) by lia.
        destruct (ts !! 0%nat); [|done]. by rewrite decide_False by lia.
      * destruct (decide (i <= t)%nat) as [Hle|Hgt].
        -- replace (t - i)%nat with (S (t - S i)) by lia. cbn.
           destruct (ts !! (t - S i)%nat); [|done]. by rewrite decide_True by lia.
        -- replace (t - S i)%nat with 0%nat by lia.
           replace (t - i)%nat with 0%nat by lia. cbn.
           destruct (ts !! 0%nat); [|done]. by rewrite decide_False by lia.
Qed.

Section ThresholdLoop.
Context {np_argsort : ArgSort} {np_sorts : Sorts}.
Variable tiou : float * float -> float * float -> float.

Lemma match_prediction_rows gt ts st idx p :
  rows_ok (length ts) st -> fresh_column (length ts) idx st ->
  let st' := match_prediction tiou gt ts st idx p in
  rows_ok (length ts) st' /\
  forall t thr, ts !! t = Some thr ->
    row_of st' t = prediction_row tiou gt thr (row_of st t) idx p.
Proof.
  intros Hok Hfresh. unfold match_prediction, prediction_row.
  destruct (get_group gt (pr_video p)) as [this_gt|].
  - unfold for_enumerate.
    destruct (threshold_loop_rows idx (tiou_arr tiou p this_gt) (gentime_pred p)
      (gentime_gt_arr this_gt) this_gt (tiou_sorted_idx tiou p this_gt) (length ts) ts 0%nat st)
      as [Hok' Hrows]; [done|lia| |].
    + intros t Ht. apply Hfresh. lia.
    + split; [done|]. intros t thr Ht. rewrite Hrows, Nat.sub_0_r, Ht.
      by rewrite decide_True by lia.
  - destruct Hok as (Hl & Ht & Hf & Hd). split.
    + unfold rows_ok, set_col. cbn. by rewrite length_map.
    + intros t thr Hthr. apply lookup_lt_Some in Hthr.
      unfold row_of, set_col. cbn. f_equal.
      rewrite !list_lookup_total_alt, list_lookup_fmap.
      destruct (lookup_lt_is_Some_2 (fp st) t ltac:(lia)) as [row Hrow].
      by rewrite Hrow.
Qed.

End ThresholdLoop.

Lemma first_hit_Matched thr ta lr this_gt rest jdx :
  first_hit thr ta lr this_gt rest = Matched jdx ->
  jdx ∈ rest /\ (ta !!! jdx <? thr)%float = false /\
  (0 <=? lr !!! (this_gt !!! jdx).1) = false.
Proof.
  induction rest as [|j rest IH]; cbn; [intros [=]|].
  destruct (ta !!! j <? thr)%float eqn:Eb; [intros [=]|].
  destruct (0 <=? lr !!! (this_gt !!! j).1) eqn:El.
  - intros Hm. destruct (IH Hm) as (? & ? & ?). split; [by right|done].
  - intros [= <-]. split; [by left|done].
Qed.

Section Pass.
Context {np_argsort : ArgSort} {np_sorts : Sorts}.
Variable tiou : float * float -> float * float -> float.

Lemma row_inv_init ngt npred :
  row_inv ngt npred 0
    (Row (replicate ngt (-1)) (replicate npred 0) (replicate npred 0)
         (replicate npred 0%float)).
Proof.
  split; cbn; rewrite ?length_replicate; try done.
  - intros idx Hidx. by rewrite !lookup_replicate_2 by lia.
  - lia.
  - intros g v [-> _]%lookup_replicate. by left.
Qed.

Lemma prediction_row_inv gt thr ngt npred k r p :
  row_inv ngt npred k r -> (k < npred)%nat ->
  row_inv ngt npred (S k) (prediction_row tiou gt thr r k p).
Proof.
  intros [Hll Htl Hfl Hdl Hfresh Hdone Hlock] Hk.
  destruct (Hfresh k ltac:(lia)) as (Htk & Hfk & Hdk).
  assert (Hfp : row_inv ngt npred (S k)
            (Row (r_lock r) (r_tp r) (<[k := 1]> (r_fp r)) (r_timediff r))).
  { split; cbn; rewrite ?length_insert; try done.
    - intros idx Hidx. rewrite list_lookup_insert_ne by lia. apply Hfresh. lia.
    - intros idx Hidx Hn. destruct (decide (idx = k)) as [->|Hne].
      + right. by rewrite list_lookup_insert_eq by lia.
      + rewrite list_lookup_insert_ne by lia. apply Hdone; lia.
    - intros g v Hg. destruct (Hlock g v Hg); [by left|right; lia]. }
  unfold prediction_row. destruct (get_group gt (pr_video p)) as [this_gt|]; [|done].
  unfold threshold_row. destruct (first_hit _ _ _ _ _) as [|jdx|]; [done| |done].
  split; cbn; rewrite ?length_insert; try done.
  - intros idx Hidx. rewrite !list_lookup_insert_ne by lia. apply Hfresh. lia.
  - intros idx Hidx Hn. destruct (decide (idx = k)) as [->|Hne].
    + left. by rewrite list_lookup_insert_eq by lia.
    + rewrite !list_lookup_insert_ne by lia. apply Hdone; lia.
  - intros g v Hg. apply list_lookup_insert_Some in Hg as [(_ & <- & _)|[_ Hg]].
    + right. lia.
    + destruct (Hlock g v Hg); [by left|right; lia].
Qed.

(** One prediction leaves the cells of the other predictions alone, and a
    locked cell as it is; a cell it does write was unlocked and now holds
    the number of the prediction. *)
Lemma prediction_row_frame gt thr r k p :
  let r' := prediction_row tiou gt thr r k p in
  (forall idx, idx <> k ->
     r_tp r' !! idx = r_tp r !! idx /\ r_fp r' !! idx = r_fp r !! idx /\
     r_timediff r' !! idx = r_timediff r !! idx) /\
  (forall g v, r_lock r !! g = Some v ->
     r_lock r' !! g = Some v \/ (v < 0 /\ r_lock r' !! g = Some (Z.of_nat k))).
Proof.
  unfold prediction_row. destruct (get_group gt (pr_video p)) as [this_gt|].
  2:{ cbn. split; [|by left]. intros idx Hne. by rewrite list_lookup_insert_ne. }
  unfold threshold_row. destruct (first_hit _ _ _ _ _) as [|jdx|] eqn:E; cbn.
  1,3: split; [|by left]; intros idx Hne; by rewrite list_lookup_insert_ne.
  split; [intros idx Hne; by rewrite !list_lookup_insert_ne|].
  intros g v Hg. apply first_hit_Matched in E as (_ & _ & Hun).
  destruct (decide (g = (this_gt !!! jdx).1)) as [->|Hne].
  - right. rewrite (list_lookup_total_correct _ _ _ Hg) in Hun.
    split; [lia|]. apply list_lookup_insert_eq. by eapply lookup_lt_Some.
  - left. by rewrite list_lookup_insert_ne.
Qed.

Lemma sort_by_score_length pred : length (sort_by_score pred) = length pred.
Proof.
  unfold sort_by_score. rewrite loc_length.
  - by rewrite desc_length, length_map.
  - apply Forall_forall. intros a Ha%desc_lt. by rewrite length_map in Ha.
Qed.

Lemma sort_by_score_perm pred : sort_by_score pred ≡ₚ pred.
Proof.
  unfold sort_by_score.
  apply loc_perm. rewrite desc_perm. by rewrite length_map.
Qed.

Lemma state_after_S gt pred ts k p :
  sort_by_score pred !! k = Some p ->
  state_after tiou gt pred ts (S k)
  = match_prediction tiou gt ts (state_after tiou gt pred ts k) k p.
Proof.
  intros Hp. unfold state_after. rewrite (take_S_r _ _ _ Hp), for_enumerate_snoc.
  rewrite length_take_le; [done|]. apply lookup_lt_Some in Hp. lia.
Qed.

Lemma row_after_S gt pred thr k p :
  sort_by_score pred !! k = Some p ->
  row_after tiou gt pred thr (S k)
  = prediction_row tiou gt thr (row_after tiou gt pred thr k) k p.
Proof.
  intros Hp. unfold row_after. rewrite (take_S_r _ _ _ Hp), for_enumerate_snoc.
  rewrite length_take_le; [done|]. apply lookup_lt_Some in Hp. lia.
Qed.

Lemma state_after_ge gt pred ts k :
  (length pred <= k)%nat ->
  state_after tiou gt pred ts k = matching tiou gt pred ts.
Proof.
  intros Hk. unfold state_after, matching. rewrite take_ge; [done|].
  by rewrite sort_by_score_length.
Qed.

Lemma row_after_inv gt pred thr k :
  (k <= length pred)%nat ->
  row_inv (length gt) (length pred) k (row_after tiou gt pred thr k).
Proof.
  induction k as [|k IH]; intros Hk.
  - apply row_inv_init.
  - destruct (lookup_lt_is_Some_2 (sort_by_score pred) k) as [p Hp].
    { rewrite sort_by_score_length. lia. }
    rewrite (row_after_S _ _ _ _ _ Hp). apply prediction_row_inv; [|lia].
    apply IH. lia.
Qed.

(** The arrays after [k] predictions, row by row. *)
Lemma state_after_rows gt pred ts k :
  (k <= length pred)%nat ->
  rows_ok (length ts) (state_after tiou gt pred ts k) /\
  forall t thr, ts !! t = Some thr ->
    row_of (state_after tiou gt pred ts k) t = row_after tiou gt pred thr k.
Proof.
  induction k as [|k IH]; intros Hk.
  - split.
    + unfold rows_ok, state_after, for_enumerate, init_state. rewrite take_0.
      cbn [for_from lock_gt tp fp timediff]. by rewrite !length_replicate.
    + intros t thr Ht%lookup_lt_Some.
      unfold state_after, row_after, for_enumerate, row_of, init_state.
      rewrite take_0. cbn [for_from lock_gt tp fp timediff].
      by rewrite !lookup_total_replicate_2.
  - destruct (lookup_lt_is_Some_2 (sort_by_score pred) k) as [p Hp].
    { rewrite sort_by_score_length. lia. }
    destruct IH as [Hok Hrows]; [lia|].
    rewrite (state_after_S _ _ _ _ _ Hp).
    destruct (match_prediction_rows tiou gt ts (state_after tiou gt pred ts k) k p)
      as [Hok' Hrows']; [done| |].
    + intros t Ht. destruct (lookup_lt_is_Some_2 ts t Ht) as [thr Hthr].
      rewrite (Hrows _ _ Hthr).
      destruct (inv_fresh _ _ _ _ (row_after_inv gt pred thr k ltac:(lia)) k) as (? & ? & ?); [lia|].
      by split.
    + split; [done|]. intros t thr Hthr.
      rewrite (Hrows' _ _ Hthr), (Hrows _ _ Hthr). by rewrite (row_after_S _ _ _ _ _ Hp).
Qed.

End Pass.

Lemma cumsum_from_pair i : forall l1 l2 a1 a2,
  (forall j, (j <= i)%nat ->
     exists x y, l1 !! j = Some x /\ l2 !! j = Some y /\ x + y = 1) ->
  exists c1 c2, cumsum_from a1 l1 !! i = Some c1 /\
                cumsum_from a2 l2 !! i = Some c2 /\
                c1 + c2 = a1 + a2 + Z.of_nat i + 1.
Proof.
  induction i as [|i IH]; intros l1 l2 a1 a2 Hcells.
  - destruct (Hcells 0%nat ltac:(lia)) as (x & y & H1 & H2 & Hxy).
    destruct l1, l2; try done. cbn in *. injection H1 as ->. injection H2 as ->.
    eexists _, _. repeat split. lia.
  - destruct (Hcells 0%nat ltac:(lia)) as (x & y & H1 & H2 & Hxy).
    destruct l1 as [|x1 l1], l2 as [|y1 l2]; try done. cbn in H1, H2.
    injection H1 as ->. injection H2 as ->.
    destruct (IH l1 l2 (a1 + x) (a2 + y)) as (c1 & c2 & Hc1 & Hc2 & Hsum).
    { intros j Hj. apply (Hcells (S j)). lia. }
    exists c1, c2. cbn. repeat split; try done. lia.
Qed.

Section Stability.
Context {np_argsort : ArgSort} {np_sorts : Sorts}.
Variable tiou : float * float -> float * float -> float.

(** The rows of threshold [tidx] when the matching loop ends. *)
Lemma matching_row gt pred ts tidx thr :
  ts !! tidx = Some thr ->
  row_of (matching tiou gt pred ts) tidx
  = row_after tiou gt pred thr (length pred) /\
  row_inv (length gt) (length pred) (length pred)
          (row_after tiou gt pred thr (length pred)).
Proof.
  intros Hthr. rewrite <- (state_after_ge tiou gt pred ts (length pred)) by lia.
  split; [by apply state_after_rows|by apply row_after_inv].
Qed.

(** After its own step, the cells of a prediction stay as they are. *)
Lemma row_after_cells gt pred thr idx k :
  (idx < k <= length pred)%nat ->
  let r := row_after tiou gt pred thr (S idx) in
  let r' := row_after tiou gt pred thr k in
  r_tp r' !! idx = r_tp r !! idx /\ r_fp r' !! idx = r_fp r !! idx /\
  r_timediff r' !! idx = r_timediff r !! idx.
Proof.
  induction k as [|k IH]; intros Hk; [lia|]. cbn zeta.
  destruct (decide (k = idx)) as [->|Hne]; [done|].
  destruct (lookup_lt_is_Some_2 (sort_by_score pred) k) as [p Hp].
  { rewrite sort_by_score_length. lia. }
  rewrite (row_after_S _ _ _ _ _ _ Hp).
  destruct (prediction_row_frame tiou gt thr (row_after tiou gt pred thr k) k p)
    as [Hcells _].
  destruct (Hcells idx ltac:(lia)) as (-> & -> & ->). apply IH. lia.
Qed.

(** A locked cell keeps its value for the rest of the pass. *)
Lemma row_after_locked gt pred thr g v k k' :
  (k <= k' <= length pred)%nat ->
  r_lock (row_after tiou gt pred thr k) !! g = Some v -> 0 <= v ->
  r_lock (row_after tiou gt pred thr k') !! g = Some v.
Proof.
  induction k' as [|k' IH]; intros Hk Hv Hpos.
  - by replace k with 0%nat in Hv by lia.
  - destruct (decide (k = S k')) as [->|Hne]; [done|].
    destruct (lookup_lt_is_Some_2 (sort_by_score pred) k') as [p Hp].
    { rewrite sort_by_score_length. lia. }
    rewrite (row_after_S _ _ _ _ _ _ Hp).
    destruct (prediction_row_frame tiou gt thr (row_after tiou gt pred thr k') k' p)
      as [_ Hlock].
    destruct (Hlock g v) as [?|[? _]]; [apply IH; (lia || done)|done|lia].
Qed.

Lemma get2_row `{Inhabited A} (m : list (list A)) t j row (v : A) :
  m !!! t = row -> row !! j = Some v -> get2 m t j = v.
Proof. intros <- Hv. unfold get2. by apply list_lookup_total_correct. Qed.

End Stability.

Section Matching.
Context {np_argsort : ArgSort} {np_sorts : Sorts}.
Variable tiou : float * float -> float * float -> float.
Variable interpolated_prec_rec : list float -> list float -> float.

Lemma state_after_min gt pred ts k :
  state_after tiou gt pred ts k
  = state_after tiou gt pred ts (k `min` length pred).
Proof.
  destruct (decide (k <= length pred)%nat).
  - by rewrite Nat.min_l.
  - rewrite Nat.min_r by lia. by rewrite !state_after_ge by lia.
Qed.

(** Row [tidx] of the lock table after [k] predictions. *)
Lemma lock_row_after gt pred ts tidx thr k :
  ts !! tidx = Some thr ->
  lock_gt (state_after tiou gt pred ts k) !!! tidx
  = r_lock (row_after tiou gt pred thr (k `min` length pred)).
Proof.
  intros Hthr. rewrite state_after_min.
  destruct (state_after_rows tiou gt pred ts (k `min` length pred)) as [_ Hrows]; [lia|].
  by rewrite <- (Hrows _ _ Hthr).
Qed.

(** C4.  When the matching loop ends, for every threshold and every
    position [i] of the sorted predictions, the cumulative true-positive
    and false-positive counts add up to [i + 1], and the prediction is
    marked exactly one of true positive and false positive. *)
Theorem cumulative_counts gt pred ts tidx i :
  (tidx < length ts)%nat -> (i < length pred)%nat ->
  let st := matching tiou gt pred ts in
  this_tp st tidx !!! i + this_fp st tidx !!! i = Z.of_nat i + 1 /\
  ((get2 (tp st) tidx i = 1 /\ get2 (fp st) tidx i = 0) \/
   (get2 (tp st) tidx i = 0 /\ get2 (fp st) tidx i = 1)).
Proof.
  intros Htidx Hi st.
  destruct (lookup_lt_is_Some_2 ts tidx Htidx) as [thr Hthr].
  destruct (matching_row tiou gt pred ts tidx thr Hthr) as [Hrow Hinv].
  fold st in Hrow. unfold row_of in Hrow.
  set (r := row_after tiou gt pred thr (length pred)) in *.
  assert (Htp : tp st !!! tidx = r_tp r) by (by rewrite <- Hrow).
  assert (Hfp : fp st !!! tidx = r_fp r) by (by rewrite <- Hrow).
  assert (Hcell : forall j, (j < length pred)%nat ->
            (r_tp r !! j = Some 1 /\ r_fp r !! j = Some 0) \/
            (r_tp r !! j = Some 0 /\ r_fp r !! j = Some 1)).
  { intros j Hj. destruct (inv_done _ _ _ _ Hinv j Hj Hj) as [?|(? & ? & _)]; auto. }
  split.
  - unfold this_tp, this_fp, cumsum. rewrite Htp, Hfp.
    destruct (cumsum_from_pair i (r_tp r) (r_fp r) 0 0) as (c1 & c2 & H1 & H2 & Hsum).
    { intros j Hj. destruct (Hcell j ltac:(lia)) as [[-> ->]|[-> ->]]; by eexists _, _. }
    rewrite (list_lookup_total_correct _ _ _ H1), (list_lookup_total_correct _ _ _ H2). lia.
  - destruct (Hcell i Hi) as [[H1 H2]|[H1 H2]]; [left|right];
      by rewrite (get2_row _ _ _ _ _ Htp H1), (get2_row _ _ _ _ _ Hfp H2).
Qed.


(** C6.  A prediction whose video has no ground-truth instance is a
    false positive and not a true positive at every threshold, stores no
    latency and leaves the lock table as it is; the sorted frame is a
    permutation of the predictions, so this holds of every such
    prediction. *)
Theorem absent_video_false_positive gt pred ts idx p tidx :
  sort_by_score pred !! idx = Some p ->
  get_group gt (pr_video p) = None ->
  (tidx < length ts)%nat ->
  let st := matching tiou gt pred ts in
  sort_by_score pred ≡ₚ pred /\
  get2 (fp st) tidx idx = 1 /\ get2 (tp st) tidx idx = 0 /\
  get2 (timediff st) tidx idx = 0%float /\
  lock_gt (state_after tiou gt pred ts (S idx)) !!! tidx
  = lock_gt (state_after tiou gt pred ts idx) !!! tidx.
Proof.
  intros Hp Hnone Htidx st. split; [apply sort_by_score_perm|].
  destruct (lookup_lt_is_Some_2 ts tidx Htidx) as [thr Hthr].
  assert (Hidx : (idx < length pred)%nat).
  { apply lookup_lt_Some in Hp. by rewrite sort_by_score_length in Hp. }
  destruct (matching_row tiou gt pred ts tidx thr Hthr) as [Hrow _].
  fold st in Hrow. unfold row_of in Hrow.
  pose proof (row_after_S tiou gt pred thr idx p Hp) as Hstep.
  unfold prediction_row in Hstep. rewrite Hnone in Hstep.
  destruct (inv_fresh _ _ _ _ (row_after_inv tiou gt pred thr idx ltac:(lia)) idx)
    as (Ht0 & Hf0 & Hd0); [lia|].
  destruct (row_after_cells tiou gt pred thr idx (length pred)) as (Ht & Hf & Hd); [lia|].
  rewrite Hstep in Ht, Hf, Hd. cbn in Ht, Hf, Hd.
  rewrite list_lookup_insert_eq in Hf by (by eapply lookup_lt_Some).
  rewrite Ht0 in Ht. rewrite Hd0 in Hd.
  set (r := row_after tiou gt pred thr (length pred)) in *.
  repeat split.
  - eapply get2_row; [|exact Hf]. by rewrite <- Hrow.
  - eapply get2_row; [|exact Ht]. by rewrite <- Hrow.
  - eapply get2_row; [|exact Hd]. by rewrite <- Hrow.
  - rewrite !(lock_row_after _ _ _ _ _ _ Hthr).
    rewrite !Nat.min_l by lia. by rewrite Hstep.
Qed.

(** C1.  In one pass over the sorted predictions, for every threshold
    [tidx] and ground-truth instance [g]: a locked cell of the lock table
    keeps its value for the rest of the pass; a prediction that writes
    the cell finds it at -1 and leaves its own number in it; at most one
    prediction writes it; and the row of one threshold is the row the
    pass computes when run with that threshold alone, so the rows of
    different thresholds do not depend on one another. *)
Theorem lock_table_discipline gt pred ts tidx g :
  (tidx < length ts)%nat -> (g < length gt)%nat ->
  let lock k := get2 (lock_gt (state_after tiou gt pred ts k)) tidx g in
  (forall k k', (k <= k')%nat -> 0 <= lock k -> lock k' = lock k) /\
  (forall k, claims tiou gt pred ts tidx g k ->
     lock k = -1 /\ lock (S k) = Z.of_nat k /\ (k < length pred)%nat) /\
  (forall k1 k2, claims tiou gt pred ts tidx g k1 ->
     claims tiou gt pred ts tidx g k2 -> k1 = k2) /\
  (forall k, lock_gt (state_after tiou gt pred ts k) !!! tidx
             = lock_gt (state_after tiou gt pred [ts !!! tidx] k) !!! 0%nat).
Proof.
  intros Htidx Hg lock.
  destruct (lookup_lt_is_Some_2 ts tidx Htidx) as [thr Hthr].
  set (row k := r_lock (row_after tiou gt pred thr (k `min` length pred))).
  assert (Hlen : forall k, length (row k) = length gt).
  { intros k. apply (inv_lock_len _ (length pred) (k `min` length pred)).
    apply row_after_inv. lia. }
  assert (Hcell : forall k, row k !! g = Some (lock k)).
  { intros k. unfold lock, get2. rewrite (lock_row_after _ _ _ _ _ _ Hthr).
    apply list_lookup_lookup_total_lt. fold (row k). by rewrite Hlen. }
  assert (Hmono : forall k k', (k <= k')%nat -> 0 <= lock k -> lock k' = lock k).
  { intros k k' Hk Hpos.
    pose proof (row_after_locked tiou gt pred thr g (lock k)
                  (k `min` length pred) (k' `min` length pred) ltac:(lia)
                  (Hcell k) Hpos) as Hk'.
    pose proof (Hcell k') as Hc. unfold row in Hc. congruence. }
  assert (Hclaim : forall k, claims tiou gt pred ts tidx g k ->
            lock k = -1 /\ lock (S k) = Z.of_nat k /\ (k < length pred)%nat).
  { intros k Hc. unfold claims in Hc. fold (lock k) (lock (S k)) in Hc.
    destruct (decide (k < length pred)%nat) as [Hk|Hk].
    2:{ exfalso. apply Hc. unfold lock. by rewrite !state_after_ge by lia. }
    destruct (lookup_lt_is_Some_2 (sort_by_score pred) k) as [p Hp].
    { by rewrite sort_by_score_length. }
    pose proof (Hcell k) as Hck. pose proof (Hcell (S k)) as HcS.
    unfold row in Hck, HcS. rewrite Nat.min_l in Hck, HcS by lia.
    rewrite (row_after_S _ _ _ _ _ _ Hp) in HcS.
    destruct (prediction_row_frame tiou gt thr (row_after tiou gt pred thr k) k p)
      as [_ Hlock].
    destruct (Hlock g _ Hck) as [Hsame|[Hneg Hnew]]; [congruence|].
    destruct (inv_lock _ _ _ _ (row_after_inv tiou gt pred thr k ltac:(lia)) g _ Hck)
      as [?|?]; [|lia].
    repeat split; [done|congruence|done]. }
  repeat split; try done.
  - by apply Hclaim.
  - by apply Hclaim.
  - by apply Hclaim.
  - intros k1 k2 H1 H2.
    destruct (Hclaim k1 H1) as (Ha1 & Hb1 & _), (Hclaim k2 H2) as (Ha2 & Hb2 & _).
    destruct (Nat.lt_trichotomy k1 k2) as [Hlt|[?|Hlt]]; [|done|].
    + pose proof (Hmono (S k1) k2 ltac:(lia) ltac:(lia)). lia.
    + pose proof (Hmono (S k2) k1 ltac:(lia) ltac:(lia)). lia.
  - intros k. rewrite (lock_row_after _ _ _ _ _ _ Hthr).
    rewrite (list_lookup_total_correct _ _ _ Hthr).
    by rewrite (lock_row_after gt pred [thr] 0%nat thr k).
Qed.

(** C5.  With no ground truth or no prediction,
    [compute_average_precision_detection] returns three vectors of zeros,
    one cell per threshold. *)
Theorem empty_class_zero_vectors gt pred ts :
  gt = [] \/ pred = [] ->
  compute_average_precision_detection tiou interpolated_prec_rec gt pred ts
  = (replicate (length ts) 0%float, replicate (length ts) 0%float,
     replicate (length ts) 0).
Proof.
  intros [-> | ->]; unfold compute_average_precision_detection; cbn.
  - by rewrite orb_true_r.
  - done.
Qed.

End Matching.


Lemma get_group_lookup gt vid this_gt jdx g r :
  get_group gt vid = Some this_gt -> this_gt !! jdx = Some (g, r) ->
  gt !! g = Some r /\ gt_video r = vid.
Proof.
  unfold get_group. intros Hg Hj.
  assert (Hin : (g, r) ∈ filter (fun r => String.eqb (gt_video r.2) vid = true)
                          (imap pair gt)).
  { destruct (filter _ _); [done|]. injection Hg as ->. by eapply list_elem_of_lookup_2. }
  apply list_elem_of_filter in Hin as [Hv Hin]. cbn in Hv.
  apply list_elem_of_lookup in Hin as [i Hi]. rewrite list_lookup_imap in Hi.
  destruct (gt !! i) as [r'|] eqn:E; [|done]. cbn in Hi. injection Hi as -> ->.
  split; [done|]. by apply String.eqb_eq.
Qed.

Lemma sort_lt_false_ltb a b : sort_lt a b = false -> (a <? b)%float = false.
Proof. unfold sort_lt. by intros [? _]%orb_false_iff. Qed.


Section Walk.
Context {np_argsort : ArgSort} {np_sorts : Sorts}.
Variable tiou : float * float -> float * float -> float.


End Walk.

Lemma score_lookup pred ia a :
  pred !! ia = Some a -> map pr_score pred !!! ia = pr_score a.
Proof.
  intros Ha. apply list_lookup_total_correct. by rewrite list_lookup_fmap, Ha.
Qed.

Section SortedFrame.
Context {np_argsort : ArgSort} {np_sorts : Sorts}.

Lemma sort_by_score_lookup pred i a :
  sort_by_score pred !! i = Some a <->
  exists ia, rev (argsort (map pr_score pred)) !! i = Some ia /\
             pred !! ia = Some a.
Proof.
  unfold sort_by_score. rewrite loc_lookup.
  - destruct (rev _ !! i) as [ia|]; cbn.
    + split; [by exists ia|]. by intros (? & [= <-] & ?).
    + split; [done|]. by intros (? & [=] & ?).
  - apply Forall_forall. intros x Hx%desc_lt. by rewrite length_map in Hx.
Qed.

(** C8, amended.  Whichever sort numpy runs, the sorted frame is a
    permutation of the predictions in which no row has a score strictly
    below that of a later row, and a row with a NaN score stands before
    every row with another score.  The order of rows with equal scores is
    left open. *)
Theorem sort_by_score_order pred :
  sort_by_score pred ≡ₚ pred /\
  (forall i j a b, (i < j)%nat ->
     sort_by_score pred !! i = Some a -> sort_by_score pred !! j = Some b ->
     (pr_score a <? pr_score b)%float = false) /\
  (forall i j a b, (i < j)%nat ->
     sort_by_score pred !! i = Some a -> sort_by_score pred !! j = Some b ->
     PrimFloat.is_nan (pr_score b) = true ->
     PrimFloat.is_nan (pr_score a) = true).
Proof.
  assert (Hsorted : forall i j a b, (i < j)%nat ->
            sort_by_score pred !! i = Some a ->
            sort_by_score pred !! j = Some b ->
            sort_lt (pr_score a) (pr_score b) = false).
  { intros i j a b Hij (ia & Hia & Ha)%sort_by_score_lookup
      (ib & Hib & Hb)%sort_by_score_lookup.
    rewrite <- (score_lookup _ _ _ Ha), <- (score_lookup _ _ _ Hb).
    eapply (StronglySorted_lookup (descends (map pr_score pred)));
      [apply desc_sorted|exact Hij|done|done]. }
  split; [apply sort_by_score_perm|]. split.
  - intros i j a b Hij Ha Hb. apply sort_lt_false_ltb. by eapply Hsorted.
  - intros i j a b Hij Ha Hb Hnan.
    pose proof (Hsorted i j a b Hij Ha Hb) as Hlt. unfold sort_lt in Hlt.
    apply orb_false_iff in Hlt as [_ Hlt]. rewrite Hnan in Hlt. cbn in Hlt.
    by apply negb_false_iff in Hlt.
Qed.

End SortedFrame.

Lemma last_cell_cons `{Inhabited A} (a b : A) l :
  last_cell (a :: b :: l) = last_cell (b :: l).
Proof.
  unfold last_cell. cbn [length].
  by replace (S (S (length l)) - 1)%nat with (S (S (length l) - 1)) by lia.
Qed.

Lemma cumsum_from_last l : forall acc, l <> [] ->
  last_cell (cumsum_from acc l) = fold_left Z.add l acc.
Proof.
  induction l as [|x l IH]; intros acc Hne; [done|].
  destruct l as [|y l]; [done|].
  change (cumsum_from acc (x :: y :: l))
    with ((acc + x) :: (acc + x + y) :: cumsum_from (acc + x + y) l).
  rewrite last_cell_cons. by apply (IH (acc + x)).
Qed.

Lemma fcumsum_from_last l : forall acc, l <> [] ->
  last_cell (fcumsum_from acc l) = fold_left PrimFloat.add l acc.
Proof.
  induction l as [|x l IH]; intros acc Hne; [done|].
  destruct l as [|y l]; [done|].
  change (fcumsum_from acc (x :: y :: l))
    with ((acc + x)%float :: (acc + x + y)%float
          :: fcumsum_from (acc + x + y)%float l).
  rewrite last_cell_cons. by apply (IH (acc + x)%float).
Qed.

Lemma fcumsum_from_length l : forall acc, length (fcumsum_from acc l) = length l.
Proof. induction l as [|x l IH]; intros acc; cbn; [done|]. by rewrite IH. Qed.

Lemma fcumsum_last l : l <> [] ->
  length (fcumsum l) = length l /\ last_cell (fcumsum l) = fsum l.
Proof.
  destruct l as [|x l]; [done|]. intros _. cbn [fcumsum fsum length].
  rewrite fcumsum_from_length. split; [done|].
  destruct l as [|y l]; [done|].
  change (fcumsum_from x (y :: l))
    with ((x + y)%float :: fcumsum_from (x + y)%float l).
  rewrite last_cell_cons. by apply (fcumsum_from_last (y :: l)).
Qed.

Section Latency.
Context {np_argsort : ArgSort} {np_sorts : Sorts}.
Variable tiou : float * float -> float * float -> float.
Variable interpolated_prec_rec : list float -> list float -> float.

(** The cell of threshold [tidx] in the three vectors returned. *)
Lemma compute_cells gt pred ts tidx :
  gt <> [] -> pred <> [] -> (tidx < length ts)%nat ->
  let res := compute_average_precision_detection tiou interpolated_prec_rec
               gt pred ts in
  let cell := aggregate interpolated_prec_rec
                (to_float (Z.of_nat (length gt)))
                (matching tiou gt pred ts) tidx in
  res.1.1 !!! tidx = cell.1.1 /\ res.1.2 !!! tidx = cell.1.2 /\
  res.2 !!! tidx = cell.2.
Proof.
  intros Hgt Hpred Htidx. unfold compute_average_precision_detection.
  destruct pred as [|p pred]; [done|]. destruct gt as [|g gt]; [done|].
  cbn [length Nat.eqb orb fst snd].
  repeat split; apply list_lookup_total_correct;
    rewrite !list_lookup_fmap, lookup_seq_lt by done; done.
Qed.

(** The latency and count cells of one threshold. *)
Lemma latency_cells gt pred ts tidx :
  gt <> [] -> pred <> [] -> (tidx < length ts)%nat ->
  let res := compute_average_precision_detection tiou interpolated_prec_rec
               gt pred ts in
  let st := matching tiou gt pred ts in
  let count := fold_left Z.add (tp st !!! tidx) 0 in
  res.2 !!! tidx = count /\
  res.1.2 !!! tidx
  = (if count =? 0 then 0%float
     else nan_to_num (fsum (timediff st !!! tidx))) /\
  (forall i, (i < length pred)%nat -> get2 (tp st) tidx i = 0 ->
     get2 (timediff st) tidx i = 0%float).
Proof.
  intros Hgt Hpred Htidx res st count.
  destruct (compute_cells gt pred ts tidx Hgt Hpred Htidx) as (_ & Htd & Hcnt).
  fold res st in Htd, Hcnt.
  destruct (lookup_lt_is_Some_2 ts tidx Htidx) as [thr Hthr].
  destruct (matching_row tiou gt pred ts tidx thr Hthr) as [Hrow Hinv].
  fold st in Hrow. unfold row_of in Hrow.
  set (r := row_after tiou gt pred thr (length pred)) in *.
  assert (Htp : tp st !!! tidx = r_tp r) by (by rewrite <- Hrow).
  assert (Htdr : timediff st !!! tidx = r_timediff r) by (by rewrite <- Hrow).
  assert (Hn : (0 < length pred)%nat) by (destruct pred; [done|cbn; lia]).
  assert (Htpne : tp st !!! tidx <> []).
  { rewrite Htp. intros E. pose proof (inv_tp_len _ _ _ _ Hinv) as Hl.
    rewrite E in Hl. cbn in Hl. lia. }
  assert (Htdne : timediff st !!! tidx <> []).
  { rewrite Htdr. intros E. pose proof (inv_td_len _ _ _ _ Hinv) as Hl.
    rewrite E in Hl. cbn in Hl. lia. }
  pose proof (cumsum_from_last _ 0 Htpne) as Hlast.
  destruct (fcumsum_last _ Htdne) as [Hflen Hflast].
  assert (Hc : (aggregate interpolated_prec_rec
                  (to_float (Z.of_nat (length gt))) st tidx).2 = count).
  { unfold aggregate. cbn [snd]. exact Hlast. }
  repeat split.
  - by rewrite Hcnt.
  - rewrite Htd. unfold aggregate. cbn [fst snd].
    unfold this_tdiff at 1. rewrite Hflen.
    replace (length (timediff st !!! tidx) =? 0)%nat with false.
    2:{ symmetry. apply Nat.eqb_neq. destruct (timediff st !!! tidx); [done|cbn; lia]. }
    cbn [orb]. unfold this_tp, cumsum. rewrite Hlast. fold count.
    unfold this_tdiff. rewrite Hflast. done.
  - intros i Hi Hz.
    destruct (inv_done _ _ _ _ Hinv i Hi Hi) as [[H1 _]|(_ & _ & Hd)].
    + rewrite (get2_row _ _ _ _ _ Htp H1) in Hz. done.
    + by eapply get2_row.
Qed.

End Latency.

End MatcherFacts.

(** ** Ground-truth import and the per-class wrapper *)
Module WrapperFacts.
Import Np Evaluation Order Rows Stated SortFacts MatcherFacts.
Local Open Scope nat_scope.

Lemma dict_set_fresh (d : dict) k v : k ∉ d.*1 -> dict_set d k v = d ++ [(k, v)].
Proof.
  induction d as [|[k' v'] d IH]; intros Hk; cbn; [done|].
  cbn in Hk. apply not_elem_of_cons in Hk as [Hne Hk].
  destruct (String.eqb_spec k' k) as [->|_]; [done|]. by rewrite IH.
Qed.

Lemma dict_get_app_l (d e : dict) k :
  k ∈ d.*1 -> dict_get (d ++ e) k = dict_get d k.
Proof.
  induction d as [|[k' v'] d IH]; intros Hk; cbn; [by apply elem_of_nil in Hk|].
  destruct (String.eqb_spec k' k) as [->|Hne]; [done|].
  cbn in Hk. apply elem_of_cons in Hk as [->|Hk]; [done|]. by apply IH.
Qed.

Lemma dict_get_fresh (d : dict) k v :
  k ∉ d.*1 -> dict_get (d ++ [(k, v)]) k = Some v.
Proof.
  induction d as [|[k' v'] d IH]; intros Hk; cbn.
  - by rewrite String.eqb_refl.
  - cbn in Hk. apply not_elem_of_cons in Hk as [Hne Hk].
    destruct (String.eqb_spec k' k) as [->|_]; [done|]. by apply IH.
Qed.

Lemma dict_get_elem (d : dict) k v : dict_get d k = Some v -> (k, v) ∈ d.
Proof.
  induction d as [|[k' v'] d IH]; cbn; [done|].
  destruct (String.eqb_spec k' k) as [->|_].
  - intros [= ->]. by left.
  - intros Hg. right. by apply IH.
Qed.

Lemma dict_get_NoDup (d : dict) k v :
  NoDup d.*1 -> (k, v) ∈ d -> dict_get d k = Some v.
Proof.
  induction d as [|[k' v'] d IH]; intros Hnd Hin; [by apply elem_of_nil in Hin|].
  cbn in Hnd. apply NoDup_cons in Hnd as [Hk' Hnd]. cbn.
  apply elem_of_cons in Hin as [[= -> ->]|Hin].
  - by rewrite String.eqb_refl.
  - destruct (String.eqb_spec k' k) as [->|_]; [|by apply IH].
    destruct Hk'. apply list_elem_of_fmap. by exists (k, v).
Qed.

Lemma first_seen_snoc (ls : list string) l :
  reverse (remove_dups (reverse (ls ++ [l])))
  = if decide (l ∈ ls) then reverse (remove_dups (reverse ls))
    else reverse (remove_dups (reverse ls)) ++ [l].
Proof.
  rewrite reverse_snoc. cbn [remove_dups].
  destruct (decide_rel elem_of l (reverse ls)) as [Hr|Hr],
    (decide (l ∈ ls)) as [Hl|Hl]; rewrite elem_of_reverse in Hr; try done.
  by rewrite reverse_cons.
Qed.

Lemma import_annotation_inv videoid s ls ann :
  import_inv s ls ->
  import_inv (import_annotation videoid s ann) (ls ++ [ann_label ann]).
Proof.
  intros (Hkeys & Hvals & Hrows). unfold import_inv, import_annotation, dict_mem.
  set (l := ann_label ann).
  assert (Hall : forall x, x ∈ (activity_index s).*1 <-> x ∈ ls).
  { intros x.
    by rewrite Hkeys, elem_of_reverse, elem_of_remove_dups, elem_of_reverse. }
  pose proof (Hall l) as Hin.
  rewrite first_seen_snoc.
  destruct (decide (l ∈ (activity_index s).*1)) as [Hl|Hl].
  - rewrite bool_decide_true by done. cbn [negb].
    rewrite decide_True by (by rewrite <- Hin).
    cbn. split; [done|]. split; [done|].
    by rewrite !fmap_app, Hrows.
  - rewrite bool_decide_false by done. cbn [negb].
    rewrite decide_False by (by rewrite <- Hin).
    rewrite dict_set_fresh by done. cbn.
    rewrite !fmap_app, Hkeys, Hvals. cbn.
    split; [done|]. split; [by rewrite Nat.add_1_r, seq_S|].
    rewrite Hrows. f_equal.
    apply list_fmap_ext. intros i x Hx. apply list_elem_of_lookup_2 in Hx.
    rewrite dict_get_app_l; [done|]. by apply Hall.
Qed.

Lemma import_annotations_inv videoid anns : forall s ls,
  import_inv s ls ->
  import_inv (fold_left (import_annotation videoid) anns s)
             (ls ++ map ann_label anns).
Proof.
  induction anns as [|ann anns IH]; intros s ls Hinv; cbn.
  - by rewrite app_nil_r.
  - replace (ls ++ ann_label ann :: map ann_label anns)
      with ((ls ++ [ann_label ann]) ++ map ann_label anns)
      by (by rewrite <- app_assoc).
    apply IH. by apply import_annotation_inv.
Qed.

Lemma import_database_inv subset db : forall s ls,
  import_inv s ls ->
  import_inv (fold_left (import_video subset) db s)
             (ls ++ loaded_labels subset db).
Proof.
  induction db as [|entry db IH]; intros s ls Hinv; cbn.
  - by rewrite app_nil_r.
  - rewrite app_assoc. apply IH. unfold import_video.
    destruct (subset_in subset (v_subset entry.2)); cbn.
    + by apply import_annotations_inv.
    + by rewrite app_nil_r.
Qed.

Lemma set_col_vec_shape {A} (m : list (list A)) j v nrow ncol :
  shape nrow ncol m -> length v = nrow -> shape nrow ncol (set_col_vec m j v).
Proof.
  intros [Hlen Hrows] Hv. unfold set_col_vec. split.
  - rewrite length_zip_with. lia.
  - apply Forall_forall. intros row' Hin.
    apply list_elem_of_lookup in Hin as [t Ht].
    apply lookup_zip_with_Some in Ht as (row & x & -> & Hrow & Hx).
    rewrite length_insert. rewrite Forall_forall in Hrows. apply Hrows.
    by eapply list_elem_of_lookup_2.
Qed.

Lemma set_col_vec_lookup {A} (m : list (list A)) j v t row x :
  m !! t = Some row -> v !! t = Some x ->
  set_col_vec m j v !! t = Some (<[j := x]> row).
Proof.
  intros Hrow Hx. unfold set_col_vec. apply lookup_zip_with_Some. by exists row, x.
Qed.

Section Columns.
Context {A B : Type} (col : B -> nat) (vec : B -> list A) (nrow ncol : nat).

Let fill (m : list (list A)) (b : B) := set_col_vec m (col b) (vec b).

Lemma fold_columns_other items : forall m c,
  shape nrow ncol m -> Forall (fun b => length (vec b) = nrow) items ->
  c ∉ col <$> items ->
  shape nrow ncol (fold_left fill items m) /\
  forall t row, m !! t = Some row ->
    exists row', fold_left fill items m !! t = Some row' /\ row' !! c = row !! c.
Proof.
  induction items as [|b items IH]; intros m c Hm Hvec Hc; cbn.
  - split; [done|]. intros t row Hrow. by exists row.
  - apply Forall_cons in Hvec as [Hb Hvec]. cbn in Hc.
    apply not_elem_of_cons in Hc as [Hne Hc].
    destruct (IH (fill m b) c) as [Hsh Hcells]; [by apply set_col_vec_shape|done|done|].
    split; [done|]. intros t row Hrow.
    assert (Ht : t < length (vec b)).
    { rewrite Hb. destruct Hm as [<- _]. by eapply lookup_lt_Some. }
    destruct (lookup_lt_is_Some_2 _ _ Ht) as [x Hx].
    destruct (Hcells t _ (set_col_vec_lookup m (col b) (vec b) t row x Hrow Hx))
      as (row' & Hrow' & Hcell).
    exists row'. split; [done|]. rewrite Hcell. by apply list_lookup_insert_ne.
Qed.

Lemma fold_columns_filled items : forall m b,
  shape nrow ncol m ->
  Forall (fun b => length (vec b) = nrow /\ col b < ncol) items ->
  NoDup (col <$> items) -> b ∈ items ->
  forall t, t < nrow ->
    exists row' x, fold_left fill items m !! t = Some row' /\
                   row' !! col b = Some x /\ vec b !! t = Some x.
Proof.
  induction items as [|b0 items IH]; intros m b Hm Hvec Hnd Hin t Ht;
    [by apply elem_of_nil in Hin|].
  apply Forall_cons in Hvec as [[Hb0 Hc0] Hvec]. cbn in Hnd.
  apply NoDup_cons in Hnd as [Hfresh Hnd]. cbn.
  assert (Hm1 : shape nrow ncol (fill m b0)) by (by apply set_col_vec_shape).
  apply elem_of_cons in Hin as [->|Hin]; [|by apply IH].
  destruct (fold_columns_other items (fill m b0) (col b0)) as [_ Hcells];
    [done| |done|].
  { eapply Forall_impl; [exact Hvec|]. by intros ? [? _]. }
  destruct (lookup_lt_is_Some_2 m t) as [row Hrow]; [destruct Hm as [-> _]; lia|].
  destruct (lookup_lt_is_Some_2 (vec b0) t) as [x Hx]; [lia|].
  destruct (Hcells t _ (set_col_vec_lookup m (col b0) (vec b0) t row x Hrow Hx))
    as (row' & Hrow' & Hcell).
  exists row', x. split; [done|]. split; [|done]. rewrite Hcell.
  apply list_lookup_insert_eq. destruct Hm as [_ Hrows].
  rewrite Forall_forall in Hrows. rewrite (Hrows row); [done|].
  by eapply list_elem_of_lookup_2.
Qed.

Lemma fold_columns_shape items : forall m,
  shape nrow ncol m -> Forall (fun b => length (vec b) = nrow) items ->
  shape nrow ncol (fold_left fill items m).
Proof.
  induction items as [|b items IH]; intros m Hm Hvec; cbn; [done|].
  apply Forall_cons in Hvec as [Hb Hvec]. apply IH; [|done].
  by apply set_col_vec_shape.
Qed.

End Columns.

Section WrapperFacts.
Context {np_argsort : ArgSort} {np_sorts : Sorts}.
Variable tiou : float * float -> float * float -> float.
Variable interpolated_prec_rec : list float -> list float -> float.

Lemma compute_lengths gt pred ts :
  let res := compute_average_precision_detection tiou interpolated_prec_rec
               gt pred ts in
  length res.1.1 = length ts /\ length res.1.2 = length ts /\
  length res.2 = length ts.
Proof.
  unfold compute_average_precision_detection.
  destruct (_ || _); cbn; by rewrite ?length_replicate, ?length_map, ?length_seq.
Qed.

Lemma class_loop_fold gt pred ts items : forall m,
  let m' := fold_left (evaluate_class tiou interpolated_prec_rec gt pred ts)
              items m in
  m_ap m' = fold_left (fun a (b : string * nat) =>
              set_col_vec a b.2 (class_result tiou interpolated_prec_rec gt pred ts b.2).1.1) items (m_ap m) /\
  m_tdiff m' = fold_left (fun a (b : string * nat) =>
              set_col_vec a b.2 (class_result tiou interpolated_prec_rec gt pred ts b.2).1.2) items (m_tdiff m) /\
  m_cnt_tp m' = fold_left (fun a (b : string * nat) =>
              set_col_vec a b.2 (class_result tiou interpolated_prec_rec gt pred ts b.2).2) items (m_cnt_tp m).
Proof.
  induction items as [|b items IH]; intros m; cbn; [done|]. apply IH.
Qed.

Lemma shape_replicate {A} nrow ncol (x : A) :
  shape nrow ncol (replicate nrow (replicate ncol x)).
Proof.
  split; [by rewrite length_replicate|].
  apply Forall_forall. intros row [-> _]%elem_of_replicate. by rewrite length_replicate.
Qed.

(** Each class of the index fills its own column with its own result. *)
Lemma class_loop_columns gt pred (ai : dict) ts tidx l c :
  NoDup ai.*2 -> Forall (fun b => b.2 < length ai) ai ->
  (l, c) ∈ ai -> tidx < length ts ->
  let m := class_loop tiou interpolated_prec_rec gt pred ai ts in
  let res := class_result tiou interpolated_prec_rec gt pred ts c in
  get2 (m_ap m) tidx c = res.1.1 !!! tidx /\
  get2 (m_tdiff m) tidx c = res.1.2 !!! tidx /\
  get2 (m_cnt_tp m) tidx c = res.2 !!! tidx.
Proof.
  intros Hnd Hlt Hin Htidx m res. unfold class_loop in m.
  destruct (class_loop_fold gt pred ts ai
              (Metrics (replicate (length ts) (replicate (length ai) 0%float))
                       (replicate (length ts) (replicate (length ai) 0%float))
                       (replicate (length ts) (replicate (length ai) 0%Z))))
    as (Hap & Htd & Hcnt).
  fold m in Hap, Htd, Hcnt. cbn [m_ap m_tdiff m_cnt_tp] in Hap, Htd, Hcnt.
  assert (Hvec : forall b : string * nat, 
            length (class_result tiou interpolated_prec_rec gt pred ts b.2).1.1 = length ts /\
            length (class_result tiou interpolated_prec_rec gt pred ts b.2).1.2 = length ts /\
            length (class_result tiou interpolated_prec_rec gt pred ts b.2).2 = length ts).
  { intros b. apply compute_lengths. }
  repeat split.
  - destruct (fold_columns_filled snd (fun b : string * nat => (class_result tiou interpolated_prec_rec gt pred ts b.2).1.1)
                (length ts) (length ai) ai _ (l, c)
                (shape_replicate (length ts) (length ai) 0%float))
      with (t := tidx) as (row & x & Hrow & Hx & Hv); try done.
    { eapply Forall_impl; [exact Hlt|]. intros b Hb. split; [apply Hvec|done]. }
    rewrite <- Hap in Hrow. unfold get2.
    rewrite (list_lookup_total_correct _ _ _ Hrow).
    rewrite (list_lookup_total_correct _ _ _ Hx). symmetry.
    by apply list_lookup_total_correct.
  - destruct (fold_columns_filled snd (fun b : string * nat => (class_result tiou interpolated_prec_rec gt pred ts b.2).1.2)
                (length ts) (length ai) ai _ (l, c)
                (shape_replicate (length ts) (length ai) 0%float))
      with (t := tidx) as (row & x & Hrow & Hx & Hv); try done.
    { eapply Forall_impl; [exact Hlt|]. intros b Hb. split; [apply Hvec|done]. }
    rewrite <- Htd in Hrow. unfold get2.
    rewrite (list_lookup_total_correct _ _ _ Hrow).
    rewrite (list_lookup_total_correct _ _ _ Hx). symmetry.
    by apply list_lookup_total_correct.
  - destruct (fold_columns_filled snd (fun b : string * nat => (class_result tiou interpolated_prec_rec gt pred ts b.2).2)
                (length ts) (length ai) ai _ (l, c)
                (shape_replicate (length ts) (length ai) 0%Z))
      with (t := tidx) as (row & x & Hrow & Hx & Hv); try done.
    { eapply Forall_impl; [exact Hlt|]. intros b Hb. split; [apply Hvec|done]. }
    rewrite <- Hcnt in Hrow. unfold get2.
    rewrite (list_lookup_total_correct _ _ _ Hrow).
    rewrite (list_lookup_total_correct _ _ _ Hx). symmetry.
    by apply list_lookup_total_correct.
Qed.

Variable np_sum : list float -> float.

(** The cell of threshold [tidx] in [final_tdiff]. *)
Lemma wrapper_final_tdiff gt pred (ai : dict) ts tidx :
  tidx < length ts ->
  let m := class_loop tiou interpolated_prec_rec gt pred ai ts in
  let total := fold_left Z.add (m_cnt_tp m !!! tidx) 0%Z in
  (wrapper_compute_average_precision tiou interpolated_prec_rec np_sum
     gt pred ai ts).2 !!! tidx
  = nan_to_num (if (0 <? total)%Z
                then (np_sum (m_tdiff m !!! tidx) / to_float total)%float
                else 0%float).
Proof.
  intros Htidx m total. unfold wrapper_compute_average_precision. fold m. cbn [snd].
  destruct (class_loop_fold gt pred ts ai
              (Metrics (replicate (length ts) (replicate (length ai) 0%float))
                       (replicate (length ts) (replicate (length ai) 0%float))
                       (replicate (length ts) (replicate (length ai) 0%Z))))
    as (_ & Htd & Hcnt).
  cbn [m_ap m_tdiff m_cnt_tp] in Htd, Hcnt.
  assert (Hvec : forall b : string * nat,
            length (class_result tiou interpolated_prec_rec gt pred ts b.2).1.2 = length ts /\
            length (class_result tiou interpolated_prec_rec gt pred ts b.2).2 = length ts).
  { intros b. split; apply compute_lengths. }
  assert (Hsd : length (m_tdiff m) = length ts).
  { unfold m, class_loop. rewrite Htd. apply (fold_columns_shape _ _ _ (length ai)).
    - apply shape_replicate.
    - apply Forall_forall. intros b _. apply Hvec. }
  assert (Hsc : length (m_cnt_tp m) = length ts).
  { unfold m, class_loop. rewrite Hcnt. apply (fold_columns_shape _ _ _ (length ai)).
    - apply shape_replicate.
    - apply Forall_forall. intros b _. apply Hvec. }
  destruct (lookup_lt_is_Some_2 (m_tdiff m) tidx) as [rd Hrd]; [lia|].
  destruct (lookup_lt_is_Some_2 (m_cnt_tp m) tidx) as [rc Hrc]; [lia|].
  unfold total. rewrite (list_lookup_total_correct _ _ _ Hrd).
  rewrite (list_lookup_total_correct _ _ _ Hrc).
  apply list_lookup_total_correct. rewrite list_lookup_fmap.
  rewrite lookup_zip_with, !list_lookup_fmap, Hrd, Hrc. done.
Qed.

(** C10.  After [_import_ground_truth] the keys of [activity_index] are
    the loaded labels in first-seen order, each once; their numbers are
    0, 1, ..., [cidx] - 1, [cidx] being the number of distinct labels;
    the label mapped to [c] is the one at position [c]; every loaded row
    carries the number of its label; and in the class loop of the wrapper
    column [c] of the three arrays holds what
    [compute_average_precision_detection] returns for class [c]. *)
Theorem activity_index_bijection subset database :
  let s := _import_ground_truth subset database in
  let ai := activity_index s in
  let labels := loaded_labels subset database in
  ai.*1 = reverse (remove_dups (reverse labels)) /\
  NoDup ai.*1 /\
  ai.*2 = seq 0 (cidx s) /\
  cidx s = length (remove_dups labels) /\
  (forall l c, dict_get ai l = Some c <-> ai !! c = Some (l, c)) /\
  gt_label <$> rows s = (fun l => default 0 (dict_get ai l)) <$> labels /\
  forall pred ts tidx l c,
    dict_get ai l = Some c -> tidx < length ts ->
    let m := class_loop tiou interpolated_prec_rec (rows s) pred ai ts in
    let res := class_result tiou interpolated_prec_rec (rows s) pred ts c in
    c < cidx s /\
    get2 (m_ap m) tidx c = res.1.1 !!! tidx /\
    get2 (m_tdiff m) tidx c = res.1.2 !!! tidx /\
    get2 (m_cnt_tp m) tidx c = res.2 !!! tidx.
Proof.
  intros s ai labels.
  pose proof (import_database_inv subset database (ImportState [] [] 0) []
                ltac:(done)) as Hinv.
  change (import_inv s labels) in Hinv. destruct Hinv as (Hkeys & Hvals & Hrows).
  change (activity_index s) with ai in Hkeys, Hvals, Hrows.
  clearbody ai labels s.
  assert (Hnd : NoDup ai.*1).
  { rewrite Hkeys, reverse_Permutation. apply NoDup_remove_dups. }
  assert (Hlen : cidx s = length ai).
  { apply (f_equal length) in Hvals. by rewrite length_fmap, length_seq in Hvals. }
  assert (Hpos : forall l c, (l, c) ∈ ai <-> ai !! c = Some (l, c)).
  { intros l c. split; [|by apply list_elem_of_lookup_2].
    intros [i Hi]%list_elem_of_lookup.
    assert (Hc : ai.*2 !! i = Some c) by (by rewrite list_lookup_fmap, Hi).
    rewrite Hvals in Hc. apply lookup_seq in Hc as [-> _]. done. }
  assert (Hget : forall l c, dict_get ai l = Some c <-> ai !! c = Some (l, c)).
  { intros l c. rewrite <- Hpos. split; [apply dict_get_elem|by apply dict_get_NoDup]. }
  assert (Hcount : cidx s = length (remove_dups labels)).
  { rewrite Hlen. rewrite <- (length_fmap fst ai). rewrite Hkeys.
    rewrite length_reverse.
    apply Permutation_length, NoDup_Permutation; try apply NoDup_remove_dups.
    intros x. by rewrite !elem_of_remove_dups, elem_of_reverse. }
  split; [exact Hkeys|]. split; [exact Hnd|]. split; [exact Hvals|].
  split; [exact Hcount|]. split; [exact Hget|]. split; [exact Hrows|].
  intros pred ts tidx l c Hl Htidx m res.
  apply Hget in Hl. split.
  { apply lookup_lt_Some in Hl. by rewrite Hlen. }
  eapply class_loop_columns; [| |by apply Hpos|done].
  - rewrite Hvals. apply NoDup_seq.
  - apply Forall_forall. intros [l' c'] Hin. cbn.
    apply Hpos in Hin. by apply lookup_lt_Some in Hin.
Qed.

End WrapperFacts.

Local Open Scope Z_scope.

Section Reported.
Context {np_argsort : ArgSort} {np_sorts : Sorts}.
Variable tiou : float * float -> float * float -> float.
Variable interpolated_prec_rec : list float -> list float -> float.
Variable np_sum : list float -> float.

(** C3, amended.  For a class with ground truth and predictions, the
    count returned for threshold [tidx] is the number of true positives,
    and the latency returned is the running sum of the stored latencies
    (0 for every false positive), reported as 0 when it is not finite or
    when there is no true positive: a sum, not a mean.  The division is
    done by [wrapper_compute_average_precision], once per threshold, on
    the sums and the counts of all classes. *)
Theorem latency_sum_reported gt pred ts tidx :
  gt <> [] -> pred <> [] -> (tidx < length ts)%nat ->
  let res := compute_average_precision_detection tiou interpolated_prec_rec
               gt pred ts in
  let st := matching tiou gt pred ts in
  let count := fold_left Z.add (tp st !!! tidx) 0 in
  res.2 !!! tidx = count /\
  res.1.2 !!! tidx
  = (if count =? 0 then 0%float
     else nan_to_num (fsum (timediff st !!! tidx))) /\
  (forall i, (i < length pred)%nat -> get2 (tp st) tidx i = 0 ->
     get2 (timediff st) tidx i = 0%float) /\
  (forall all_gt all_pred (ai : dict),
     let m := class_loop tiou interpolated_prec_rec all_gt all_pred ai ts in
     let total := fold_left Z.add (m_cnt_tp m !!! tidx) 0 in
     (wrapper_compute_average_precision tiou interpolated_prec_rec np_sum
        all_gt all_pred ai ts).2 !!! tidx
     = nan_to_num (if 0 <? total
                   then (np_sum (m_tdiff m !!! tidx) / to_float total)%float
                   else 0%float)).
Proof.
  intros Hgt Hpred Htidx res st count.
  destruct (latency_cells tiou interpolated_prec_rec gt pred ts tidx Hgt Hpred Htidx)
    as (H1 & H2 & H3).
  repeat split; try done.
  intros all_gt all_pred ai. by apply wrapper_final_tdiff.
Qed.

End Reported.

End WrapperFacts.

(** ** The decoder and the online refiner *)
Module OnlineFacts.
Import Np Main MatcherFacts.
Local Open Scope nat_scope.

Lemma imap_pair_fst {A} (l : list A) k :
  (imap (fun i x => (k + i, x)) l).*1 = seq k (length l).
Proof.
  revert k. induction l as [|x l IH]; intros k; [done|].
  cbn. rewrite Nat.add_0_r. f_equal. rewrite <- IH. f_equal.
  apply imap_ext. intros i y _. cbn. f_equal. lia.
Qed.

Section DecoderFacts.
Context {F : Type} `{FloatOps F}.
Variable label_name : list string.

Lemma argwhere_gt_spec (row : list F) thr :
  NoDup (argwhere_gt row thr) /\
  forall c, c ∈ argwhere_gt row thr <->
            c < length row - 1 /\ f_gt (row !!! c) thr = true.
Proof.
  unfold argwhere_gt. split.
  - eapply sublist_NoDup; [|apply fmap_sublist, sublist_filter].
    rewrite (imap_pair_fst _ 0). apply NoDup_seq.
  - intros c. rewrite list_elem_of_fmap. setoid_rewrite list_elem_of_filter.
    rewrite removelast_firstn_len. split.
    + intros ([c' x] & -> & Hgt & Hin). cbn in *.
      apply list_elem_of_lookup in Hin as [i Hi]. rewrite list_lookup_imap in Hi.
      destruct (take _ row !! i) as [y|] eqn:E; [|done]. cbn in Hi.
      injection Hi as <- <-. apply lookup_take_Some in E as [E Hlt].
      split; [lia|]. by rewrite (list_lookup_total_correct _ _ _ E).
    + intros [Hc Hgt]. exists (c, row !!! c). split; [done|]. split; [done|].
      apply list_elem_of_lookup. exists c. rewrite list_lookup_imap.
      rewrite lookup_take_lt by lia.
      by rewrite list_lookup_lookup_total_lt by lia.
Qed.

Lemma emit_spec idx f2t st ed cls_row cls : forall acc,
  emit label_name idx f2t st ed cls_row cls acc
  = acc ++ map (fun c =>
      Proposal (f_div (f_mul st f2t) (f_of_nat 100),
                f_div (f_mul ed f2t) (f_of_nat 100))
               (cls_row !!! c) (label_name !!! c)
               (f_div (f_mul (f_of_nat idx) f2t) (f_of_nat 100))) cls.
Proof.
  induction cls as [|c cls IH]; intros acc; cbn.
  - by rewrite app_nil_r.
  - rewrite IH. by rewrite <- app_assoc.
Qed.

Lemma decode_anchor_spec opt idx f2t cls_anc reg_anc acc anc_idx anchor :
  decode_anchor label_name opt idx f2t cls_anc reg_anc acc anc_idx anchor
  = acc ++ map (candidate label_name idx f2t anchor (cls_anc !!! anc_idx)
                          (reg_anc !!! anc_idx))
               (argwhere_gt (cls_anc !!! anc_idx) (threshold opt)).
Proof.
  unfold decode_anchor.
  destruct (argwhere_gt _ _) as [|c cls] eqn:E; cbn [length Nat.eqb].
  - by rewrite app_nil_r.
  - by rewrite emit_spec.
Qed.

Lemma decode_loop_spec opt idx f2t cls_anc reg_anc ancs : forall i acc,
  for_from (decode_anchor label_name opt idx f2t cls_anc reg_anc) i ancs acc
  = acc ++ concat (imap (fun j anchor =>
        map (candidate label_name idx f2t anchor (cls_anc !!! (i + j))
                       (reg_anc !!! (i + j)))
            (argwhere_gt (cls_anc !!! (i + j)) (threshold opt))) ancs).
Proof.
  induction ancs as [|a ancs IH]; intros i acc; cbn.
  - by rewrite app_nil_r.
  - rewrite IH, decode_anchor_spec, Nat.add_0_r, <- app_assoc. do 3 f_equal.
    apply imap_ext. intros j y _. cbn. by rewrite Nat.add_succ_r.
Qed.

(** C7.  The candidates decoded for one frame are, anchor after anchor,
    one candidate for each class but the last whose score is strictly
    above the threshold, none when there is none; the candidate has
    end = frame + A * regression[0], length = A * exp(regression[1]),
    start = end - length, both ends and the generation time multiplied by
    [frame_to_time] and divided by 100, and the score of its class. *)
Theorem decoder_candidates opt idx f2t cls_anc reg_anc :
  decode_frame label_name opt idx f2t cls_anc reg_anc
  = concat (imap (fun anc_idx anchor =>
        map (candidate label_name idx f2t anchor (cls_anc !!! anc_idx)
                       (reg_anc !!! anc_idx))
            (argwhere_gt (cls_anc !!! anc_idx) (threshold opt)))
      (anchors opt)) /\
  (forall (row : list F),
     NoDup (argwhere_gt row (threshold opt)) /\
     forall c, c ∈ argwhere_gt row (threshold opt) <->
               c < length row - 1 /\ f_gt (row !!! c) (threshold opt) = true) /\
  (forall anchor (row : list F) (reg : F * F) c,
     let ed := f_add (f_of_nat idx) (f_mul anchor reg.1) in
     let length := f_mul anchor (f_exp reg.2) in
     let st := f_sub ed length in
     let scale x := f_div (f_mul x f2t) (f_of_nat 100) in
     let p := candidate label_name idx f2t anchor row reg c in
     segment p = (scale st, scale ed) /\ score p = row !!! c /\
     label p = label_name !!! c /\ gentime p = scale (f_of_nat idx)).
Proof.
  split; [|split; [intros row; apply argwhere_gt_spec|done]].
  unfold decode_frame, for_enumerate. by rewrite decode_loop_spec.
Qed.


(** *** The accept loop *)
Local Abbreviation proposal := (@proposal F).
Variable non_max_suppression : list proposal -> F -> list proposal.
Variable Overlap : Type.
Variable check_overlap_proposal :
  list proposal -> proposal -> F -> option Overlap.
Variable suppress_net : list (list F) -> list F.

Local Abbreviation visit := (visit label_name Overlap check_overlap_proposal).
Local Abbreviation accept_one := (accept_one Overlap check_overlap_proposal).
Local Abbreviation accept_class := (accept_class label_name Overlap check_overlap_proposal).
Local Abbreviation accept_classes :=
  (accept_classes label_name Overlap check_overlap_proposal).
Local Abbreviation refine_frame :=
  (refine_frame label_name non_max_suppression Overlap check_overlap_proposal
                suppress_net).
Local Abbreviation video_after :=
  (video_after label_name non_max_suppression Overlap check_overlap_proposal
               suppress_net).
Local Abbreviation eval_map_supnet :=
  (eval_map_supnet label_name non_max_suppression Overlap
                   check_overlap_proposal suppress_net).

Lemma accept_class_visits opt conf cls pool : forall acc,
  f_gt (conf !!! cls) (sup_threshold opt) = true ->
  accept_class opt cls pool acc
  = fold_left (visit opt conf) (map (pair cls) pool) acc.
Proof.
  induction pool as [|p pool IH]; intros acc Hgate; cbn; [done|].
  rewrite IH by done. f_equal. unfold Main.visit. cbn. by rewrite Hgate.
Qed.

Lemma closed_gate_visits opt conf cls pool : forall acc,
  f_gt (conf !!! cls) (sup_threshold opt) = false ->
  fold_left (visit opt conf) (map (pair cls) pool) acc = acc.
Proof.
  induction pool as [|p pool IH]; intros acc Hgate; cbn; [done|].
  unfold Main.visit at 2. cbn. rewrite Hgate. cbn. by apply IH.
Qed.

Lemma accept_classes_visits opt conf pool classes : forall acc,
  accept_classes opt conf pool classes acc
  = fold_left (visit opt conf)
      (flat_map (fun cls => map (pair cls) pool) classes) acc.
Proof.
  induction classes as [|cls classes IH]; intros acc; cbn; [done|].
  rewrite fold_left_app, IH. f_equal.
  destruct (f_gt (conf !!! cls) (sup_threshold opt)) eqn:Hgate.
  - by apply accept_class_visits.
  - by rewrite closed_gate_visits.
Qed.




Lemma video_after_S opt d name acc k :
  video_after opt d name acc (S k)
  = refine_frame opt
      (f_div (f_mul (f_of_nat 100) (video_time d name))
             (f_of_nat (video_len d name)))
      (output_cls d name) (output_reg d name)
      (video_after opt d name acc k) k.
Proof. unfold Main.video_after. by rewrite seq_S, fold_left_app. Qed.


Lemma eval_map_supnet_fold opt d names : forall res,
  fold_left (Main.refine_video label_name non_max_suppression Overlap
               check_overlap_proposal suppress_net opt d) names (res, [])
  = (res ++ map (fun name =>
        (name, proposal_dict (video_after opt d name [] (video_len d name))))
      names, []).
Proof.
  induction names as [|name names IH]; intros res; cbn.
  - by rewrite app_nil_r.
  - unfold Main.refine_video at 2. cbn. rewrite IH. by rewrite <- app_assoc.
Qed.


End DecoderFacts.

End OnlineFacts.

(** ** The statements on the sample data *)
Module OnSample.
Import Np Evaluation Order Rows Stated.
Import SortFacts MatcherFacts WrapperFacts OnlineFacts.

(** The sample data is sorted by insertion. *)
#[local] Existing Instance Sample.insertion_argsort.
#[local] Existing Instance insertion_sorts.

Lemma lock_table_discipline_witness :
  (0 < length [0.5%float])%nat /\ (0 < length Sample.gt_v)%nat /\
  forall k1 k2,
    claims Sample.temporal_iou Sample.gt_v Sample.pred_v [0.5%float] 0 0 k1 ->
    claims Sample.temporal_iou Sample.gt_v Sample.pred_v [0.5%float] 0 0 k2 ->
    k1 = k2.
Proof.
  split; [cbn; lia|]. split; [cbn; lia|].
  destruct (lock_table_discipline Sample.temporal_iou Sample.gt_v Sample.pred_v
              [0.5%float] 0 0) as (_ & _ & Hone & _); [cbn; lia|cbn; lia|].
  exact Hone.
Defined.


Lemma latency_sum_reported_witness :
  Sample.gt_v <> [] /\ Sample.pred_v <> [] /\ (0 < length [0.5%float])%nat /\
  (compute_average_precision_detection Sample.temporal_iou Sample.no_ap
     Sample.gt_v Sample.pred_v [0.5%float]).2 !!! 0%nat
  = fold_left Z.add
      (tp (matching Sample.temporal_iou Sample.gt_v Sample.pred_v
             [0.5%float]) !!! 0%nat) 0.
Proof.
  assert (H1 : Sample.gt_v <> []) by discriminate.
  assert (H2 : Sample.pred_v <> []) by discriminate.
  assert (H3 : (0 < length [0.5%float])%nat) by (cbn; lia).
  split; [exact H1|]. split; [exact H2|]. split; [exact H3|].
  destruct (latency_sum_reported Sample.temporal_iou Sample.no_ap
              Sample.left_sum Sample.gt_v Sample.pred_v [0.5%float] 0 H1 H2 H3)
    as (Hcount & _).
  exact Hcount.
Defined.

Lemma cumulative_counts_witness :
  (0 < length [0.5%float])%nat /\ (1 < length Sample.pred_v)%nat /\
  let st := matching Sample.temporal_iou Sample.gt_v Sample.pred_v
              [0.5%float] in
  this_tp st 0 !!! 1%nat + this_fp st 0 !!! 1%nat = 2.
Proof.
  assert (H1 : (0 < length [0.5%float])%nat) by (cbn; lia).
  assert (H2 : (1 < length Sample.pred_v)%nat) by (cbn; lia).
  split; [exact H1|]. split; [exact H2|].
  destruct (cumulative_counts Sample.temporal_iou Sample.gt_v Sample.pred_v
              [0.5%float] 0 1 H1 H2) as [Hsum _].
  exact Hsum.
Defined.

Lemma empty_class_zero_vectors_witness :
  ([] = @nil gt_row \/ Sample.pred_v = []) /\
  compute_average_precision_detection Sample.temporal_iou Sample.no_ap
    [] Sample.pred_v [0.5%float; 0.75%float]
  = ([0%float; 0%float], [0%float; 0%float], [0; 0]).
Proof.
  assert (H1 : [] = @nil gt_row \/ Sample.pred_v = []) by (left; reflexivity).
  split; [exact H1|].
  exact (empty_class_zero_vectors Sample.temporal_iou Sample.no_ap []
           Sample.pred_v [0.5%float; 0.75%float] H1).
Defined.

Lemma absent_video_false_positive_witness :
  let p := PredRow "w" 0 1 0 0.875 2 in
  let st := matching Sample.temporal_iou Sample.gt_v Sample.pred_v
              [0.5%float] in
  sort_by_score Sample.pred_v !! 0%nat = Some p /\
  get_group Sample.gt_v (pr_video p) = None /\
  (0 < length [0.5%float])%nat /\
  get2 (fp st) 0 0 = 1 /\ get2 (tp st) 0 0 = 0.
Proof.
  intros p st.
  assert (H1 : sort_by_score Sample.pred_v !! 0%nat = Some p)
    by (vm_compute; reflexivity).
  assert (H2 : get_group Sample.gt_v (pr_video p) = None)
    by (vm_compute; reflexivity).
  assert (H3 : (0 < length [0.5%float])%nat) by (cbn; lia).
  split; [exact H1|]. split; [exact H2|]. split; [exact H3|].
  destruct (absent_video_false_positive Sample.temporal_iou Sample.gt_v
              Sample.pred_v [0.5%float] 0 p 0 H1 H2 H3) as (_ & Hf & Ht & _).
  split; [exact Hf|exact Ht].
Defined.

Lemma sort_by_score_order_witness :
  @Sorts Sample.insertion_argsort /\
  (0 < 2)%nat /\
  sort_by_score Sample.pred_v !! 0%nat
  = Some (PredRow "w" 0 1 0 0.875 2) /\
  sort_by_score Sample.pred_v !! 2%nat
  = Some (PredRow "v" 2 3 0 0.5 6) /\
  (0.875 <? 0.5)%float = false.
Proof.
  assert (H0 : @Sorts Sample.insertion_argsort) by exact insertion_sorts.
  assert (H1 : (0 < 2)%nat) by lia.
  assert (H2 : sort_by_score Sample.pred_v !! 0%nat
               = Some (PredRow "w" 0 1 0 0.875 2)) by (vm_compute; reflexivity).
  assert (H3 : sort_by_score Sample.pred_v !! 2%nat
               = Some (PredRow "v" 2 3 0 0.5 6)) by (vm_compute; reflexivity).
  split; [exact H0|]. split; [exact H1|]. split; [exact H2|].
  split; [exact H3|].
  destruct (@sort_by_score_order Sample.insertion_argsort H0 Sample.pred_v)
    as (_ & Hdesc & _).
  exact (Hdesc 0%nat 2%nat _ _ H1 H2 H3).
Defined.

Lemma activity_index_bijection_witness :
  let s := _import_ground_truth "validation" Sample.database in
  dict_get (activity_index s) "jump" = Some 1%nat /\
  (0 < length [0.5%float])%nat /\ (1 < cidx s)%nat.
Proof.
  intros s.
  assert (H1 : dict_get (activity_index s) "jump" = Some 1%nat)
    by (vm_compute; reflexivity).
  assert (H2 : (0 < length [0.5%float])%nat) by (cbn; lia).
  split; [exact H1|]. split; [exact H2|].
  destruct (activity_index_bijection Sample.temporal_iou Sample.no_ap
              "validation" Sample.database) as (_ & _ & _ & _ & _ & _ & Hcols).
  destruct (Hcols [] [0.5%float] 0%nat "jump" 1%nat H1 H2) as [Hlt _].
  exact Hlt.
Defined.

(** ** Where the specification and the code part *)

Lemma mean_latency_refuted :
  ~ reports_mean_latency Sample.temporal_iou Sample.no_ap Sample.gt_v
      Sample.pred_v [0.5%float] 0.
Proof.
  unfold reports_mean_latency. intros Hmean.
  apply (f_equal (fun x => (x =? 4)%float)) in Hmean.
  vm_compute in Hmean. discriminate.
Qed.

(** Two rows of equal score, sorted as numpy sorts them (two equal keys
    come back in index order, and the frame is read backwards): the rows
    come out reversed, not in the input order the specification asks
    for. *)
Lemma stable_sort_refuted :
  ~ @keeps_input_order Sample.insertion_argsort [Sample.tie_a; Sample.tie_b].
Proof.
  intros Hstable.
  destruct (Hstable 0%nat 1%nat Sample.tie_a Sample.tie_b)
    as (i' & j' & Hlt & Ha & Hb);
    [lia|reflexivity|reflexivity|vm_compute; reflexivity|].
  vm_compute in Ha, Hb.
  destruct i' as [|[|i']]; try discriminate Ha.
  destruct j' as [|[|j']]; try discriminate Hb; lia.
Qed.


End OnSample.

(** * Further properties *)

(** ** The ledger of the matcher: locks, true positives, latencies *)
Module MatcherMore.
Import Np Evaluation Order Rows Stated Ledger SortFacts MatcherFacts.
Local Open Scope Z_scope.

Lemma fold_left_sumZ l : forall a, fold_left Z.add l a = a + sumZ l.
Proof.
  unfold sumZ. induction l as [|x l IH]; intros a; cbn; [lia|]. rewrite IH. lia.
Qed.

Lemma sumZ_insert l : forall i x y,
  l !! i = Some y -> sumZ (<[i := x]> l) = sumZ l - y + x.
Proof.
  unfold sumZ. induction l as [|z l IH]; intros i x y Hi; [done|].
  destruct i as [|i].
  - injection Hi as ->. change (<[0%nat:=x]> (y :: l)) with (x :: l).
    cbn [foldr]. lia.
  - change (<[S i:=x]> (z :: l)) with (z :: <[i:=x]> l).
    change ((z :: l) !! S i) with (l !! i) in Hi.
    cbn [foldr]. rewrite (IH i x y Hi). lia.
Qed.

Lemma sumZ_bits l :
  Forall (fun x => x = 0 \/ x = 1) l -> 0 <= sumZ l <= Z.of_nat (length l).
Proof.
  unfold sumZ. induction 1 as [|x l Hx _ IH]; cbn [foldr length]; [lia|]. lia.
Qed.

Lemma locked_cells_le l : (locked_cells l <= length l)%nat.
Proof. unfold locked_cells. apply length_filter. Qed.

Lemma locked_cells_insert l : forall g v k,
  l !! g = Some v -> v < 0 -> 0 <= k ->
  locked_cells (<[g := k]> l) = S (locked_cells l).
Proof.
  unfold locked_cells.
  induction l as [|z l IH]; intros g v k Hg Hv Hk; [done|].
  destruct g as [|g].
  - injection Hg as ->. change (<[0%nat:=k]> (v :: l)) with (k :: l).
    rewrite !filter_cons.
    rewrite (decide_True (P := 0 <= k)) by done.
    rewrite (decide_False (P := 0 <= v)) by lia. done.
  - change (<[S g:=k]> (z :: l)) with (z :: <[g:=k]> l).
    change ((z :: l) !! S g) with (l !! g) in Hg.
    rewrite !filter_cons. destruct (decide (0 <= z)); cbn [length];
      by rewrite (IH g v k Hg Hv Hk).
Qed.




Section LedgerFacts.
Context {np_argsort : ArgSort} {np_sorts : Sorts}.
Variable tiou : float * float -> float * float -> float.
Variable interpolated_prec_rec : list float -> list float -> float.

(** The candidate a walk ends on: an instance of the video of the
    prediction, unlocked, with a tIoU that is not below the threshold. *)
Lemma matched_candidate gt p this_gt thr lock_row jdx :
  get_group gt (pr_video p) = Some this_gt ->
  first_hit thr (tiou_arr tiou p this_gt) lock_row this_gt
            (tiou_sorted_idx tiou p this_gt) = Matched jdx ->
  exists g gr,
    this_gt !! jdx = Some (g, gr) /\ gt !! g = Some gr /\
    gt_video gr = pr_video p /\
    (tiou (pr_start p, pr_end p) (gt_start gr, gt_end gr) <? thr)%float
    = false /\
    lock_row !!! g < 0 /\
    latency (gentime_pred p) (gentime_gt_arr this_gt) jdx
    = matched_latency p gr.
Proof.
  intros Hgroup Hhit. apply first_hit_Matched in Hhit as (Hin & Hnb & Hun).
  unfold tiou_sorted_idx in Hin. apply desc_lt in Hin.
  unfold tiou_arr at 1, segment_iou in Hin. rewrite !length_map in Hin.
  destruct (lookup_lt_is_Some_2 this_gt jdx Hin) as [[g gr] Hgr].
  destruct (get_group_lookup _ _ _ _ _ _ Hgroup Hgr) as [Hg Hvid].
  rewrite (list_lookup_total_correct _ _ _ Hgr) in Hun. cbn [fst] in Hun.
  assert (Hta : tiou_arr tiou p this_gt !!! jdx
                = tiou (pr_start p, pr_end p) (gt_start gr, gt_end gr)).
  { apply list_lookup_total_correct. unfold tiou_arr, segment_iou.
    rewrite !list_lookup_fmap, Hgr. done. }
  assert (Hend : gentime_gt_arr this_gt !!! jdx = nan_to_num (gt_end gr)).
  { apply list_lookup_total_correct. unfold gentime_gt_arr.
    rewrite list_lookup_fmap, Hgr. done. }
  exists g, gr. repeat split; try done.
  - by rewrite <- Hta.
  - apply Z.leb_gt in Hun. lia.
  - unfold latency, matched_latency, finite_or_zero. rewrite Hend.
    reflexivity.
Qed.

Lemma match_inv_init gt sorted thr ngt npred :
  match_inv tiou gt sorted thr
    (Row (replicate ngt (-1)) (replicate npred 0) (replicate npred 0)
         (replicate npred 0%float)).
Proof.
  split; cbn [r_lock r_tp r_fp r_timediff].
  - unfold locked_cells.
    assert (Hs : sumZ (replicate npred 0) = 0).
    { unfold sumZ. induction npred as [|n IH]; cbn; lia. }
    assert (Hf : filter (fun v => 0 <= v) (replicate ngt (-1)) = []).
    { induction ngt as [|n IH]; [done|]. cbn [replicate].
      rewrite filter_cons, decide_False by lia. done. }
    by rewrite Hs, Hf.
  - intros g v [-> _]%lookup_replicate Hv. lia.
  - intros g1 g2 v [-> _]%lookup_replicate _ Hv. lia.
  - intros k [? _]%lookup_replicate. done.
Qed.

Lemma prediction_row_match_inv gt pred thr k r p :
  row_inv (length gt) (length pred) k r ->
  match_inv tiou gt (sort_by_score pred) thr r ->
  sort_by_score pred !! k = Some p ->
  match_inv tiou gt (sort_by_score pred) thr
            (prediction_row tiou gt thr r k p).
Proof.
  intros Hinv [Hcount Hpair Hinj Hholder] Hp.
  assert (Hk : (k < length pred)%nat).
  { apply lookup_lt_Some in Hp. by rewrite sort_by_score_length in Hp. }
  destruct (inv_fresh _ _ _ _ Hinv k ltac:(lia)) as (Htk & Hfk & Hdk).
  assert (Hsame : match_inv tiou gt (sort_by_score pred) thr
            (Row (r_lock r) (r_tp r) (<[k := 1]> (r_fp r)) (r_timediff r)))
    by (by split).
  unfold prediction_row.
  destruct (get_group gt (pr_video p)) as [this_gt|] eqn:Hgroup; [|done].
  unfold threshold_row.
  destruct (first_hit _ _ _ _ _) as [|jdx|] eqn:Hhit; [done| |done].
  destruct (matched_candidate gt p this_gt thr (r_lock r) jdx Hgroup Hhit)
    as (g & gr & Hgr & Hg & Hvid & Hnb & Hun & Hlat).
  rewrite (list_lookup_total_correct _ _ _ Hgr). cbn [fst]. rewrite Hlat.
  assert (Hglen : (g < length (r_lock r))%nat).
  { rewrite (inv_lock_len _ _ _ _ Hinv). by eapply lookup_lt_Some. }
  destruct (lookup_lt_is_Some_2 _ _ Hglen) as [v0 Hv0].
  rewrite (list_lookup_total_correct _ _ _ Hv0) in Hun.
  assert (Hold : forall g' v, r_lock r !! g' = Some v -> 0 <= v ->
            Z.to_nat v <> k).
  { intros g' v Hg' Hv.
    destruct (inv_lock _ _ _ _ Hinv g' v Hg') as [?|?]; lia. }
  split; cbn [r_lock r_tp r_fp r_timediff].
  - rewrite (sumZ_insert _ _ _ _ Htk).
    rewrite (locked_cells_insert _ _ _ _ Hv0 Hun) by lia. lia.
  - intros g' v Hg' Hv.
    apply list_lookup_insert_Some in Hg' as [(<- & <- & _)|[Hne Hg']].
    + rewrite Nat2Z.id. exists p, gr.
      rewrite !list_lookup_insert_eq
        by (rewrite ?(inv_tp_len _ _ _ _ Hinv), ?(inv_td_len _ _ _ _ Hinv); lia).
      done.
    + destruct (Hpair g' v Hg' Hv) as (p' & gr' & ? & ? & ? & ? & ? & ?).
      exists p', gr'. rewrite !list_lookup_insert_ne by (by eapply not_eq_sym, Hold).
      done.
  - intros g1 g2 v H1 H2 Hv.
    apply list_lookup_insert_Some in H1 as [(<- & <- & _)|[Hne1 H1]];
      apply list_lookup_insert_Some in H2 as [(<- & E2 & _)|[Hne2 H2]];
      try done.
    + exfalso. apply (Hold g2 _ H2); [lia|]. by rewrite Nat2Z.id.
    + exfalso. subst v. apply (Hold g1 _ H1); [lia|]. by rewrite Nat2Z.id.
    + by eapply Hinj.
  - intros k' Hk'. destruct (decide (k' = k)) as [->|Hne].
    + exists g. by apply list_lookup_insert_eq.
    + rewrite list_lookup_insert_ne in Hk' by done.
      destruct (Hholder k' Hk') as [g' Hg']. exists g'.
      rewrite list_lookup_insert_ne; [done|]. intros <-.
      rewrite Hv0 in Hg'. injection Hg' as ->. lia.
Qed.

Lemma row_after_match_inv gt pred thr k :
  (k <= length pred)%nat ->
  match_inv tiou gt (sort_by_score pred) thr (row_after tiou gt pred thr k).
Proof.
  induction k as [|k IH]; intros Hk.
  - apply match_inv_init.
  - destruct (lookup_lt_is_Some_2 (sort_by_score pred) k) as [p Hp].
    { rewrite sort_by_score_length. lia. }
    rewrite (row_after_S _ _ _ _ _ _ Hp).
    apply prediction_row_match_inv; [apply row_after_inv; lia|apply IH; lia|done].
Qed.

End LedgerFacts.

Section MatchedPairs.
Context {np_argsort : ArgSort} {np_sorts : Sorts}.
Variable tiou : float * float -> float * float -> float.
Variable interpolated_prec_rec : list float -> list float -> float.

(** X1.  The number of true positives returned for a threshold is never
    negative, never above the number of ground-truth instances of the
    class and never above the number of its predictions. *)
Theorem true_positives_bounded gt pred ts tidx :
  (tidx < length ts)%nat ->
  let count := (compute_average_precision_detection tiou
                  interpolated_prec_rec gt pred ts).2 !!! tidx in
  0 <= count /\ count <= Z.of_nat (length gt) /\
  count <= Z.of_nat (length pred).
Proof.
  intros Htidx count.
  destruct (decide (gt = [])) as [->|Hgt].
  { unfold count, compute_average_precision_detection. cbn [length Nat.eqb].
    rewrite orb_true_r. cbn [snd]. rewrite lookup_total_replicate_2 by done. lia. }
  destruct (decide (pred = [])) as [->|Hpred].
  { unfold count, compute_average_precision_detection. cbn [length Nat.eqb orb snd].
    rewrite lookup_total_replicate_2 by done. lia. }
  destruct (latency_cells tiou interpolated_prec_rec gt pred ts tidx Hgt Hpred Htidx)
    as (Hcount & _). fold count in Hcount. rewrite Hcount.
  destruct (lookup_lt_is_Some_2 ts tidx Htidx) as [thr Hthr].
  destruct (matching_row tiou gt pred ts tidx thr Hthr) as [Hrow Hinv].
  unfold row_of in Hrow.
  set (r := row_after tiou gt pred thr (length pred)) in *.
  assert (Htp : tp (matching tiou gt pred ts) !!! tidx = r_tp r) by (by rewrite <- Hrow).
  rewrite Htp, fold_left_sumZ.
  pose proof (mi_count _ _ _ _ _ (row_after_match_inv tiou gt pred thr (length pred)
                ltac:(lia))) as Hc. fold r in Hc.
  pose proof (locked_cells_le (r_lock r)) as Hle.
  rewrite (inv_lock_len _ _ _ _ Hinv) in Hle.
  assert (Hbits : Forall (fun x => x = 0 \/ x = 1) (r_tp r)).
  { apply Forall_forall. intros x [i Hi]%list_elem_of_lookup.
    assert (Hlt : (i < length pred)%nat).
    { apply lookup_lt_Some in Hi. by rewrite (inv_tp_len _ _ _ _ Hinv) in Hi. }
    destruct (inv_done _ _ _ _ Hinv i Hlt Hlt) as [[H1 _]|[H0 _]];
      rewrite Hi in *; [right|left]; congruence. }
  apply sumZ_bits in Hbits. rewrite (inv_tp_len _ _ _ _ Hinv) in Hbits. lia.
Qed.

(** X2.  When the matching loop ends, a cell of the lock table that
    holds the number [k] names a prediction of the same video as its
    ground-truth instance whose tIoU with it is not below the threshold;
    that prediction is a true positive and not a false positive at this
    threshold, its stored latency is its sanitized generation time minus
    the sanitized end of that instance (0 when not finite), and no other
    cell of the row holds [k]: a prediction is matched to one instance. *)
Theorem locked_pair_matches gt pred ts tidx g k :
  (tidx < length ts)%nat -> (g < length gt)%nat ->
  let st := matching tiou gt pred ts in
  get2 (lock_gt st) tidx g = Z.of_nat k ->
  exists p gr,
    sort_by_score pred !! k = Some p /\ gt !! g = Some gr /\
    gt_video gr = pr_video p /\
    (tiou (pr_start p, pr_end p) (gt_start gr, gt_end gr)
       <? ts !!! tidx)%float = false /\
    get2 (tp st) tidx k = 1 /\ get2 (fp st) tidx k = 0 /\
    get2 (timediff st) tidx k = matched_latency p gr /\
    forall g', (g' < length gt)%nat ->
      get2 (lock_gt st) tidx g' = Z.of_nat k -> g' = g.
Proof.
  intros Htidx Hg st Hlock.
  destruct (lookup_lt_is_Some_2 ts tidx Htidx) as [thr Hthr].
  rewrite (list_lookup_total_correct _ _ _ Hthr).
  destruct (matching_row tiou gt pred ts tidx thr Hthr) as [Hrow Hinv].
  fold st in Hrow. unfold row_of in Hrow.
  pose proof (row_after_match_inv tiou gt pred thr (length pred) ltac:(lia)) as Hm.
  set (r := row_after tiou gt pred thr (length pred)) in *.
  assert (Hl : lock_gt st !!! tidx = r_lock r) by (by rewrite <- Hrow).
  assert (Ht : tp st !!! tidx = r_tp r) by (by rewrite <- Hrow).
  assert (Hf : fp st !!! tidx = r_fp r) by (by rewrite <- Hrow).
  assert (Hd : timediff st !!! tidx = r_timediff r) by (by rewrite <- Hrow).
  assert (Hcell : forall g', (g' < length gt)%nat ->
            r_lock r !! g' = Some (get2 (lock_gt st) tidx g')).
  { intros g' Hg'. unfold get2. rewrite Hl. apply list_lookup_lookup_total_lt.
    by rewrite (inv_lock_len _ _ _ _ Hinv). }
  pose proof (Hcell g Hg) as Hgv. rewrite Hlock in Hgv.
  destruct (mi_pair _ _ _ _ _ Hm g _ Hgv ltac:(lia))
    as (p & gr & Hp & Hgr & Hvid & Hnb & Htp & Htd).
  rewrite Nat2Z.id in Hp, Htp, Htd.
  assert (Hk : (k < length pred)%nat).
  { apply lookup_lt_Some in Hp. by rewrite sort_by_score_length in Hp. }
  exists p, gr. repeat split; try done.
  - eapply get2_row; [exact Ht|exact Htp].
  - destruct (inv_done _ _ _ _ Hinv k Hk Hk) as [[_ H0]|[H0 _]].
    + eapply get2_row; [exact Hf|exact H0].
    + congruence.
  - eapply get2_row; [exact Hd|exact Htd].
  - intros g' Hg' Hlock'. pose proof (Hcell g' Hg') as Hgv'. rewrite Hlock' in Hgv'.
    eapply (mi_inj _ _ _ _ _ Hm); [exact Hgv'|exact Hgv|lia].
Qed.

(** X3.  Every true positive holds a lock: a prediction flagged as a true
    positive at a threshold has its number in a cell of that threshold's
    row of the lock table. *)
Theorem true_positive_holds_lock gt pred ts tidx k :
  (tidx < length ts)%nat -> (k < length pred)%nat ->
  let st := matching tiou gt pred ts in
  get2 (tp st) tidx k = 1 ->
  exists g, (g < length gt)%nat /\ get2 (lock_gt st) tidx g = Z.of_nat k.
Proof.
  intros Htidx Hk st Htp.
  destruct (lookup_lt_is_Some_2 ts tidx Htidx) as [thr Hthr].
  destruct (matching_row tiou gt pred ts tidx thr Hthr) as [Hrow Hinv].
  fold st in Hrow. unfold row_of in Hrow.
  pose proof (row_after_match_inv tiou gt pred thr (length pred) ltac:(lia)) as Hm.
  set (r := row_after tiou gt pred thr (length pred)) in *.
  assert (Hl : lock_gt st !!! tidx = r_lock r) by (by rewrite <- Hrow).
  assert (Ht : tp st !!! tidx = r_tp r) by (by rewrite <- Hrow).
  assert (Hcell : r_tp r !! k = Some 1).
  { rewrite <- Htp. unfold get2. rewrite Ht. apply list_lookup_lookup_total_lt.
    by rewrite (inv_tp_len _ _ _ _ Hinv). }
  destruct (mi_holder _ _ _ _ _ Hm k Hcell) as [g Hg].
  exists g. split.
  - apply lookup_lt_Some in Hg. by rewrite (inv_lock_len _ _ _ _ Hinv) in Hg.
  - eapply get2_row; [exact Hl|exact Hg].
Qed.

End MatchedPairs.


Section Availability.
Context {np_argsort : ArgSort} {np_sorts : Sorts}.
Variable tiou : float * float -> float * float -> float.


End Availability.

(** ** No NaN, no infinity *)

Lemma nan_to_num_finite x : non_finite (nan_to_num x) = false.
Proof. unfold nan_to_num. by destruct (non_finite x) eqn:E. Qed.

Lemma finite_or_zero_finite x : non_finite (finite_or_zero x) = false.
Proof.
  unfold finite_or_zero, non_finite.
  by destruct (PrimFloat.is_nan x || PrimFloat.is_infinity x) eqn:E.
Qed.

Section Finite.
Context {np_argsort : ArgSort} {np_sorts : Sorts}.
Variable tiou : float * float -> float * float -> float.
Variable interpolated_prec_rec : list float -> list float -> float.
Variable np_sum : list float -> float.

(** X5.  No NaN and no infinity leaves the evaluation as a latency: every
    cell of the latency vector of [compute_average_precision_detection],
    every cell of [final_tdiff] of the wrapper and every latency stored
    during the matching is a finite number, whatever the generation times
    and the segment ends are. *)
Theorem reported_latencies_finite gt pred (ai : dict) ts :
  let finite (x : float) :=
    (PrimFloat.is_nan x || PrimFloat.is_infinity x) = false in
  Forall finite
    (compute_average_precision_detection tiou interpolated_prec_rec
       gt pred ts).1.2 /\
  Forall finite
    (wrapper_compute_average_precision tiou interpolated_prec_rec np_sum
       gt pred ai ts).2 /\
  forall tidx idx, (tidx < length ts)%nat -> (idx < length pred)%nat ->
    finite (get2 (timediff (matching tiou gt pred ts)) tidx idx).
Proof.
  intros finite.
  change finite with (fun x => non_finite x = false). cbv beta.
  split; [|split].
  - unfold compute_average_precision_detection.
    destruct (_ || _); cbn [fst snd].
    + apply Forall_forall. intros x [-> _]%elem_of_replicate. done.
    + rewrite Forall_fmap, Forall_fmap. apply Forall_forall. intros tidx _.
      unfold compose, aggregate. cbv beta zeta. cbn [fst snd].
      match goal with |- context [if ?c then _ else _] => destruct c end;
        [done|].
      match goal with |- context [if ?c then _ else _] => destruct c eqn:E end;
        [done|exact E].
  - unfold wrapper_compute_average_precision. cbn [snd].
    rewrite Forall_fmap. apply Forall_forall. intros x _.
    unfold compose. apply nan_to_num_finite.
  - intros tidx idx Htidx Hidx.
    destruct (lookup_lt_is_Some_2 ts tidx Htidx) as [thr Hthr].
    destruct (matching_row tiou gt pred ts tidx thr Hthr) as [Hrow Hinv].
    unfold row_of in Hrow.
    pose proof (row_after_match_inv tiou gt pred thr (length pred) ltac:(lia)) as Hm.
    set (r := row_after tiou gt pred thr (length pred)) in *.
    assert (Hd : timediff (matching tiou gt pred ts) !!! tidx = r_timediff r)
      by (by rewrite <- Hrow).
    destruct (inv_done _ _ _ _ Hinv idx Hidx Hidx) as [[Htp _]|(_ & _ & Hz)].
    + destruct (mi_holder _ _ _ _ _ Hm idx Htp) as [g Hg].
      destruct (mi_pair _ _ _ _ _ Hm g _ Hg ltac:(lia))
        as (p & gr & _ & _ & _ & _ & _ & Htd).
      rewrite Nat2Z.id in Htd. rewrite (get2_row _ _ _ _ _ Hd Htd).
      unfold matched_latency. apply finite_or_zero_finite.
    + by rewrite (get2_row _ _ _ _ _ Hd Hz).
Qed.

End Finite.

End MatcherMore.

(** ** The two imports and the arrays of the wrapper *)
Module ImportMore.
Import Np Evaluation Order Stated SortFacts MatcherFacts WrapperFacts.
Local Open Scope nat_scope.

Lemma dict_mem_get (d : dict) k :
  dict_mem d k = true <-> exists c, dict_get d k = Some c.
Proof.
  unfold dict_mem. rewrite bool_decide_eq_true.
  induction d as [|[k' v] d IH]; cbn.
  - split; [by intros ?%elem_of_nil|by intros [c ?]].
  - destruct (String.eqb_spec k' k) as [->|Hne].
    + split; [by exists v|left].
    + rewrite elem_of_cons, IH. split; [intros [?|?]; [congruence|done]|by right].
Qed.

Lemma dict_get_value (d : dict) k c :
  dict_get d k = Some c -> c ∈ d.*2.
Proof.
  intros Hg%dict_get_elem. apply list_elem_of_fmap. by exists (k, c).
Qed.

(** The row an annotation is loaded as, under a given [activity_index]. *)
Local Abbreviation gt_of ai :=
  (fun it : string * annotation =>
     GtRow it.1 (ann_segment it.2).1 (ann_segment it.2).2
           (default 0 (dict_get ai (ann_label it.2)))).

Lemma import_annotation_rows videoid s items ann :
  import_inv s (map (fun it => ann_label it.2) items) ->
  rows s = map (gt_of (activity_index s)) items ->
  let s' := import_annotation videoid s ann in
  rows s' = map (gt_of (activity_index s')) (items ++ [(videoid, ann)]).
Proof.
  intros (Hkeys & _ & _) Hrows. cbn zeta.
  assert (Hall : forall it, it ∈ items ->
            ann_label it.2 ∈ (activity_index s).*1).
  { intros it Hit.
    rewrite Hkeys, elem_of_reverse, elem_of_remove_dups, elem_of_reverse.
    apply list_elem_of_fmap. by exists it. }
  unfold import_annotation, dict_mem.
  destruct (decide (ann_label ann ∈ (activity_index s).*1)) as [Hl|Hl].
  - rewrite bool_decide_true by done. cbn. by rewrite map_app, Hrows.
  - rewrite bool_decide_false by done. cbn [negb rows activity_index].
    rewrite dict_set_fresh by done. rewrite map_app, Hrows. f_equal.
    apply map_ext_in. intros it Hit%list_elem_of_In.
    by rewrite dict_get_app_l by (by apply Hall).
Qed.

Lemma import_annotations_rows videoid anns : forall s items,
  import_inv s (map (fun it => ann_label it.2) items) ->
  rows s = map (gt_of (activity_index s)) items ->
  let s' := fold_left (import_annotation videoid) anns s in
  import_inv s' (map (fun it => ann_label it.2)
                     (items ++ map (pair videoid) anns)) /\
  rows s' = map (gt_of (activity_index s')) (items ++ map (pair videoid) anns).
Proof.
  induction anns as [|ann anns IH]; intros s items Hinv Hrows; cbn.
  - by rewrite app_nil_r.
  - replace (items ++ (videoid, ann) :: map (pair videoid) anns)
      with ((items ++ [(videoid, ann)]) ++ map (pair videoid) anns)
      by (by rewrite <- app_assoc).
    apply IH.
    + rewrite map_app. by apply import_annotation_inv.
    + by apply import_annotation_rows.
Qed.

(** The (video, annotation) pairs of the loaded subset, in file order. *)
Local Abbreviation loaded subset :=
  (flat_map (fun entry : string * video =>
               if subset_in subset (v_subset entry.2)
               then map (pair entry.1) (v_annotations entry.2) else [])).

Lemma import_database_rows subset db : forall s items,
  import_inv s (map (fun it => ann_label it.2) items) ->
  rows s = map (gt_of (activity_index s)) items ->
  let s' := fold_left (import_video subset) db s in
  rows s' = map (gt_of (activity_index s')) (items ++ loaded subset db).
Proof.
  induction db as [|entry db IH]; intros s items Hinv Hrows; cbn.
  - by rewrite app_nil_r.
  - rewrite app_assoc. unfold import_video at 2 4.
    destruct (subset_in subset (v_subset entry.2)); cbn [negb].
    + destruct (import_annotations_rows entry.1 (v_annotations entry.2)
                  s items Hinv Hrows) as [Hinv' Hrows'].
      by apply IH.
    + rewrite app_nil_r. by apply IH.
Qed.

(** X6.  The ground-truth frame has one row for every annotation of every
    video of the subset, in file order; the row carries the video id, the
    two ends of the segment and the number the finished [activity_index]
    gives the label of the annotation.  Videos outside the subset give no
    row. *)
Theorem ground_truth_rows subset database :
  let s := _import_ground_truth subset database in
  rows s
  = flat_map (fun entry : string * video =>
      if subset_in subset (v_subset entry.2)
      then map (fun ann =>
                  GtRow entry.1 (ann_segment ann).1 (ann_segment ann).2
                    (default 0 (dict_get (activity_index s) (ann_label ann))))
               (v_annotations entry.2)
      else [])
    database.
Proof.
  intros s.
  pose proof (import_database_rows subset database (ImportState [] [] 0) []
                ltac:(done) ltac:(done)) as Hrows.
  cbn zeta in Hrows. change (fold_left _ _ _) with s in Hrows.
  rewrite Hrows. cbn [app]. clear Hrows. generalize (activity_index s) as ai.
  intros ai. induction database as [|entry db IH]; [done|].
  cbn [flat_map]. rewrite map_app, IH. f_equal.
  destruct (subset_in _ _); [|done]. by rewrite map_map.
Qed.

Lemma import_result_spec ai videoid acc r :
  import_result ai videoid acc r
  = acc ++ match dict_get ai (res_label r) with
           | Some c => [PredRow videoid (res_segment r).1 (res_segment r).2
                                c (res_score r) (res_gentime r)]
           | None => []
           end.
Proof.
  unfold import_result.
  destruct (dict_mem ai (res_label r)) eqn:Hm; cbn [negb].
  - apply dict_mem_get in Hm as [c Hc]. by rewrite Hc.
  - destruct (dict_get ai (res_label r)) as [c|] eqn:Hc.
    + assert (dict_mem ai (res_label r) = true)
        by (apply dict_mem_get; by exists c). congruence.
    + by rewrite app_nil_r.
Qed.

(** The rows one result list is loaded as. *)
Local Abbreviation pred_of ai videoid :=
  (omap (fun r : result =>
           (fun c => PredRow videoid (res_segment r).1 (res_segment r).2
                             c (res_score r) (res_gentime r))
           <$> dict_get ai (res_label r))).

Lemma import_results_spec ai videoid rs : forall acc,
  fold_left (import_result ai videoid) rs acc = acc ++ pred_of ai videoid rs.
Proof.
  induction rs as [|r rs IH]; intros acc; cbn [fold_left].
  - by rewrite app_nil_r.
  - rewrite IH, import_result_spec, <- app_assoc. f_equal.
    unfold omap. cbn [list_omap].
    destruct (dict_get ai (res_label r)); reflexivity.
Qed.

Lemma import_prediction_fold blocked ai results : forall acc,
  fold_left (import_results_video blocked ai) results acc
  = acc ++ flat_map (fun entry : string * list result =>
                       if bool_decide (entry.1 ∈ blocked) then []
                       else pred_of ai entry.1 entry.2) results.
Proof.
  induction results as [|entry results IH]; intros acc; cbn [fold_left flat_map].
  - by rewrite app_nil_r.
  - rewrite IH. unfold import_results_video.
    destruct (bool_decide _).
    + done.
    + by rewrite import_results_spec, <- app_assoc.
Qed.

(** X7.  The prediction frame has one row for every result whose label is
    a key of [activity_index], of every video that is not blocked, in file
    order; the row carries the video id, the segment, the score and the
    generation time of the result and the number of its label.  Results
    of blocked videos and results with unknown labels are dropped, and
    nothing else is. *)
Theorem prediction_rows blocked_videos (ai : dict) results :
  _import_prediction blocked_videos ai results
  = flat_map (fun entry : string * list result =>
      if bool_decide (entry.1 ∈ blocked_videos) then []
      else omap (fun r =>
                   (fun c => PredRow entry.1 (res_segment r).1
                               (res_segment r).2 c (res_score r)
                               (res_gentime r))
                   <$> dict_get ai (res_label r))
                entry.2)
    results.
Proof. unfold _import_prediction. by rewrite import_prediction_fold. Qed.

(** ** Every row falls in one class *)

Lemma filter_classes_cons {A} (f : A -> nat) x l cs :
  NoDup cs ->
  flat_map (fun c => filter (fun y => f y = c) (x :: l)) cs
  ≡ₚ (if bool_decide (f x ∈ cs) then [x] else [])
     ++ flat_map (fun c => filter (fun y => f y = c) l) cs.
Proof.
  induction 1 as [|c cs Hc Hnd IH]; [done|].
  cbn [flat_map]. rewrite filter_cons, IH.
  destruct (decide (f x = c)) as [<-|Hne].
  - rewrite (bool_decide_true (f x ∈ f x :: cs)) by left.
    by rewrite (bool_decide_false (f x ∈ cs)) by done.
  - destruct (decide (f x ∈ cs)) as [Hin|Hin].
    + rewrite (bool_decide_true (f x ∈ c :: cs)) by (by right).
      rewrite (bool_decide_true (f x ∈ cs)) by done. cbn.
      by rewrite <- Permutation_middle.
    + rewrite (bool_decide_false (f x ∈ c :: cs))
        by (by intros [?|?]%elem_of_cons).
      by rewrite (bool_decide_false (f x ∈ cs)) by done.
Qed.

Lemma filter_classes {A} (f : A -> nat) l cs :
  NoDup cs -> Forall (fun x => f x ∈ cs) l ->
  flat_map (fun c => filter (fun y => f y = c) l) cs ≡ₚ l.
Proof.
  intros Hnd. induction 1 as [|x l Hx Hl IH].
  - induction cs as [|c cs IHc]; [done|]. cbn.
    apply NoDup_cons in Hnd as [_ Hnd]. by apply IHc.
  - rewrite filter_classes_cons by done.
    rewrite bool_decide_true by done. cbn. by rewrite IH.
Qed.

Lemma import_prediction_labels blocked (ai : dict) results :
  Forall (fun p => pr_label p ∈ ai.*2) (_import_prediction blocked ai results).
Proof.
  unfold _import_prediction. rewrite import_prediction_fold. cbn [app].
  apply Forall_forall. intros p Hp%list_elem_of_In%in_flat_map.
  destruct Hp as (entry & _ & Hp). destruct (bool_decide _); [done|].
  apply list_elem_of_In, list_elem_of_omap in Hp as (r & _ & Hr).
  destruct (dict_get ai (res_label r)) as [c|] eqn:Hc; [|done].
  cbn in Hr. injection Hr as <-. cbn. by eapply dict_get_value.
Qed.

(** X8.  For the frames and the index [__init__] builds: every label
    number of the ground truth and of the predictions is below the number
    of classes, and the per-class frames the class loop of the wrapper
    selects hold, taken together, every row of the ground truth and every
    row of the predictions exactly once. *)
Theorem every_row_in_one_class subset blocked_videos database results :
  let ctx := init subset blocked_videos database results in
  let gt := ctx.1.1 in
  let ai := ctx.1.2 in
  let pred := ctx.2 in
  Forall (fun r => gt_label r < length ai) gt /\
  Forall (fun p => pr_label p < length ai) pred /\
  flat_map (fun item : string * nat =>
              filter (fun r => gt_label r = item.2) gt) ai ≡ₚ gt /\
  flat_map (fun item : string * nat =>
              filter (fun p => pr_label p = item.2) pred) ai ≡ₚ pred.
Proof.
  intros ctx gt ai pred.
  set (s := _import_ground_truth subset database).
  pose proof (import_database_inv subset database (ImportState [] [] 0) []
                ltac:(done)) as Hinv.
  change (import_inv s (loaded_labels subset database)) in Hinv.
  destruct Hinv as (Hkeys & Hvals & Hrows).
  change (activity_index s) with ai in Hkeys, Hvals, Hrows.
  change (rows s) with gt in Hrows.
  assert (Hlen : cidx s = length ai).
  { apply (f_equal length) in Hvals.
    by rewrite length_fmap, length_seq in Hvals. }
  assert (Hall : forall l, l ∈ loaded_labels subset database ->
            exists c, dict_get ai l = Some c).
  { intros l Hl. apply dict_mem_get. unfold dict_mem.
    apply bool_decide_eq_true.
    by rewrite Hkeys, elem_of_reverse, elem_of_remove_dups, elem_of_reverse. }
  assert (Hgt : Forall (fun r => gt_label r ∈ ai.*2) gt).
  { apply Forall_fmap with (f := gt_label) (P := fun c => c ∈ ai.*2).
    rewrite Hrows. apply Forall_fmap, Forall_forall. intros l Hl.
    destruct (Hall l Hl) as [c Hc]. unfold compose. rewrite Hc. cbn.
    by eapply dict_get_value. }
  assert (Hpred : Forall (fun p => pr_label p ∈ ai.*2) pred)
    by apply import_prediction_labels.
  assert (Hin : forall c, c ∈ ai.*2 <-> c < length ai).
  { intros c. rewrite Hvals, elem_of_seq, Hlen. lia. }
  assert (Hflat : forall {A} (g : nat -> list A),
            flat_map (fun item : string * nat => g item.2) ai
            = flat_map g ai.*2).
  { intros A g. clear. induction ai as [|item ai IH]; [done|].
    cbn. by rewrite IH. }
  assert (Hnd : NoDup ai.*2) by (rewrite Hvals; apply NoDup_seq).
  split; [|split; [|split]].
  - eapply Forall_impl; [exact Hgt|]. intros r. apply Hin.
  - eapply Forall_impl; [exact Hpred|]. intros p. apply Hin.
  - pose proof (Hflat _ (fun c => filter (fun r => gt_label r = c) gt)) as E.
    cbv beta in E. rewrite E. by apply filter_classes.
  - pose proof (Hflat _ (fun c => filter (fun p => pr_label p = c) pred)) as E.
    cbv beta in E. rewrite E. by apply filter_classes.
Qed.

(** ** The arrays the wrapper returns *)

Section Shapes.
Context {np_argsort : ArgSort} {np_sorts : Sorts}.
Variable tiou : float * float -> float * float -> float.
Variable interpolated_prec_rec : list float -> list float -> float.
Variable np_sum : list float -> float.

(** X15.  When every class number of [activity_index] is a column of the
    arrays, the wrapper returns [ap] with one row per threshold and one
    column per class, and [final_tdiff] with one cell per threshold. *)
Theorem wrapper_shapes gt pred (ai : dict) ts :
  Forall (fun item : string * nat => item.2 < length ai) ai ->
  let out := wrapper_compute_average_precision tiou interpolated_prec_rec
               np_sum gt pred ai ts in
  length out.1 = length ts /\
  Forall (fun row => length row = length ai) out.1 /\
  length out.2 = length ts.
Proof.
  intros _. cbv zeta. unfold wrapper_compute_average_precision. cbn [fst snd].
  set (m := class_loop tiou interpolated_prec_rec gt pred ai ts).
  destruct (class_loop_fold tiou interpolated_prec_rec gt pred ts ai
              (Metrics (replicate (length ts) (replicate (length ai) 0%float))
                       (replicate (length ts) (replicate (length ai) 0%float))
                       (replicate (length ts) (replicate (length ai) 0%Z))))
    as (Hap & Htd & Hcnt).
  fold (class_loop tiou interpolated_prec_rec gt pred ai ts) in Hap, Htd, Hcnt.
  fold m in Hap, Htd, Hcnt. cbn [m_ap m_tdiff m_cnt_tp] in Hap, Htd, Hcnt.
  assert (Hvec : forall (A : Type)
            (sel : list float * list float * list Z -> list A),
            (forall g p, length (sel (compute_average_precision_detection
                                        tiou interpolated_prec_rec g p ts))
                         = length ts) ->
            forall m0, shape (length ts) (length ai) m0 ->
            shape (length ts) (length ai)
              (fold_left (fun a (b : string * nat) =>
                            set_col_vec a b.2
                              (sel (class_result tiou interpolated_prec_rec
                                      gt pred ts b.2))) ai m0)).
  { intros A sel Hsel m0 Hm0.
    apply (fold_columns_shape (fun b : string * nat => b.2)
             (fun b => sel (class_result tiou interpolated_prec_rec gt pred
                                         ts b.2))); [done|].
    apply Forall_forall. intros b _. apply Hsel. }
  assert (Hsap : shape (length ts) (length ai) (m_ap m)).
  { rewrite Hap. apply (Hvec _ (fun res => res.1.1)); [|apply shape_replicate].
    intros g p. apply compute_lengths. }
  assert (Hstd : shape (length ts) (length ai) (m_tdiff m)).
  { rewrite Htd. apply (Hvec _ (fun res => res.1.2)); [|apply shape_replicate].
    intros g p. apply compute_lengths. }
  assert (Hscnt : shape (length ts) (length ai) (m_cnt_tp m)).
  { rewrite Hcnt. apply (Hvec _ (fun res => res.2)); [|apply shape_replicate].
    intros g p. apply compute_lengths. }
  destruct Hsap as [Hlen Hrows]. split; [exact Hlen|]. split; [exact Hrows|].
  rewrite length_map, length_zip_with, !length_map.
  destruct Hstd as [-> _], Hscnt as [-> _]. lia.
Qed.

End Shapes.

End ImportMore.

(** ** The decoder, the two refiners and the online loop *)
Module OnlineMore.
Import Np Main MatcherFacts OnlineFacts.
Local Open Scope nat_scope.

(** ** Lists built by loops *)

Lemma Forall_concat_imap {A B} (P : B -> Prop) (l : list A) :
  forall g : nat -> A -> list B,
  (forall j x, l !! j = Some x -> Forall P (g j x)) ->
  Forall P (concat (imap g l)).
Proof.
  induction l as [|x l IH]; intros g Hg; cbn; [done|].
  apply Forall_app. split; [by apply (Hg 0)|].
  apply IH. intros j y Hj. by apply (Hg (S j)).
Qed.

Lemma concat_imap_length {A B} (l : list A) :
  forall (g : nat -> A -> list B) (h : nat -> A -> nat),
  (forall j x, length (g j x) <= h j x) ->
  length (concat (imap g l)) <= sum_list (imap h l).
Proof.
  induction l as [|x l IH]; intros g h Hg; cbn; [done|].
  rewrite length_app. pose proof (Hg 0 x).
  specialize (IH (g ∘ S) (h ∘ S) ltac:(intros; apply Hg)). lia.
Qed.

(** The (position, element) pairs a doubly nested loop goes through,
    beside the list it builds from them. *)
Lemma concat_imap_sources {A B C} (l : list A) :
  forall k (f : nat -> A -> list C) (g : nat -> A -> C -> B),
  let out := concat (imap (fun j x => map (g (k + j) x) (f (k + j) x)) l) in
  let srcs := concat (imap (fun j x => map (pair (k + j)) (f (k + j) x)) l) in
  length out = length srcs /\
  (forall i a c, srcs !! i = Some (a, c) ->
     exists j x, a = k + j /\ l !! j = Some x /\ c ∈ f a x /\
                 out !! i = Some (g a x c)) /\
  (forall j x c, l !! j = Some x -> c ∈ f (k + j) x -> (k + j, c) ∈ srcs) /\
  ((forall j x, l !! j = Some x -> NoDup (f (k + j) x)) -> NoDup srcs).
Proof.
  induction l as [|x l IH]; intros k f g.
  - cbn. split; [done|]. split; [done|]. split; [done|]. intros _. constructor.
  - assert (Eo : imap ((fun j y => map (g (k + j) y) (f (k + j) y)) ∘ S) l
               = imap (fun j y => map (g (S k + j) y) (f (S k + j) y)) l).
    { apply imap_ext. intros j y _. cbn. by rewrite Nat.add_succ_r. }
    assert (Es : imap ((fun j y => map (pair (k + j)) (f (k + j) y)) ∘ S) l
               = imap (fun j y => map (pair (S k + j)) (f (S k + j) y)) l).
    { apply imap_ext. intros j y _. cbn. by rewrite Nat.add_succ_r. }
    destruct (IH (S k) f g) as (Hlen & Hpos & Hmem & Hnd). clear IH.
    cbv zeta. cbn [imap]. rewrite Eo, Es, Nat.add_0_r. cbn [concat].
    clear Eo Es.
    set (out' := concat (imap (fun j y => map (g (S k + j) y)
                                              (f (S k + j) y)) l)) in *.
    set (srcs' := concat (imap (fun j y => map (pair (S k + j))
                                               (f (S k + j) y)) l)) in *.
    split; [|split; [|split]].
    + rewrite !length_app, !length_map. by rewrite Hlen.
    + intros i a c Hi. apply lookup_app_Some in Hi as [Hi|[Hge Hi]].
      * change (map (pair k) (f k x)) with (pair k <$> f k x) in Hi.
        apply list_lookup_fmap_Some in Hi as (c' & [= -> ->] & Hc').
        exists 0, x. split; [lia|]. split; [done|].
        split; [by eapply list_elem_of_lookup_2|].
        rewrite lookup_app_l by (rewrite length_map; by eapply lookup_lt_Some).
        change (map (g k x) (f k x)) with (g k x <$> f k x).
        by rewrite list_lookup_fmap, Hc'.
      * rewrite length_map in Hge, Hi.
        destruct (Hpos _ _ _ Hi) as (j & y & -> & Hy & Hc & Ho).
        exists (S j), y. split; [lia|]. split; [done|]. split; [done|].
        rewrite lookup_app_r by (rewrite length_map; lia).
        by rewrite length_map.
    + intros j y c Hy Hc. apply elem_of_app. destruct j as [|j].
      * left. rewrite Nat.add_0_r in *. injection Hy as ->.
        apply list_elem_of_fmap. by exists c.
      * right. rewrite Nat.add_succ_r in *. by eapply Hmem.
    + intros Hdup. apply NoDup_app. split; [|split].
      * change (map (pair k) (f k x)) with (pair k <$> f k x).
        apply NoDup_fmap_2; [intros c1 c2; congruence|].
        specialize (Hdup 0 x eq_refl). by rewrite Nat.add_0_r in Hdup.
      * intros [a c] Hin1 Hin2.
        apply list_elem_of_fmap in Hin1 as (c' & [= -> ->] & _).
        apply list_elem_of_lookup in Hin2 as [i Hi].
        destruct (Hpos _ _ _ Hi) as (j & y & Ha & _). lia.
      * apply Hnd. intros j y Hy. specialize (Hdup (S j) y Hy).
        by rewrite Nat.add_succ_r in Hdup.
Qed.

Lemma fold_left_append {A B} (g : A -> list B) (l : list A) : forall acc,
  fold_left (fun acc x => acc ++ g x) l acc = acc ++ flat_map g l.
Proof.
  induction l as [|x l IH]; intros acc; cbn.
  - by rewrite app_nil_r.
  - by rewrite IH, <- app_assoc.
Qed.

Lemma lookup_total_map_seq `{Inhabited B} (g : nat -> B) n k :
  k < n -> map g (seq 0 n) !!! k = g k.
Proof.
  intros Hk. apply list_lookup_total_correct.
  change (map g (seq 0 n)) with (g <$> seq 0 n).
  rewrite list_lookup_fmap, lookup_seq_lt by done. done.
Qed.

(** One shift of a queue that holds the last [w] rows pushed. *)
Lemma sliding_S {A} (z : A) (f : nat -> A) w k :
  0 < w ->
  match sliding z f w k with
  | [] => []
  | _ :: later => later ++ [f k]
  end = sliding z f w (S k).
Proof.
  intros Hw. unfold sliding. cbv zeta.
  destruct (le_lt_dec w k) as [Hle|Hlt].
  - rewrite !Nat.min_r by lia. rewrite Nat.sub_diag. cbn [replicate app].
    destruct w as [|w']; [lia|].
    replace (S k - S w') with (S (k - S w')) by lia.
    rewrite (seq_S w' (S (k - S w'))), map_app. cbn [seq map app].
    by replace (S (k - S w') + w') with k by lia.
  - rewrite !Nat.min_l by lia. rewrite !Nat.sub_diag.
    replace (w - k) with (S (w - S k)) by lia. cbn [replicate app].
    by rewrite seq_S, map_app, app_assoc.
Qed.

Lemma sliding_0 {A} (z : A) (f : nat -> A) w : sliding z f w 0 = replicate w z.
Proof.
  unfold sliding. cbn. by rewrite Nat.sub_0_r, app_nil_r.
Qed.

(** A proposition on every (earlier elements, element) split of a list
    that grows at its end. *)
Lemma splits_snoc {A} (P : list A -> A -> Prop) (l : list A) x :
  (forall pre p post, l = pre ++ p :: post -> P pre p) ->
  P l x ->
  forall pre p post, l ++ [x] = pre ++ p :: post -> P pre p.
Proof.
  intros Hl Hx pre p post. destruct post as [|y post _] using rev_ind.
  - intros [-> ->]%app_inj_tail. exact Hx.
  - rewrite app_comm_cons, app_assoc. intros [-> _]%app_inj_tail.
    by eapply Hl.
Qed.

Section OnlineMore.
Context {F : Type} `{FloatOps F}.
Variable label_name : list string.

Lemma argwhere_gt_length (row : list F) thr :
  length (argwhere_gt row thr) <= length row - 1.
Proof.
  unfold argwhere_gt. rewrite length_fmap.
  etransitivity; [apply length_filter|].
  rewrite length_imap, removelast_firstn_len, length_take. lia.
Qed.

(** X9.  Every proposal decoded for a frame has a score strictly above
    the threshold, read from a class column other than the last of some
    anchor's row, the label of that column, and the time of the frame as
    its generation time.  The proposals answer one to one, position by
    position, to the pairs of an anchor and a class other than the last
    whose score is strictly above the threshold, each pair taken once: a
    frame gives one proposal for each such pair and none besides. *)
Theorem decoded_above_threshold opt idx frame_to_time
  (cls_anc : list (list F)) (reg_anc : list (F * F)) :
  let out := decode_frame label_name opt idx frame_to_time cls_anc reg_anc in
  Forall (fun p =>
            f_gt (score p) (threshold opt) = true /\
            gentime p
            = f_div (f_mul (f_of_nat idx) frame_to_time) (f_of_nat 100) /\
            exists anc_idx c,
              anc_idx < length (anchors opt) /\
              c < length (cls_anc !!! anc_idx) - 1 /\
              score p = (cls_anc !!! anc_idx) !!! c /\
              label p = label_name !!! c) out /\
  length out
  <= sum_list (imap (fun anc_idx _ => length (cls_anc !!! anc_idx) - 1)
                    (anchors opt)) /\
  exists sources : list (nat * nat),
    NoDup sources /\
    (forall anc_idx c, (anc_idx, c) ∈ sources <->
       anc_idx < length (anchors opt) /\
       c < length (cls_anc !!! anc_idx) - 1 /\
       f_gt ((cls_anc !!! anc_idx) !!! c) (threshold opt) = true) /\
    length out = length sources /\
    forall i anc_idx c, sources !! i = Some (anc_idx, c) ->
      exists p, out !! i = Some p /\
                score p = (cls_anc !!! anc_idx) !!! c /\
                label p = label_name !!! c.
Proof.
  cbv zeta. unfold decode_frame, for_enumerate.
  rewrite decode_loop_spec. cbn [app]. split; [|split].
  - apply Forall_concat_imap. intros j anchor Hj. cbn [Nat.add].
    apply Forall_forall. intros p Hp.
    apply list_elem_of_fmap in Hp as (c & -> & Hc).
    apply argwhere_gt_spec in Hc as [Hlt Hgt]. cbn.
    split; [exact Hgt|]. split; [done|].
    exists j, c. split; [by eapply lookup_lt_Some|]. done.
  - apply concat_imap_length. intros j anchor. cbn [Nat.add].
    rewrite length_map. apply argwhere_gt_length.
  - destruct (concat_imap_sources (anchors opt) 0
                (fun j (_ : F) =>
                   argwhere_gt (cls_anc !!! j) (threshold opt))
                (fun j anchor c =>
                   candidate label_name idx frame_to_time anchor
                     (cls_anc !!! j) (reg_anc !!! j) c))
      as (Hlen & Hpos & Hmem & Hnd).
    exists (concat (imap (fun j (_ : F) =>
                            map (pair (0 + j))
                                (argwhere_gt (cls_anc !!! (0 + j))
                                             (threshold opt)))
                         (anchors opt))).
    split; [|split; [|split]].
    + apply Hnd. intros j x _. apply argwhere_gt_spec.
    + intros a c. split.
      * intros [i Hi]%list_elem_of_lookup.
        destruct (Hpos _ _ _ Hi) as (j & x & -> & Hx & Hc & _).
        apply argwhere_gt_spec in Hc as [Hlt Hgt].
        split; [by eapply lookup_lt_Some|]. done.
      * intros (Ha & Hc & Hgt).
        destruct (lookup_lt_is_Some_2 _ _ Ha) as [x Hx].
        apply (Hmem a x c Hx). apply argwhere_gt_spec. done.
    + exact Hlen.
    + intros i a c Hi.
      destruct (Hpos _ _ _ Hi) as (j & x & -> & Hx & Hc & Ho).
      eexists. split; [exact Ho|]. done.
Qed.

Local Abbreviation proposal := (@proposal F).
Variable non_max_suppression : list proposal -> F -> list proposal.
Variable Overlap : Type.
Variable check_overlap_proposal :
  list proposal -> proposal -> F -> option Overlap.
Variable suppress_net : list (list F) -> list F.
Variable model : list (list F) -> list (list F) * list (F * F).
Variable softmax : list F -> list F.
Variable get_base_data : string -> nat -> list F.
Variable feat_dim : nat.

Local Abbreviation visit := (visit label_name Overlap check_overlap_proposal).
Local Abbreviation frame_pool := (frame_pool label_name non_max_suppression).
Local Abbreviation refine_frame :=
  (refine_frame label_name non_max_suppression Overlap check_overlap_proposal
                suppress_net).
Local Abbreviation video_after :=
  (video_after label_name non_max_suppression Overlap check_overlap_proposal
               suppress_net).
Local Abbreviation eval_map_supnet :=
  (eval_map_supnet label_name non_max_suppression Overlap
                   check_overlap_proposal suppress_net).
Local Abbreviation eval_map_nms :=
  (eval_map_nms label_name non_max_suppression).
Local Abbreviation score_window :=
  (score_window label_name non_max_suppression).
Local Abbreviation online_after :=
  (online_after label_name non_max_suppression Overlap check_overlap_proposal
                suppress_net model softmax get_base_data feat_dim).
Local Abbreviation test_online :=
  (test_online label_name non_max_suppression Overlap check_overlap_proposal
               suppress_net model softmax get_base_data feat_dim).
Local Abbreviation window := (window get_base_data feat_dim).
Local Abbreviation recorded := (recorded model softmax get_base_data feat_dim).

(** The conversion factor of one video. *)
Local Abbreviation f2t_of d name :=
  (f_div (f_mul (f_of_nat 100) (video_time d name))
         (f_of_nat (video_len d name))).

Lemma nms_video_fold opt d names : forall res,
  fold_left (nms_video label_name non_max_suppression opt d) names (res, [])
  = (res ++ map (fun name =>
        (name,
         non_max_suppression
           (flat_map (fun idx =>
                        decode_frame label_name opt idx (f2t_of d name)
                          (output_cls d name !!! idx)
                          (output_reg d name !!! idx))
                     (seq 0 (video_len d name)))
           (soft_nms opt)))
      names, []).
Proof.
  induction names as [|name names IH]; intros res; cbn [fold_left map].
  - by rewrite app_nil_r.
  - unfold nms_video at 2. cbn [fst snd]. rewrite IH.
    unfold pool_frames. rewrite fold_left_append. cbn [app].
    by rewrite <- app_assoc.
Qed.

(** X10.  [eval_map_nms] gives each video of the list, in order, the
    result of one call of [non_max_suppression] on the candidates decoded
    for all its frames, in frame order; nothing is carried from one video
    to the next. *)
Theorem eval_map_nms_per_video opt d :
  eval_map_nms opt d
  = (map (fun name =>
        (name,
         non_max_suppression
           (flat_map (fun idx =>
                        decode_frame label_name opt idx
                          (f_div (f_mul (f_of_nat 100) (video_time d name))
                                 (f_of_nat (video_len d name)))
                          (output_cls d name !!! idx)
                          (output_reg d name !!! idx))
                     (seq 0 (video_len d name)))
           (soft_nms opt)))
      (video_list d), []).
Proof. unfold Main.eval_map_nms. by rewrite nms_video_fold. Qed.

(** *** The queue of scores *)

Lemma write_scores_last (later : list (list F)) pool : forall z,
  write_scores label_name (later ++ [z]) pool
  = later ++ [fold_left (fun row p =>
                           <[index_of label_name (label p) := score p]> row)
                        pool z].
Proof.
  unfold write_scores.
  induction pool as [|p pool IH]; intros z; cbn [fold_left]; [done|].
  rewrite <- IH. f_equal. unfold set2.
  rewrite length_app. cbn [length].
  replace (length later + 1 - 1) with (length later + 0) by lia.
  by rewrite alter_app_r.
Qed.

Lemma frame_queue_shift opt r pool :
  frame_queue label_name opt r pool
  = match conf_queue r with
    | [] => []
    | _ :: later => later ++ [score_row label_name opt pool]
    end.
Proof.
  unfold frame_queue, shift_queue. destruct (conf_queue r) as [|row later].
  - unfold write_scores. induction pool as [|p pool IH]; [done|]. exact IH.
  - by rewrite write_scores_last.
Qed.

Lemma conf_queue_sliding opt d name acc k :
  0 < segment_size opt ->
  conf_queue (video_after opt d name acc k)
  = sliding (replicate (num_of_class opt - 1) (f_of_nat 0))
      (fun j => score_row label_name opt
                  (frame_pool opt (f2t_of d name) j
                     (output_cls d name !!! j) (output_reg d name !!! j)))
      (segment_size opt) k.
Proof.
  intros Hw. induction k as [|k IH].
  - by rewrite sliding_0.
  - rewrite video_after_S. unfold Main.refine_frame. cbn [conf_queue].
    rewrite frame_queue_shift, IH.
    exact (sliding_S (replicate (num_of_class opt - 1) (f_of_nat 0))
             (fun j => score_row label_name opt
                         (frame_pool opt (f2t_of d name) j
                            (output_cls d name !!! j)
                            (output_reg d name !!! j)))
             (segment_size opt) k Hw).
Qed.

(** X11.  With a queue of at least one row, the window the suppression
    network is given at frame [idx], which is also the queue left after
    the frame, holds the rows of scores of the last [segment_size] frames
    up to [idx], oldest first, after rows of zeros when fewer frames have
    passed; it does not depend on what was accepted so far. *)
Theorem suppression_window opt d name acc idx :
  0 < segment_size opt ->
  let frame_to_time := f_div (f_mul (f_of_nat 100) (video_time d name))
                             (f_of_nat (video_len d name)) in
  let pool := frame_pool opt frame_to_time idx
                (output_cls d name !!! idx) (output_reg d name !!! idx) in
  frame_queue label_name opt (video_after opt d name acc idx) pool
  = score_window opt d name idx /\
  conf_queue (video_after opt d name acc (S idx))
  = score_window opt d name idx.
Proof.
  intros Hw frame_to_time pool.
  assert (Hq : conf_queue (video_after opt d name acc (S idx))
               = score_window opt d name idx)
    by (by apply conf_queue_sliding).
  split; [|exact Hq]. rewrite <- Hq. by rewrite video_after_S.
Qed.

(** *** The accepted set *)

Lemma visits_sound opt conf (R : list proposal -> proposal -> Prop) vs :
  (forall l v, v ∈ vs ->
     f_gt (conf !!! v.1) (sup_threshold opt) = true ->
     label v.2 = label_name !!! v.1 ->
     check_overlap_proposal l v.2 (soft_nms opt) = None ->
     R l v.2) ->
  forall l,
  (forall pre p post, l = pre ++ p :: post -> R pre p) ->
  forall pre p post,
    fold_left (visit opt conf) vs l = pre ++ p :: post -> R pre p.
Proof.
  induction vs as [|v vs IH]; intros Hvs l Hl; cbn [fold_left]; [exact Hl|].
  apply IH.
  - intros l' v' Hv'. apply Hvs. by right.
  - unfold Main.visit, accept_one.
    destruct (f_gt _ _) eqn:Hgate; cbn [andb]; [|exact Hl].
    destruct (String.eqb_spec (label v.2) (label_name !!! v.1)) as [Hlab|_];
      [|exact Hl].
    destruct (check_overlap_proposal l v.2 (soft_nms opt)) eqn:Hchk;
      [exact Hl|].
    apply splits_snoc; [exact Hl|]. apply Hvs; [by left|done..].
Qed.

Lemma elem_of_visits opt pool (v : nat * proposal) :
  v ∈ visits opt pool -> v.1 < num_of_class opt - 1 /\ v.2 ∈ pool.
Proof.
  unfold visits. intros Hv%list_elem_of_In%in_flat_map.
  destruct Hv as (cls & Hcls%list_elem_of_In & Hv%list_elem_of_In).
  apply elem_of_seq in Hcls.
  apply list_elem_of_fmap in Hv as (p & -> & Hp). cbn. split; [lia|done].
Qed.

(** X12.  Every proposal of the accepted set of a video was, when it was
    appended, found free of overlap by [check_overlap_proposal] against
    exactly the proposals before it in the set; it belongs to the
    suppressed pool of a frame already seen, and carries the label of a
    class other than the last whose gate score was strictly above
    [sup_threshold] at that frame. *)
Theorem accepted_set_sound opt d name k pre p post :
  proposal_dict (video_after opt d name [] k) = pre ++ p :: post ->
  check_overlap_proposal pre p (soft_nms opt) = None /\
  exists idx cls,
    idx < k /\ cls < num_of_class opt - 1 /\
    p ∈ frame_pool opt
          (f_div (f_mul (f_of_nat 100) (video_time d name))
                 (f_of_nat (video_len d name)))
          idx (output_cls d name !!! idx) (output_reg d name !!! idx) /\
    label p = label_name !!! cls /\
    f_gt (suppress_net (conf_queue (video_after opt d name [] (S idx)))
          !!! cls) (sup_threshold opt) = true.
Proof.
  revert pre p post. induction k as [|k IH]; intros pre p post.
  - cbn. by destruct pre.
  - rewrite video_after_S. unfold Main.refine_frame at 1.
    cbn [proposal_dict]. rewrite accept_classes_visits. intros Hsplit.
    refine (visits_sound opt _
              (fun pre p =>
                 check_overlap_proposal pre p (soft_nms opt) = None /\
                 exists idx cls,
                   idx < S k /\ cls < num_of_class opt - 1 /\
                   p ∈ frame_pool opt (f2t_of d name) idx
                         (output_cls d name !!! idx)
                         (output_reg d name !!! idx) /\
                   label p = label_name !!! cls /\
                   f_gt (suppress_net
                           (conf_queue (video_after opt d name [] (S idx)))
                         !!! cls) (sup_threshold opt) = true)
              _ _ _ _ pre p post Hsplit).
    + intros l v Hv Hgate Hlab Hchk.
      apply elem_of_visits in Hv as [Hcls Hpool].
      split; [exact Hchk|]. exists k, v.1.
      split; [lia|]. split; [exact Hcls|]. split; [exact Hpool|].
      split; [exact Hlab|]. rewrite video_after_S. exact Hgate.
    + intros pre' p' post' Hsplit'.
      destruct (IH _ _ _ Hsplit') as (Hchk & idx & cls & Hidx & Hrest).
      split; [exact Hchk|]. exists idx, cls. split; [lia|exact Hrest].
Qed.

(** *** [test_online] *)

Lemma online_after_S opt d name acc k :
  online_after opt d name acc (S k)
  = online_frame label_name non_max_suppression Overlap
      check_overlap_proposal suppress_net model softmax get_base_data
      opt (f2t_of d name) name (online_after opt d name acc k) k.
Proof. unfold Main.online_after. by rewrite seq_S, fold_left_app. Qed.

Lemma online_after_offline opt d name acc k :
  0 < segment_size opt -> k <= video_len d name ->
  online_after opt d name acc k
  = Online (sliding (replicate feat_dim (f_of_nat 0)) (get_base_data name)
                    (segment_size opt) k)
           (video_after opt (recorded opt d) name acc k).
Proof.
  intros Hw. induction k as [|k IH]; intros Hk.
  - unfold Main.online_after, Main.video_after. cbn [seq fold_left].
    by rewrite sliding_0.
  - rewrite online_after_S, IH by lia. rewrite video_after_S.
    unfold online_frame, Main.refine_frame, Main.frame_pool.
    cbn [input_queue online_refiner].
    unfold shift_in. rewrite sliding_S by done.
    cbn [output_cls output_reg recorded video_time video_len].
    rewrite !lookup_total_map_seq by lia.
    reflexivity.
Qed.

(** X13.  With a queue of at least one row, the input queue of
    [test_online] after frame [idx], which the network was run on at that
    frame, holds the features of the last [segment_size] frames up to
    [idx], oldest first, after rows of zeros when fewer frames have
    passed. *)
Theorem network_input_window opt d name acc idx :
  0 < segment_size opt ->
  input_queue (online_after opt d name acc (S idx)) = window opt name idx.
Proof.
  intros Hw. revert acc.
  assert (Hall : forall k acc,
            input_queue (online_after opt d name acc k)
            = sliding (replicate feat_dim (f_of_nat 0)) (get_base_data name)
                      (segment_size opt) k).
  { induction k as [|k IH]; intros acc.
    - unfold Main.online_after. cbn [seq fold_left input_queue].
      by rewrite sliding_0.
    - rewrite online_after_S. unfold online_frame. cbn [input_queue].
      unfold shift_in. rewrite IH. by rewrite sliding_S. }
  intros acc. by rewrite Hall.
Qed.

Lemma test_online_fold opt d names : forall res,
  fold_left (online_video label_name non_max_suppression Overlap
               check_overlap_proposal suppress_net model softmax
               get_base_data feat_dim opt d) names (res, [])
  = (res ++ map (fun name =>
        (name,
         proposal_dict
           (online_refiner
              (online_after opt d name [] (video_len d name)))))
      names, []).
Proof.
  induction names as [|name names IH]; intros res; cbn [fold_left map].
  - by rewrite app_nil_r.
  - unfold online_video at 2. cbn [fst snd]. rewrite IH.
    by rewrite <- app_assoc.
Qed.

(** X14.  With a queue of at least one row, [test_online] leaves, video by
    video, the proposals [eval_map_supnet] computes from the outputs of
    the network recorded frame by frame on these windows: the online loop
    and the offline refiner agree. *)
Theorem online_matches_offline opt d :
  0 < segment_size opt ->
  test_online opt d = eval_map_supnet opt (recorded opt d).
Proof.
  intros Hw. unfold Main.test_online, Main.eval_map_supnet.
  rewrite test_online_fold, eval_map_supnet_fold. cbn [app].
  f_equal. apply map_ext. intros name.
  by rewrite online_after_offline.
Qed.

End OnlineMore.

End OnlineMore.

(** ** The further properties on the sample data *)
Module OnSampleMore.
Import Np Evaluation Order Rows Stated Ledger.
Import SortFacts MatcherFacts WrapperFacts OnlineFacts.
Import MatcherMore ImportMore OnlineMore.
Local Open Scope Z_scope.

(** The sample data is sorted by insertion. *)
#[local] Existing Instance Sample.insertion_argsort.
#[local] Existing Instance insertion_sorts.

Lemma true_positives_bounded_witness :
  (0 < length [0.5%float])%nat /\
  (compute_average_precision_detection Sample.temporal_iou Sample.no_ap
     Sample.gt_v Sample.pred_v [0.5%float]).2 !!! 0%nat
  <= Z.of_nat (length Sample.gt_v).
Proof.
  assert (H1 : (0 < length [0.5%float])%nat) by (cbn; lia).
  split; [exact H1|].
  destruct (true_positives_bounded Sample.temporal_iou Sample.no_ap
              Sample.gt_v Sample.pred_v [0.5%float] 0 H1) as (_ & Hgt & _).
  exact Hgt.
Defined.

Lemma locked_pair_matches_witness :
  let st := matching Sample.temporal_iou Sample.gt_v Sample.pred_v
              [0.5%float] in
  (0 < length [0.5%float])%nat /\ (0 < length Sample.gt_v)%nat /\
  get2 (lock_gt st) 0 0 = Z.of_nat 1 /\
  get2 (tp st) 0 1 = 1 /\ get2 (fp st) 0 1 = 0.
Proof.
  intros st.
  assert (H1 : (0 < length [0.5%float])%nat) by (cbn; lia).
  assert (H2 : (0 < length Sample.gt_v)%nat) by (cbn; lia).
  assert (H3 : get2 (lock_gt st) 0 0 = Z.of_nat 1) by (vm_compute; reflexivity).
  split; [exact H1|]. split; [exact H2|]. split; [exact H3|].
  destruct (locked_pair_matches Sample.temporal_iou Sample.gt_v Sample.pred_v
              [0.5%float] 0 0 1 H1 H2 H3)
    as (p & gr & _ & _ & _ & _ & Ht & Hf & _).
  split; [exact Ht|exact Hf].
Defined.

Lemma true_positive_holds_lock_witness :
  let st := matching Sample.temporal_iou Sample.gt_v Sample.pred_v
              [0.5%float] in
  (0 < length [0.5%float])%nat /\ (1 < length Sample.pred_v)%nat /\
  get2 (tp st) 0 1 = 1 /\
  exists g, (g < length Sample.gt_v)%nat /\
            get2 (lock_gt st) 0 g = Z.of_nat 1.
Proof.
  intros st.
  assert (H1 : (0 < length [0.5%float])%nat) by (cbn; lia).
  assert (H2 : (1 < length Sample.pred_v)%nat) by (cbn; lia).
  assert (H3 : get2 (tp st) 0 1 = 1) by (vm_compute; reflexivity).
  split; [exact H1|]. split; [exact H2|]. split; [exact H3|].
  exact (true_positive_holds_lock Sample.temporal_iou Sample.gt_v
           Sample.pred_v [0.5%float] 0 1 H1 H2 H3).
Defined.


Lemma reported_latencies_finite_witness :
  (0 < length [0.5%float])%nat /\ (1 < length Sample.pred_v)%nat /\
  non_finite
    (get2 (timediff (matching Sample.temporal_iou Sample.gt_v Sample.pred_v
                       [0.5%float])) 0 1) = false.
Proof.
  assert (H1 : (0 < length [0.5%float])%nat) by (cbn; lia).
  assert (H2 : (1 < length Sample.pred_v)%nat) by (cbn; lia).
  split; [exact H1|]. split; [exact H2|].
  destruct (reported_latencies_finite Sample.temporal_iou Sample.no_ap
              Sample.left_sum Sample.gt_v Sample.pred_v [] [0.5%float])
    as (_ & _ & Hcell).
  exact (Hcell 0%nat 1%nat H1 H2).
Defined.

Lemma wrapper_shapes_witness :
  Forall (fun item : string * nat => (item.2 < length [("run", 0%nat)])%nat)
         [("run", 0%nat)] /\
  length (wrapper_compute_average_precision Sample.temporal_iou Sample.no_ap
            Sample.left_sum Sample.gt_v Sample.pred_v [("run", 0%nat)]
            [0.5%float]).2
  = length [0.5%float].
Proof.
  assert (H1 : Forall (fun item : string * nat =>
                         (item.2 < length [("run", 0%nat)])%nat)
                      [("run", 0%nat)])
    by (constructor; [cbn; lia|constructor]).
  split; [exact H1|].
  destruct (wrapper_shapes Sample.temporal_iou Sample.no_ap Sample.left_sum
              Sample.gt_v Sample.pred_v [("run", 0%nat)] [0.5%float] H1)
    as (_ & _ & Hlen).
  exact Hlen.
Defined.

Lemma suppression_window_witness :
  (0 < Main.segment_size Sample.options)%nat /\
  Main.conf_queue
    (@Main.video_after float Sample.float_ops ["a"] Sample.keep_all unit
       Sample.no_overlap Sample.newest_row Sample.options Sample.dataset
       "v" [] 1)
  = @Main.score_window float Sample.float_ops ["a"] Sample.keep_all
      Sample.options Sample.dataset "v" 0.
Proof.
  assert (H1 : (0 < Main.segment_size Sample.options)%nat) by (cbn; lia).
  split; [exact H1|].
  destruct (@suppression_window float Sample.float_ops ["a"] Sample.keep_all
              unit Sample.no_overlap Sample.newest_row Sample.options
              Sample.dataset "v" [] 0%nat H1) as [_ Hq].
  exact Hq.
Defined.

Lemma accepted_set_sound_witness :
  let p := @Main.Proposal float ((-4)%float, 0%float) 0.75%float "a" 0%float in
  Main.proposal_dict
    (@Main.video_after float Sample.float_ops ["a"] Sample.keep_all unit
       Sample.no_overlap Sample.newest_row Sample.options Sample.dataset
       "v" [] 1)
  = [] ++ p :: [] /\
  Sample.no_overlap [] p (Main.soft_nms Sample.options) = None.
Proof.
  intros p.
  assert (H1 : Main.proposal_dict
                 (@Main.video_after float Sample.float_ops ["a"]
                    Sample.keep_all unit Sample.no_overlap Sample.newest_row
                    Sample.options Sample.dataset "v" [] 1)
               = [] ++ p :: [])
    by (vm_compute; reflexivity).
  split; [exact H1|].
  destruct (@accepted_set_sound float Sample.float_ops ["a"] Sample.keep_all
              unit Sample.no_overlap Sample.newest_row Sample.options
              Sample.dataset "v" 1%nat [] p [] H1) as [Hchk _].
  exact Hchk.
Defined.

Lemma network_input_window_witness :
  (0 < Main.segment_size Sample.options)%nat /\
  Main.input_queue
    (@Main.online_after float Sample.float_ops ["a"] Sample.keep_all unit
       Sample.no_overlap Sample.newest_row Sample.echo_net Sample.no_softmax
       Sample.features 2 Sample.options Sample.dataset "v" [] 1)
  = @Main.window float Sample.float_ops Sample.features 2 Sample.options
      "v" 0.
Proof.
  assert (H1 : (0 < Main.segment_size Sample.options)%nat) by (cbn; lia).
  split; [exact H1|].
  exact (@network_input_window float Sample.float_ops ["a"] Sample.keep_all
           unit Sample.no_overlap Sample.newest_row Sample.echo_net
           Sample.no_softmax Sample.features 2%nat Sample.options
           Sample.dataset "v" [] 0%nat H1).
Defined.

Lemma online_matches_offline_witness :
  (0 < Main.segment_size Sample.options)%nat /\
  @Main.test_online float Sample.float_ops ["a"] Sample.keep_all unit
    Sample.no_overlap Sample.newest_row Sample.echo_net Sample.no_softmax
    Sample.features 2 Sample.options Sample.dataset
  = @Main.eval_map_supnet float Sample.float_ops ["a"] Sample.keep_all unit
      Sample.no_overlap Sample.newest_row Sample.options
      (@Main.recorded float Sample.float_ops Sample.echo_net
         Sample.no_softmax Sample.features 2 Sample.options Sample.dataset).
Proof.
  assert (H1 : (0 < Main.segment_size Sample.options)%nat) by (cbn; lia).
  split; [exact H1|].
  exact (@online_matches_offline float Sample.float_ops ["a"] Sample.keep_all
           unit Sample.no_overlap Sample.newest_row Sample.echo_net
           Sample.no_softmax Sample.features 2%nat Sample.options
           Sample.dataset H1).
Defined.

End OnSampleMore.
